(** * folium/utilities.py: colour codec, gradients, ColorBrewer schemes
      and legend ticks

    A shallow embedding of the helper functions of [folium/utilities.py]
    and the properties of them that the specification states.

    Modelling conventions.
    - A Python [int] is a [Z].
    - The module runs under [from __future__ import division], so [/] is
      true division and its result a [float].  In the codec, the gradient
      and the schemes a number that may be a [float] is a rational [Q],
      arithmetic is exact and numeric equality ([==]) is [Qeq]: the
      rounding of IEEE-754 binary64 is not modelled there.
    - In the legend scaler the rounding of the division decides which
      labels survive.  [legend_scaler] is given twice: with exact
      arithmetic, and in module [Binary64] with the arithmetic of the
      interpreter, where a float is the rational that it denotes and an
      operation rounds to the nearest binary64 number, ties to even.
    - A Python [str] is a [string] of one-byte characters, and a
      one-character string an [ascii].  Module [Unicode] gives
      [hex_to_rgb] once more on strings of arbitrary code points.
    - A Python exception is a constructor of [exn]; a function that may
      raise returns a [result].
    - [transform_data] and [split_six] work on pandas and numpy objects
      and are not modelled; the local [base] of [split_six] computes with
      [math.log10] and [pow] of the C library, whose results IEEE 754
      does not fix. *)

From Stdlib Require Import ZArith QArith Qround Qpower Qabs List String Ascii Bool.
From Stdlib Require Import Lia Lqa DecimalString SpecFloat.
Import ListNotations.

(** ** Python primitives *)

Module Py.

Inductive exn : Set :=
| IndexError
| ValueError
| ZeroDivisionError
| OverflowError.

Inductive result (A : Type) : Type :=
| Ok (a : A)
| Raise (e : exn).

Arguments Ok {A} a.
Arguments Raise {A} e.

Definition bind {A B : Type} (m : result A) (k : A -> result B) : result B :=
  match m with
  | Ok a => k a
  | Raise e => Raise e
  end.

(** [[f(x) for x in l]]: elements are evaluated left to right and the
    first exception escapes. *)
Fixpoint comprehension {A B : Type} (f : A -> result B) (l : list A)
  : result (list B) :=
  match l with
  | [] => Ok []
  | x :: l' =>
      bind (f x) (fun y =>
      bind (comprehension f l') (fun ys => Ok (y :: ys)))
  end.

(** [for x in l: s = body(x, s)], with exceptions. *)
Fixpoint for_each {A S : Type} (l : list A) (body : A -> S -> result S)
  (s : S) : result S :=
  match l with
  | [] => Ok s
  | x :: l' => bind (body x s) (for_each l' body)
  end.

(** [range(n)] for an [int] [n]; empty when [n <= 0]. *)
Definition range (n : Z) : list Z :=
  map Z.of_nat (seq 0 (Z.to_nat n)).

(** [len(l)] *)
Definition len {A : Type} (l : list A) : Z := Z.of_nat (List.length l).

(** [l[i]] on a list: a negative index counts from the end. *)
Definition getitem {A : Type} (l : list A) (i : Z) : result A :=
  let j := if (i <? 0)%Z then (i + len l)%Z else i in
  if (j <? 0)%Z then Raise IndexError
  else match nth_error l (Z.to_nat j) with
       | Some x => Ok x
       | None => Raise IndexError
       end.

(** [s[i]] on a string. *)
Definition str_getitem (s : string) (i : Z) : result ascii :=
  getitem (list_ascii_of_string s) i.

(** [s[lo:hi]] for [0 <= lo <= hi]: clipped to the string, never raises. *)
Definition str_slice (s : string) (lo hi : nat) : string :=
  substring lo (hi - lo) s.

(** [s[lo:]] for [0 <= lo]. *)
Definition str_slice_from (s : string) (lo : nat) : string :=
  substring lo (String.length s - lo) s.

(** [''.join(l)] *)
Definition join (l : list string) : string :=
  fold_right String.append EmptyString l.

(** [str(n)] for an [int]. *)
Definition str (n : Z) : string :=
  NilEmpty.string_of_int (Z.to_int n).

(** [int(c)] for a one-character string [c]: the value of a decimal
    digit, [ValueError] for every other character. *)
Definition int_of_char (c : ascii) : result Z :=
  let n := Z.of_nat (nat_of_ascii c) in
  if ((48 <=? n) && (n <=? 57))%Z then Ok (n - 48)%Z
  else Raise ValueError.

(** [s.index(c)] for a one-character string [c]. *)
Fixpoint str_index (s : string) (c : ascii) : result Z :=
  match s with
  | EmptyString => Raise ValueError
  | String d s' =>
      if Ascii.eqb d c then Ok 0%Z
      else bind (str_index s' c) (fun i => Ok (i + 1)%Z)
  end.

(** An [int] used as a number ([float(n)], or the implicit conversion of
    mixed arithmetic). *)
Definition num (n : Z) : Q := inject_Z n.

(** [int(x)] for a number: truncation towards zero. *)
Definition int (x : Q) : Z :=
  Z.quot (Qnum x) (Z.pos (Qden x)).

(** [x % d] for numbers, [d] non-zero: the result has the sign of [d]. *)
Definition mod_ (x d : Q) : Q :=
  x - d * inject_Z (Qfloor (x / d)).

(** [x / d] (true division) where [d] may be zero. *)
Definition truediv (x d : Q) : result Q :=
  if Qeq_bool d 0 then Raise ZeroDivisionError else Ok (x / d).

(** [x % d] where [d] may be zero. *)
Definition modulo (x d : Q) : result Q :=
  if Qeq_bool d 0 then Raise ZeroDivisionError else Ok (mod_ x d).

End Py.

Import Py.

Notation "x <- m ;; k" := (bind m (fun x => k))
  (at level 61, m at next level, right associativity).

Open Scope string_scope.
Open Scope Z_scope.

(** ** [rgb_to_hex] *)

(** [_numeric_to_indhex]: one digit value to its hexadecimal letter. *)
Definition _numeric_to_indhex (mathval : Z) : result string :=
  let alphas := "ABCDEF" in
  if mathval <? 10 then Ok (str mathval)
  else
    let mathval := mathval - 10 in
    c <- str_getitem alphas mathval ;;
    Ok (String c EmptyString).

(** [_colorval_to_hexval]: one channel value to its two-letter code. *)
Definition _colorval_to_hexval (cval : Q) : result string :=
  let div := int (cval / 16) in
  let rem := int (mod_ cval 16) in
  h <- _numeric_to_indhex div ;;
  l <- _numeric_to_indhex rem ;;
  Ok (h ++ l).

Definition rgb_to_hex (color_code : list Q) : result string :=
  hexvals <- comprehension _colorval_to_hexval color_code ;;
  Ok ("#" ++ join hexvals).

(** ** [hex_to_rgb] *)

(** [_indhex_to_numeric]: one hexadecimal letter to its digit value. *)
Definition _indhex_to_numeric (letterval : ascii) : result Z :=
  let alphas := "ABCDEF" in
  match int_of_char letterval with
  | Ok letterval => Ok letterval
  | Raise ValueError =>
      i <- str_index alphas letterval ;;
      Ok (i + 10)
  | Raise e => Raise e
  end.

(** [_hexval_to_colorval]: a two-letter code to one channel value. *)
Definition _hexval_to_colorval (hval : string) : result Z :=
  h0 <- str_getitem hval 0 ;;
  d <- _indhex_to_numeric h0 ;;
  let div := d * 16 in
  h1 <- str_getitem hval 1 ;;
  rem <- _indhex_to_numeric h1 ;;
  Ok (div + rem).

Definition hex_to_rgb (color_code : string) : result (list Z) :=
  c0 <- str_getitem color_code 0 ;;
  let color_code :=
    if Ascii.eqb "#" c0 then str_slice_from color_code 1 else color_code in
  let separated_hexes :=
    map (fun i => str_slice color_code (i * 2) (i * 2 + 2)) (seq 0 3) in
  comprehension _hexval_to_colorval separated_hexes.

(** ** [hex_to_rgb] on text of any script *)

(** The decoder once more, on strings whose characters are arbitrary code
    points rather than bytes.  The difference lies in [int(c)], which
    accepts every character to which the character database of the
    interpreter gives a decimal value: the digits [0]-[9], and the
    decimal digits of other scripts. *)
Module Unicode.

(** A character is a code point, a [str] the list of its characters. *)
Definition char : Set := N.

Definition text : Set := list char.

Definition of_ascii (c : ascii) : char := N_of_ascii c.

Definition of_string (s : string) : text :=
  map of_ascii (list_ascii_of_string s).

(** [s.index(c)] for a one-character string [c]. *)
Fixpoint index (s : text) (c : char) : result Z :=
  match s with
  | [] => Raise ValueError
  | d :: s' =>
      if N.eqb d c then Ok 0
      else i <- index s' c ;; Ok (i + 1)
  end.

(** [s[lo:hi]] for [0 <= lo <= hi]: clipped to the string, never raises. *)
Definition slice (s : text) (lo hi : nat) : text :=
  firstn (hi - lo) (skipn lo s).

(** [s[lo:]] for [0 <= lo]. *)
Definition slice_from (s : text) (lo : nat) : text := skipn lo s.

Section Decoder.

(** [decimal c] is the decimal value that the character database gives
    to [c], if it gives one. *)
Variable decimal : char -> option Z.

(** [int(c)] for a one-character string [c]. *)
Definition int_of_char (c : char) : result Z :=
  match decimal c with
  | Some v => Ok v
  | None => Raise ValueError
  end.

Definition _indhex_to_numeric (letterval : char) : result Z :=
  let alphas := of_string "ABCDEF" in
  match int_of_char letterval with
  | Ok letterval => Ok letterval
  | Raise ValueError =>
      i <- index alphas letterval ;;
      Ok (i + 10)
  | Raise e => Raise e
  end.

Definition _hexval_to_colorval (hval : text) : result Z :=
  h0 <- getitem hval 0 ;;
  d <- _indhex_to_numeric h0 ;;
  let div := d * 16 in
  h1 <- getitem hval 1 ;;
  rem <- _indhex_to_numeric h1 ;;
  Ok (div + rem).

Definition hex_to_rgb (color_code : text) : result (list Z) :=
  c0 <- getitem color_code 0 ;;
  let color_code :=
    if N.eqb (of_ascii "#") c0 then slice_from color_code 1 else color_code in
  let separated_hexes :=
    map (fun i => slice color_code (i * 2) (i * 2 + 2)) (seq 0 3) in
  comprehension _hexval_to_colorval separated_hexes.

End Decoder.

(** The decimal values of the first 256 code points: only [0]-[9] have
    one. *)
Definition latin1_decimal (c : char) : option Z :=
  if ((48 <=? c) && (c <=? 57))%N then Some (Z.of_N c - 48) else None.

(** A table that also knows the ARABIC-INDIC digits, U+0660 to U+0669. *)
Definition arabic_indic_decimal (c : char) : option Z :=
  if ((1632 <=? c) && (c <=? 1641))%N then Some (Z.of_N c - 1632)
  else latin1_decimal c.

End Unicode.

(** ** [linear_gradient] *)

(** [_scale]: the value between [start] and [finish] at step [i] of a
    loop of [length] steps. *)
Definition _scale (start finish : Q) (length i : Z) : result Q :=
  fraction <- truediv (num i) (num (length - 1)) ;;
  let raynge := (finish - start)%Q in
  Ok (start + fraction * raynge)%Q.

Definition nInterpolate : Z := 765.

(** The inner loop of [linear_gradient]: the samples between one pair of
    control points, appended to [allColors]. *)
Definition interpolate_pair (start end_ : list Q) (allColors : list (list Q))
  : result (list (list Q)) :=
  for_each (range nInterpolate)
    (fun index allColors =>
       s0 <- getitem start 0 ;; e0 <- getitem end_ 0 ;;
       r <- _scale s0 e0 nInterpolate index ;;
       s1 <- getitem start 1 ;; e1 <- getitem end_ 1 ;;
       g <- _scale s1 e1 nInterpolate index ;;
       s2 <- getitem start 2 ;; e2 <- getitem end_ 2 ;;
       b <- _scale s2 e2 nInterpolate index ;;
       Ok (allColors ++ [[r; g; b]])%list)
    allColors.

(** The second loop of [linear_gradient]: pick [nColors] colours. *)
Definition pick_colors (allColors : list (list Q)) (nColors : Z)
  : result (list (list Q)) :=
  for_each (range nColors)
    (fun counter result =>
       fraction <- truediv (num counter) (num (nColors - 1)) ;;
       let index := int (fraction * num (len allColors - 1)) in
       c <- getitem allColors index ;;
       Ok (result ++ [c])%list)
    [].

(** [zip(rgbList[:-1], rgbList[1:])] *)
Definition pairs (rgbList : list (list Q)) : list (list Q * list Q) :=
  combine (removelast rgbList) (tl rgbList).

Definition linear_gradient (rgbList : list (list Q)) (nColors : Z)
  : result (list (list Q)) :=
  allColors <-
    for_each (pairs rgbList)
      (fun '(start, end_) allColors => interpolate_pair start end_ allColors)
      [] ;;
  pick_colors allColors nColors.

(** ** [color_brewer] *)

Definition maximum_n : Z := 253.

Definition schemes : list (string * list string) :=
  [("BuGn", ["#EDF8FB"; "#CCECE6"; "#CCECE6"; "#66C2A4"; "#41AE76";
             "#238B45"; "#005824"]);
   ("BuPu", ["#EDF8FB"; "#BFD3E6"; "#9EBCDA"; "#8C96C6"; "#8C6BB1";
             "#88419D"; "#6E016B"]);
   ("GnBu", ["#F0F9E8"; "#CCEBC5"; "#A8DDB5"; "#7BCCC4"; "#4EB3D3";
             "#2B8CBE"; "#08589E"]);
   ("OrRd", ["#FEF0D9"; "#FDD49E"; "#FDBB84"; "#FC8D59"; "#EF6548";
             "#D7301F"; "#990000"]);
   ("PuBu", ["#F1EEF6"; "#D0D1E6"; "#A6BDDB"; "#74A9CF"; "#3690C0";
             "#0570B0"; "#034E7B"]);
   ("PuBuGn", ["#F6EFF7"; "#D0D1E6"; "#A6BDDB"; "#67A9CF"; "#3690C0";
               "#02818A"; "#016450"]);
   ("PuRd", ["#F1EEF6"; "#D4B9DA"; "#C994C7"; "#DF65B0"; "#E7298A";
             "#CE1256"; "#91003F"]);
   ("RdPu", ["#FEEBE2"; "#FCC5C0"; "#FA9FB5"; "#F768A1"; "#DD3497";
             "#AE017E"; "#7A0177"]);
   ("YlGn", ["#FFFFCC"; "#D9F0A3"; "#ADDD8E"; "#78C679"; "#41AB5D";
             "#238443"; "#005A32"]);
   ("YlGnBu", ["#FFFFCC"; "#C7E9B4"; "#7FCDBB"; "#41B6C4"; "#1D91C0";
               "#225EA8"; "#0C2C84"]);
   ("YlOrBr", ["#FFFFD4"; "#FEE391"; "#FEC44F"; "#FE9929"; "#EC7014";
               "#CC4C02"; "#8C2D04"]);
   ("YlOrRd", ["#FFFFB2"; "#FED976"; "#FEB24C"; "#FD8D3C"; "#FC4E2A";
               "#E31A1C"; "#B10026"])].

(** [d.get(k, None)] on a dict literal, whose keys are distinct; [None]
    also answers [k not in d]. *)
Fixpoint dict_get {V : Type} (d : list (string * V)) (k : string) : option V :=
  match d with
  | [] => None
  | (k', v) :: d' => if String.eqb k' k then Some v else dict_get d' k
  end.

(** The result is [Ok None] where the function returns [None]. *)
Definition color_brewer (color_code : string) (n : Z)
  : result (option (list string)) :=
  if n >? maximum_n then Raise ValueError
  else if n >? 6 then
    match dict_get schemes color_code with
    | None => Ok None
    | Some hex_codes =>
        rgb_color_scheme <- comprehension hex_to_rgb hex_codes ;;
        gradient <- linear_gradient (map (map num) rgb_color_scheme) n ;;
        color_scheme <- comprehension rgb_to_hex gradient ;;
        Ok (Some color_scheme)
    end
  else Ok (dict_get schemes color_code).

(** ** [legend_scaler] *)

(** A legend entry: a number, or a string such as the blank label ['']. *)
Inductive value : Type :=
| Num (x : Q)
| Str (s : string).

Definition blank : value := Str "".

(** [legend_scaler] with the division and the remainder taken exactly;
    [Binary64.legend_scaler] below has the floats of the interpreter. *)
Definition legend_scaler (legend_values : list value) (max_labels : Z)
  : result (list value) :=
  if len legend_values <? max_labels then Ok legend_values
  else
    divisor <- truediv (num (len legend_values)) (num max_labels) ;;
    for_each (range (len legend_values))
      (fun i legend_ticks =>
         keep <-
           (if negb (i =? 0)
            then m <- modulo (num i) divisor ;; Ok (Qeq_bool m 0)
            else Ok false) ;;
         if keep : bool
         then v <- getitem legend_values i ;; Ok (legend_ticks ++ [v])%list
         else Ok (legend_ticks ++ [blank])%list)
      [].

(** ** [legend_scaler] in binary64 arithmetic *)

(** The interpreter computes [len(legend_values)/max_labels] and
    [i%divisor] on floats.  This module reads them so: a finite binary64
    number is the rational that it denotes, and an operation returns its
    exact result rounded to the nearest binary64 number, the even one of
    two. *)
Module Binary64.

Definition float : Set := Q.

(** [2^e] *)
Definition pow2 (e : Z) : Q := Qpower 2 e.

(** The [e] with [2^e <= q < 2^(e+1)], for [q > 0]: the quotient of a
    numerator of [n + 1] bits by a denominator of [d + 1] bits lies
    between [2^(n-d-1)] and [2^(n-d+1)]. *)
Definition floor_log2 (q : Q) : Z :=
  let e := Z.log2 (Qnum q) - Z.log2 (Z.pos (Qden q)) in
  if Qle_bool (pow2 e) q then e else e - 1.

(** The exponent of the unit in the last place at [q]: 53 significant
    bits, and no exponent below that of the subnormal numbers. *)
Definition ulp_exponent (q : Q) : Z :=
  Z.max (floor_log2 (Qabs q) - 52) (-1074).

(** The integer nearest to [x], the even one of two. *)
Definition nearest_even (x : Q) : Z :=
  let f := Qfloor x in
  match (x - inject_Z f ?= 1 # 2)%Q with
  | Lt => f
  | Eq => if Z.even f then f else f + 1
  | Gt => f + 1
  end.

(** Rounding to nearest, ties to even, of a number of any magnitude; the
    result is in lowest terms. *)
Definition round (q : Q) : float :=
  if Qeq_bool q 0 then 0%Q
  else
    let e := ulp_exponent q in
    Qred (inject_Z (nearest_even (q / pow2 e)) * pow2 e).

(** The float for the exact result [q] of an operation on integers: the
    interpreter raises [OverflowError] where the rounded result is out of
    range, from [2^1024] on. *)
Definition of_real (q : Q) : result float :=
  let r := round q in
  if Qle_bool (pow2 1024) (Qabs r) then Raise OverflowError else Ok r.

(** [float(n)], also the conversion of the [int] operand of mixed
    arithmetic. *)
Definition of_int (n : Z) : result float := of_real (inject_Z n).

(** [n / d] on two [int]s, a true division: the quotient, correctly
    rounded. *)
Definition int_truediv (n d : Z) : result float :=
  if d =? 0 then Raise ZeroDivisionError
  else of_real (inject_Z n / inject_Z d).

(** [fmod(x, y)] of the C library for [y] not zero: [x - n*y] with [n]
    the quotient truncated to an integer.  The result is a binary64
    number, so nothing is rounded. *)
Definition fmod (x y : float) : float :=
  (x - inject_Z (int (x / y)) * y)%Q.

Definition negative (x : float) : bool := negb (Qle_bool 0 x).

(** [x % y] on floats: [fmod], moved by [y] where its sign is not that
    of [y]. *)
Definition float_mod (x y : float) : result float :=
  if Qeq_bool y 0 then Raise ZeroDivisionError
  else
    let rem := fmod x y in
    if Qeq_bool rem 0 then Ok 0%Q
    else if Bool.eqb (negative y) (negative rem) then Ok rem
    else Ok (round (rem + y)).

(** [i % divisor] for an [int] and a float. *)
Definition int_mod_float (i : Z) (divisor : float) : result float :=
  x <- of_int i ;;
  float_mod x divisor.

Definition legend_scaler (legend_values : list value) (max_labels : Z)
  : result (list value) :=
  if len legend_values <? max_labels then Ok legend_values
  else
    divisor <- int_truediv (len legend_values) max_labels ;;
    for_each (range (len legend_values))
      (fun i legend_ticks =>
         keep <-
           (if negb (i =? 0)
            then m <- int_mod_float i divisor ;; Ok (Qeq_bool m 0)
            else Ok false) ;;
         if keep : bool
         then v <- getitem legend_values i ;; Ok (legend_ticks ++ [v])%list
         else Ok (legend_ticks ++ [blank])%list)
      [].

End Binary64.

(** ** Vocabulary of the specification *)

(** A hexadecimal digit as the encoder writes it: [0]-[9], [A]-[F]. *)
Definition is_hexdigit_upper (c : ascii) : bool :=
  let n := nat_of_ascii c in
  ((48 <=? n) && (n <=? 57) || (65 <=? n) && (n <=? 70))%nat.

(** A hexadecimal digit in either case. *)
Definition is_hexdigit (c : ascii) : bool :=
  let n := nat_of_ascii c in
  (is_hexdigit_upper c || (97 <=? n) && (n <=? 102))%nat.

(** [s.upper()] on ASCII letters. *)
Definition upper_char (c : ascii) : ascii :=
  let n := nat_of_ascii c in
  if ((97 <=? n) && (n <=? 122))%nat then ascii_of_nat (n - 32) else c.

Fixpoint upper (s : string) : string :=
  match s with
  | EmptyString => EmptyString
  | String c s' => String (upper_char c) (upper s')
  end.

Fixpoint string_forallb (p : ascii -> bool) (s : string) : bool :=
  match s with
  | EmptyString => true
  | String c s' => p c && string_forallb p s'
  end.

(** [#] followed by exactly six digits accepted by [digit]. *)
Definition hexcolor_with (digit : ascii -> bool) (h : string) : bool :=
  match h with
  | String "#" body =>
      (String.length body =? 6)%nat && string_forallb digit body
  | _ => false
  end.

(** HexColor as the specification reads it on input. *)
Definition is_HexColor_input (h : string) : bool := hexcolor_with is_hexdigit h.

(** HexColor as the encoder writes it. *)
Definition is_HexColor (h : string) : bool := hexcolor_with is_hexdigit_upper h.

(** The input with one optional leading [#] removed. *)
Definition strip_hash (s : string) : string :=
  match s with
  | String "#" body => body
  | _ => s
  end.

(** Numeric equality of two colours, channel by channel. *)
Definition color_eq (c d : list Q) : Prop := Forall2 Qeq c d.

(** A channel value in the closed range [0, 255]. *)
Definition in_byte_range (x : Q) : Prop := (0 <= x <= 255)%Q.

(** [x mod d] on real numbers. *)
Definition real_mod (x d : Q) : Q :=
  (x - d * inject_Z (Qfloor (x / d)))%Q.

(** [scale_legend], written after the words of the specification and not
    after the code: with [L] values, fewer than [max_labels], the values
    are returned unchanged; otherwise [divisor = L / max_labels] is a
    real-valued division, and position [i] keeps [values[i]] when
    [i != 0] and [i mod divisor == 0], and is blank otherwise.  The
    specification does not say what the quotient by [max_labels = 0] is;
    here it is [0], and every position is blank. *)
Definition scale_legend (values : list value) (max_labels : Z) : list value :=
  let L := List.length values in
  if Z.of_nat L <? max_labels then values
  else
    let divisor := (inject_Z (Z.of_nat L) / inject_Z max_labels)%Q in
    map (fun i : nat =>
           if negb (i =? 0)%nat
              && Qeq_bool (real_mod (inject_Z (Z.of_nat i)) divisor) 0
           then nth i values blank
           else blank)
      (seq 0 L).

(** ** Definitions used in the statements and proofs *)

Definition channel_roundtrip_check (c : Z) : bool :=
  match _colorval_to_hexval (num c) with
  | Ok (String a (String b EmptyString) as h) =>
      match _hexval_to_colorval h with
      | Ok c' => (c' =? c) && is_hexdigit_upper a && is_hexdigit_upper b
      | Raise _ => false
      end
  | _ => false
  end.

(** The sixteen digits that [_indhex_to_numeric] accepts. *)
Definition upper_hexdigits : list ascii :=
  list_ascii_of_string "0123456789ABCDEF".

Definition pair_roundtrip_check (a b : ascii) : bool :=
  match _hexval_to_colorval (String a (String b EmptyString)) with
  | Ok v =>
      (0 <=? v) && (v <=? 255)
      && match _colorval_to_hexval (num v) with
         | Ok h => String.eqb h (String a (String b EmptyString))
         | Raise _ => false
         end
  | Raise _ => false
  end.

(** [hex_to_rgb] after its first two statements: the three pairs cut out
    of [body] are decoded in order. *)
Definition decode_body (body : string) : result (list Z) :=
  comprehension _hexval_to_colorval
    (map (fun i => str_slice body (i * 2) (i * 2 + 2)) (seq 0 3)).

(** What [hex_to_rgb] accepts: after one optional [#], at least six
    characters of which the first six are digits [0]-[9], [A]-[F]. *)
Definition decodable (s : string) : bool :=
  let body := strip_hash s in
  (6 <=? String.length body)%nat
  && string_forallb is_hexdigit_upper (substring 0 6 body).

(** What the specification says it accepts: after one optional [#],
    exactly six hexadecimal digits. *)
Definition spec_decodable (s : string) : bool :=
  let body := strip_hash s in
  (String.length body =? 6)%nat && string_forallb is_hexdigit body.

(** One interpolated colour between two control points. *)
Definition sample (start end_ : list Q) (index : Z) : list Q :=
  map (fun j =>
         let s := nth j start 0%Q in
         let e := nth j end_ 0%Q in
         (s + num index / num (nInterpolate - 1) * (e - s))%Q)
      (seq 0 3).

Definition segment (pair : list Q * list Q) : list (list Q) :=
  map (sample (fst pair) (snd pair)) (range nInterpolate).

Definition dense (rgbList : list (list Q)) : list (list Q) :=
  flat_map segment (pairs rgbList).

(** A control point with three channels. *)
Definition is_rgb (c : list Q) : Prop := List.length c = 3%nat.

(** The index that the second loop computes for [counter]. *)
Definition pick_index (total nColors counter : Z) : Z :=
  int (num counter / num (nColors - 1) * num (total - 1)).

Definition indhex_check (d : Z) : bool :=
  match _numeric_to_indhex d with
  | Ok (String c EmptyString) => is_hexdigit_upper c
  | _ => false
  end.

Definition byte_check (v : Z) : bool := (0 <=? v) && (v <=? 255).

(** A base palette decodes to seven colours of three bytes. *)
Definition palette_check (hex_codes : list string) : bool :=
  match comprehension hex_to_rgb hex_codes with
  | Ok rgbs =>
      (List.length rgbs =? 7)%nat
      && forallb (fun c => (List.length c =? 3)%nat && forallb byte_check c) rgbs
  | Raise _ => false
  end.

(** The test of the loop of [legend_scaler] on integers: position [i] is
    kept when it is not the first and [L] divides [i * max_labels]. *)
Definition legend_keep (L max_labels i : Z) : bool :=
  negb (i =? 0) && ((i * max_labels) mod L =? 0).

(** The blank label ['']. *)
Definition is_blank (v : value) : bool :=
  match v with
  | Str EmptyString => true
  | _ => false
  end.

(** The labels that are left on the colour bar. *)
Definition labels (ticks : list value) : list value :=
  filter (fun v => negb (is_blank v)) ticks.

(** A character that [_indhex_to_numeric] accepts: one with a decimal
    value, or an uppercase letter [A]-[F]. *)
Definition text_accepted (decimal : Unicode.char -> option Z)
  (c : Unicode.char) : bool :=
  match decimal c with
  | Some _ => true
  | None => ((65 <=? c) && (c <=? 70))%N
  end.

(** The text with one optional leading [#] removed. *)
Definition text_strip_hash (s : Unicode.text) : Unicode.text :=
  match s with
  | 35%N :: body => body
  | _ => s
  end.

(** What [hex_to_rgb] accepts: after one optional [#], at least six
    characters of which the first six are accepted. *)
Definition text_decodable (decimal : Unicode.char -> option Z)
  (s : Unicode.text) : bool :=
  let body := text_strip_hash s in
  (6 <=? List.length body)%nat
  && forallb (text_accepted decimal) (firstn 6 body).

(** [hex_to_rgb] on text after its first two statements: the three pairs
    cut out of [body] are decoded in order. *)
Definition text_decode_body (decimal : Unicode.char -> option Z)
  (body : Unicode.text) : result (list Z) :=
  comprehension (Unicode._hexval_to_colorval decimal)
    (map (fun i => Unicode.slice body (i * 2) (i * 2 + 2)) (seq 0 3)).

(** The label at position [i] is kept: [i] is not [0] and [i mod divisor]
    is [0]. *)
Definition legend_kept (divisor : Q) (i : Z) : bool :=
  negb (i =? 0) && Qeq_bool (real_mod (inject_Z i) divisor) 0.

(** The rational that a finite float of the reference implementation of
    IEEE 754 in the standard library denotes. *)
Definition spec_float_value (x : spec_float) : option Q :=
  match x with
  | S754_zero _ => Some 0%Q
  | S754_finite s m e =>
      Some (inject_Z (if s then Z.neg m else Z.pos m) * Binary64.pow2 e)%Q
  | _ => None
  end.

(** [x] is the float that [r] is, or both are out of range. *)
Definition same_float (x : spec_float) (r : result Q) : bool :=
  match spec_float_value x, r with
  | Some q, Ok q' => Qeq_bool q q'
  | None, Raise OverflowError => true
  | _, _ => false
  end.

(** [float(n)] and the division of two floats in the reference
    implementation. *)
Definition SFof_int (n : Z) : spec_float := binary_normalize 53 1024 n 0 false.

Definition SFtruediv (n d : Z) : spec_float :=
  SFdiv 53 1024 (SFof_int n) (SFof_int d).

(** The test of the loop of [Binary64.legend_scaler] at position [i]. *)
Definition legend_test (divisor : Q) (i : Z) : result bool :=
  if negb (i =? 0)
  then m <- Binary64.int_mod_float i divisor ;; Ok (Qeq_bool m 0)
  else Ok false.

(** The tick at position [i], given the outcome of the test. *)
Definition legend_tick (values : list value) (divisor : Q) (i : Z) : value :=
  match legend_test divisor i with
  | Ok true => nth (Z.to_nat i) values blank
  | _ => blank
  end.

(** A binary64 number: 53 bits, with an exponent not below that of the
    subnormal numbers (and any exponent above). *)
Definition binary64 (f : Q) : Prop :=
  exists n e : Z,
    -1074 <= e /\ Z.abs n < 2 ^ 53 /\ (f == inject_Z n * Binary64.pow2 e)%Q.

(** * Properties *)

(** ** The model on the examples of the source and of the specification *)

Example rgb_to_hex_ex :
  rgb_to_hex (map num [237; 248; 251]) = Ok "#EDF8FB".
Proof. reflexivity. Qed.

Example hex_to_rgb_ex : hex_to_rgb "#EDF8FB" = Ok [237; 248; 251].
Proof. reflexivity. Qed.

Example hex_to_rgb_lower : hex_to_rgb "#edf8fb" = Raise ValueError.
Proof. reflexivity. Qed.

Example hex_to_rgb_short : hex_to_rgb "#EDF8F" = Raise IndexError.
Proof. reflexivity. Qed.

Example hex_to_rgb_empty : hex_to_rgb "" = Raise IndexError.
Proof. reflexivity. Qed.

Example hex_to_rgb_long : hex_to_rgb "#EDF8FB00" = Ok [237; 248; 251].
Proof. reflexivity. Qed.

Example rgb_to_hex_256 : rgb_to_hex [num 256] = Raise IndexError.
Proof. reflexivity. Qed.

Example rgb_to_hex_neg : rgb_to_hex [num (-17)] = Ok "#-1F".
Proof. reflexivity. Qed.

Example rgb_to_hex_frac : rgb_to_hex [255 # 2; 1 # 3]%Q = Ok "#7F00".
Proof. reflexivity. Qed.

Example legend_scaler_identity :
  legend_scaler [Num 1; Num 2; Num 3]%Q 10 = Ok [Num 1; Num 2; Num 3]%Q.
Proof. reflexivity. Qed.

Example legend_scaler_downsample :
  legend_scaler (map (fun i => Num (num i)) (range 20)) 10
  = Ok (map (fun i => if (negb (i =? 0) && (i mod 2 =? 0))%bool
                      then Num (num i) else blank) (range 20)).
Proof. vm_compute. reflexivity. Qed.

Example legend_scaler_zero :
  legend_scaler [Num 1]%Q 0 = Raise ZeroDivisionError.
Proof. reflexivity. Qed.

Example linear_gradient_no_colors :
  linear_gradient [[0; 0; 0]; [255; 0; 0]; [255; 255; 0]]%Q 0 = Ok [].
Proof. vm_compute. reflexivity. Qed.

Example linear_gradient_one_color :
  linear_gradient [[0; 0; 0]; [255; 0; 0]]%Q 1 = Raise ZeroDivisionError.
Proof. vm_compute. reflexivity. Qed.

Example linear_gradient_one_point :
  linear_gradient [[0; 0; 0]]%Q 2 = Raise IndexError.
Proof. vm_compute. reflexivity. Qed.

Example color_brewer_9 :
  color_brewer "BuGn" 9
  = Ok (Some ["#EDF8FB"; "#D4EFEB"; "#CCECE6"; "#B2E1D5"; "#66C2A4";
              "#4AB381"; "#329C5D"; "#1A7E3C"; "#005824"]).
Proof. vm_compute. reflexivity. Qed.

Example hex_to_rgb_text_ex :
  Unicode.hex_to_rgb Unicode.latin1_decimal (Unicode.of_string "#EDF8FB")
  = Ok [237; 248; 251].
Proof. reflexivity. Qed.

(** Six ARABIC-INDIC digits THREE decode, three of them do not. *)
Example hex_to_rgb_text_arabic_indic :
  Unicode.hex_to_rgb Unicode.arabic_indic_decimal
    [35; 1635; 1635; 1635; 1635; 1635; 1635]%N
  = Ok [51; 51; 51]
  /\ Unicode.hex_to_rgb Unicode.arabic_indic_decimal [1635; 1635; 1635]%N
     = Raise IndexError.
Proof. split; reflexivity. Qed.

(** ** The codec *)

(** Case analysis on all 256 characters. *)
Ltac ascii_cases c := destruct c as [[] [] [] [] [] [] [] []].

(** A boolean test over [range n] decides a property of every integer
    of [[0, n)]. *)
Lemma range_forallb (p : Z -> bool) (n : Z) :
  forallb p (range n) = true -> forall z, 0 <= z < n -> p z = true.
Proof.
  intros H z Hz. rewrite forallb_forall in H. apply H.
  unfold range. apply in_map_iff. exists (Z.to_nat z). split; [lia|].
  apply in_seq. lia.
Qed.

Lemma channel_roundtrip (c : Z) :
  0 <= c <= 255 ->
  exists a b,
    _colorval_to_hexval (num c) = Ok (String a (String b EmptyString))
    /\ _hexval_to_colorval (String a (String b EmptyString)) = Ok c
    /\ is_hexdigit_upper a = true /\ is_hexdigit_upper b = true.
Proof.
  intros Hc.
  assert (H : channel_roundtrip_check c = true).
  { apply (range_forallb channel_roundtrip_check 256); [vm_compute; reflexivity | lia]. }
  unfold channel_roundtrip_check in H.
  destruct (_colorval_to_hexval (num c)) as [[|a [|b [|? ?]]]|]; try discriminate.
  destruct (_hexval_to_colorval (String a (String b ""))) as [c'|] eqn:D;
    try discriminate.
  apply andb_prop in H as [H Hb]. apply andb_prop in H as [H Ha].
  apply Z.eqb_eq in H. subst c'. exists a, b. auto.
Qed.

Lemma is_hexdigit_upper_In (c : ascii) :
  is_hexdigit_upper c = true -> In c upper_hexdigits.
Proof.
  ascii_cases c; intros H;
    solve [discriminate H | simpl; tauto].
Qed.

(** [_indhex_to_numeric] succeeds on exactly those digits; every other
    character, lowercase [a]-[f] included, escapes as [ValueError] from
    [alphas.index]. *)
Lemma indhex_to_numeric_upper (c : ascii) :
  _indhex_to_numeric c
  = if is_hexdigit_upper c
    then Ok (let n := Z.of_nat (nat_of_ascii c) in
             if n <=? 57 then n - 48 else n - 55)
    else Raise ValueError.
Proof.
  ascii_cases c; reflexivity.
Qed.

Lemma pair_roundtrip (a b : ascii) :
  is_hexdigit_upper a = true -> is_hexdigit_upper b = true ->
  exists v,
    _hexval_to_colorval (String a (String b EmptyString)) = Ok v
    /\ 0 <= v <= 255
    /\ _colorval_to_hexval (num v) = Ok (String a (String b EmptyString)).
Proof.
  intros Ha Hb.
  assert (H : forallb (fun a => forallb (pair_roundtrip_check a) upper_hexdigits)
                upper_hexdigits = true) by (vm_compute; reflexivity).
  rewrite forallb_forall in H.
  specialize (H a (is_hexdigit_upper_In a Ha)).
  rewrite forallb_forall in H.
  specialize (H b (is_hexdigit_upper_In b Hb)).
  unfold pair_roundtrip_check in H.
  destruct (_hexval_to_colorval (String a (String b ""))) as [v|];
    [|discriminate].
  apply andb_prop in H as [H E]. apply andb_prop in H as [H0 H1].
  destruct (_colorval_to_hexval (num v)) as [h|] eqn:Eh; [|discriminate].
  apply String.eqb_eq in E. subst h.
  apply Z.leb_le in H0, H1. exists v. repeat split; assumption.
Qed.

Lemma substring_all (s : string) : substring 0 (String.length s) s = s.
Proof. induction s; simpl; congruence. Qed.

Lemma hex_to_rgb_unfold (s : string) :
  hex_to_rgb s
  = match s with
    | EmptyString => Raise IndexError
    | String c r => decode_body (if Ascii.eqb "#" c then r else s)
    end.
Proof.
  destruct s as [|c r]; [reflexivity|].
  unfold hex_to_rgb, str_getitem, getitem, str_slice_from. cbn [list_ascii_of_string].
  replace (0 <? 0) with false by reflexivity.
  cbn [Z.to_nat nth_error bind String.length Nat.sub].
  rewrite Nat.sub_0_r. cbn [substring].
  destruct r; cbn [String.length substring]; try reflexivity.
  rewrite substring_all. reflexivity.
Qed.

Lemma strip_hash_cons (c : ascii) (r : string) :
  strip_hash (String c r) = if Ascii.eqb "#" c then r else String c r.
Proof.
  ascii_cases c; reflexivity.
Qed.

Lemma hexval_to_colorval_cons2 (a b : ascii) (r : string) :
  _hexval_to_colorval (String a (String b r))
  = (d <- _indhex_to_numeric a ;; rem <- _indhex_to_numeric b ;;
     Ok (d * 16 + rem)).
Proof. reflexivity. Qed.

Lemma hexval_to_colorval_nil : _hexval_to_colorval "" = Raise IndexError.
Proof. reflexivity. Qed.

Lemma hexval_to_colorval_cons1 (a : ascii) :
  _hexval_to_colorval (String a "")
  = (d <- _indhex_to_numeric a ;; Raise IndexError).
Proof. reflexivity. Qed.

Lemma substring_0_0 (s : string) : substring 0 0 s = EmptyString.
Proof. destruct s; reflexivity. Qed.

(** The outcome of [decode_body] is decided by the first six characters. *)
Lemma decode_body_outcome (body : string) :
  match decode_body body with
  | Ok _ =>
      ((6 <=? String.length body)%nat
       && string_forallb is_hexdigit_upper (substring 0 6 body)) = true
  | Raise e =>
      ((6 <=? String.length body)%nat
       && string_forallb is_hexdigit_upper (substring 0 6 body)) = false
      /\ (e = IndexError /\ (String.length body <? 6)%nat = true
          \/ e = ValueError)
  end.
Proof.
  unfold decode_body, str_slice.
  destruct body as [|c1 [|c2 [|c3 [|c4 [|c5 [|c6 r]]]]]];
    cbn [seq map Nat.mul Nat.add Nat.sub substring comprehension];
    rewrite ?substring_0_0;
    rewrite ?hexval_to_colorval_cons2, ?hexval_to_colorval_cons1,
      ?hexval_to_colorval_nil;
    rewrite ?indhex_to_numeric_upper;
    cbn [String.length Nat.leb Nat.ltb andb string_forallb];
    repeat match goal with
      | |- context [is_hexdigit_upper ?c] => destruct (is_hexdigit_upper c)
      end;
    cbn [bind andb]; auto.
Qed.

Lemma upper_char_hexdigit (c : ascii) :
  is_hexdigit_upper c = true -> upper_char c = c.
Proof.
  ascii_cases c; intros H;
    solve [discriminate H | reflexivity].
Qed.

(** Every string of the shape [#] + six characters, one case per shape. *)
Lemma hexcolor_with_inv (digit : ascii -> bool) (h : string) :
  hexcolor_with digit h = true ->
  exists c1 c2 c3 c4 c5 c6,
    h = String "#" (String c1 (String c2 (String c3 (String c4
          (String c5 (String c6 EmptyString))))))
    /\ digit c1 = true /\ digit c2 = true /\ digit c3 = true
    /\ digit c4 = true /\ digit c5 = true /\ digit c6 = true.
Proof.
  unfold hexcolor_with.
  destruct h as [|c0 body]; [discriminate|].
  intros H.
  assert (c0 = "#"%char /\
          ((String.length body =? 6)%nat && string_forallb digit body) = true)
    as [-> H'].
  { ascii_cases c0; try discriminate H; auto. }
  clear H. apply andb_prop in H' as [L F].
  destruct body as [|c1 [|c2 [|c3 [|c4 [|c5 [|c6 [|c7 r]]]]]]];
    try discriminate L.
  cbn [string_forallb] in F.
  repeat match type of F with
         | (_ && _) = true => let X := fresh "D" in apply andb_prop in F as [X F]
         end.
  exists c1, c2, c3, c4, c5, c6. repeat split; auto.
Qed.

(** ** Round trips and failures of the codec *)

(** C1.  For every colour whose three channels are integers of [0, 255],
    [rgb_to_hex] returns a HexColor and [hex_to_rgb] of it returns the
    same three channels: decode(encode(c)) == c. *)
Theorem rgb_to_hex_to_rgb (r g b : Z) :
  0 <= r <= 255 -> 0 <= g <= 255 -> 0 <= b <= 255 ->
  exists h,
    rgb_to_hex [num r; num g; num b] = Ok h
    /\ is_HexColor h = true
    /\ hex_to_rgb h = Ok [r; g; b].
Proof.
  intros Hr Hg Hb.
  destruct (channel_roundtrip _ Hr) as (r1 & r2 & Er & Dr & Ur1 & Ur2).
  destruct (channel_roundtrip _ Hg) as (g1 & g2 & Eg & Dg & Ug1 & Ug2).
  destruct (channel_roundtrip _ Hb) as (b1 & b2 & Eb & Db & Ub1 & Ub2).
  eexists. split; [|split].
  - unfold rgb_to_hex. simpl comprehension. rewrite Er, Eg, Eb. simpl. reflexivity.
  - unfold is_HexColor. simpl. rewrite Ur1, Ur2, Ug1, Ug2, Ub1, Ub2. reflexivity.
  - unfold hex_to_rgb. cbn -[_hexval_to_colorval].
    rewrite Dr, Dg, Db. reflexivity.
Qed.

(** C2, as the code has it.  For every HexColor of the input grammar
    ([#] and six hexadecimal digits in either case): when its digits are
    [0]-[9] and uppercase [A]-[F], [hex_to_rgb] returns three channels of
    [0, 255] and [rgb_to_hex] of them returns the string itself, which is
    its own uppercase form; when a digit is lowercase, [hex_to_rgb] raises
    [ValueError]. *)
Theorem hex_to_rgb_to_hex (h : string) :
  is_HexColor_input h = true ->
  if is_HexColor h
  then exists r g b,
         hex_to_rgb h = Ok [r; g; b]
         /\ (0 <= r <= 255 /\ 0 <= g <= 255 /\ 0 <= b <= 255)
         /\ rgb_to_hex [num r; num g; num b] = Ok h
         /\ upper h = h
  else hex_to_rgb h = Raise ValueError.
Proof.
  intros Hin.
  destruct (is_HexColor h) eqn:Hup.
  - apply hexcolor_with_inv in Hup
      as (c1 & c2 & c3 & c4 & c5 & c6 & -> & U1 & U2 & U3 & U4 & U5 & U6).
    destruct (pair_roundtrip c1 c2 U1 U2) as (r & Dr & Rr & Er).
    destruct (pair_roundtrip c3 c4 U3 U4) as (g & Dg & Rg & Eg).
    destruct (pair_roundtrip c5 c6 U5 U6) as (b & Db & Rb & Eb).
    exists r, g, b. repeat split; try tauto.
    + rewrite hex_to_rgb_unfold. cbn [Ascii.eqb Bool.eqb].
      unfold decode_body, str_slice.
      cbn [seq map Nat.mul Nat.add Nat.sub substring comprehension].
      rewrite Dr, Dg, Db. reflexivity.
    + unfold rgb_to_hex. cbn [comprehension]. rewrite Er, Eg, Eb. reflexivity.
    + cbn [upper].
      rewrite (upper_char_hexdigit c1 U1), (upper_char_hexdigit c2 U2),
        (upper_char_hexdigit c3 U3), (upper_char_hexdigit c4 U4),
        (upper_char_hexdigit c5 U5), (upper_char_hexdigit c6 U6).
      reflexivity.
  - apply hexcolor_with_inv in Hin
      as (c1 & c2 & c3 & c4 & c5 & c6 & -> & _).
    rewrite hex_to_rgb_unfold. cbn [Ascii.eqb Bool.eqb].
    pose proof (decode_body_outcome
                  (String c1 (String c2 (String c3 (String c4
                     (String c5 (String c6 EmptyString))))))) as O.
    destruct (decode_body _) as [l|e].
    + unfold is_HexColor, hexcolor_with in Hup.
      cbn [String.length Nat.eqb Nat.leb andb substring] in Hup, O.
      congruence.
    + destruct O as [_ [[_ L]| ->]]; [discriminate L | reflexivity].
Qed.

Lemma rgb_to_hex_to_rgb_witness :
  (0 <= 237 <= 255 /\ 0 <= 248 <= 255 /\ 0 <= 251 <= 255)
  /\ exists h,
       rgb_to_hex [num 237; num 248; num 251] = Ok h
       /\ is_HexColor h = true
       /\ hex_to_rgb h = Ok [237; 248; 251].
Proof.
  split; [lia|]. apply (rgb_to_hex_to_rgb 237 248 251); lia.
Defined.

(** C2 as the specification states it fails on a HexColor with lowercase
    digits: [#edf8fb] is valid input, yet decoding it does not return. *)
Lemma hex_to_rgb_to_hex_lowercase :
  ~ (is_HexColor_input "#edf8fb" = true ->
     exists rgb,
       hex_to_rgb "#edf8fb" = Ok rgb
       /\ rgb_to_hex (map num rgb) = Ok (upper "#edf8fb")).
Proof.
  intros H. destruct (H eq_refl) as (rgb & D & _). discriminate D.
Qed.

Lemma hex_to_rgb_to_hex_witness :
  is_HexColor_input "#EDF8FB" = true
  /\ exists r g b,
       hex_to_rgb "#EDF8FB" = Ok [r; g; b]
       /\ (0 <= r <= 255 /\ 0 <= g <= 255 /\ 0 <= b <= 255)
       /\ rgb_to_hex [num r; num g; num b] = Ok "#EDF8FB"
       /\ upper "#EDF8FB" = "#EDF8FB".
Proof.
  split; [reflexivity|]. exact (hex_to_rgb_to_hex "#EDF8FB" eq_refl).
Defined.

(** C3 as the specification states it fails on an input longer than six
    digits: [#EDF8FB00] is not exactly six hexadecimal characters after
    the [#], yet decoding it returns. *)
Lemma hex_to_rgb_accepts_longer :
  ~ ((exists e, hex_to_rgb "#EDF8FB00" = Raise e)
     <-> spec_decodable "#EDF8FB00" = false).
Proof.
  intros [_ H]. destruct (H eq_refl) as (e & D). discriminate D.
Qed.

(** ** The decoder on text of any script *)

Section TextDecoder.

Variable decimal : Unicode.char -> option Z.

Lemma text_index_alphas (c : Unicode.char) :
  Unicode.index (Unicode.of_string "ABCDEF") c
  = if ((65 <=? c) && (c <=? 70))%N then Ok (Z.of_N c - 65)
    else Raise ValueError.
Proof.
  change (Unicode.of_string "ABCDEF") with [65; 66; 67; 68; 69; 70]%N.
  cbn [Unicode.index].
  repeat match goal with
         | |- context [N.eqb ?a c] => destruct (N.eqb_spec a c) as [<-|?]
         end; cbn [bind]; try reflexivity.
  destruct (N.leb_spec 65 c), (N.leb_spec c 70); cbn [andb]; try reflexivity.
  lia.
Qed.

Lemma text_indhex_to_numeric (c : Unicode.char) :
  Unicode._indhex_to_numeric decimal c
  = match decimal c with
    | Some v => Ok v
    | None =>
        if ((65 <=? c) && (c <=? 70))%N then Ok (Z.of_N c - 65 + 10)
        else Raise ValueError
    end.
Proof.
  unfold Unicode._indhex_to_numeric, Unicode.int_of_char.
  destruct (decimal c) as [v|]; [reflexivity|].
  rewrite text_index_alphas.
  destruct ((65 <=? c) && (c <=? 70))%N; reflexivity.
Qed.

(** The outcome of one character. *)
Lemma text_indhex_outcome (c : Unicode.char) :
  if text_accepted decimal c
  then exists v, Unicode._indhex_to_numeric decimal c = Ok v
  else Unicode._indhex_to_numeric decimal c = Raise ValueError.
Proof.
  rewrite text_indhex_to_numeric. unfold text_accepted.
  destruct (decimal c) as [v|]; [eauto|].
  destruct ((65 <=? c) && (c <=? 70))%N; eauto.
Qed.

Lemma text_hex_to_rgb_strip (s : Unicode.text) :
  Unicode.hex_to_rgb decimal s
  = match s with
    | [] => Raise IndexError
    | _ => text_decode_body decimal (text_strip_hash s)
    end.
Proof.
  destruct s as [|c r]; [reflexivity|].
  unfold Unicode.hex_to_rgb, getitem.
  replace (0 <? 0) with false by reflexivity.
  cbn [Z.to_nat nth_error bind].
  change (Unicode.of_ascii "#") with 35%N.
  unfold text_strip_hash.
  destruct c as [|p]; [reflexivity|].
  do 6 (destruct p as [p|p|]; try reflexivity).
Qed.

Lemma text_hexval_cons2 (a b : Unicode.char) (r : Unicode.text) :
  Unicode._hexval_to_colorval decimal (a :: b :: r)
  = (d <- Unicode._indhex_to_numeric decimal a ;;
     rem <- Unicode._indhex_to_numeric decimal b ;;
     Ok (d * 16 + rem)).
Proof. reflexivity. Qed.

Lemma text_hexval_cons1 (a : Unicode.char) :
  Unicode._hexval_to_colorval decimal [a]
  = (d <- Unicode._indhex_to_numeric decimal a ;; Raise IndexError).
Proof. reflexivity. Qed.

Lemma text_hexval_nil :
  Unicode._hexval_to_colorval decimal [] = Raise IndexError.
Proof. reflexivity. Qed.

(** The outcome of [text_decode_body] is decided by the first six
    characters, and so is the exception. *)
Lemma text_decode_body_outcome (body : Unicode.text) :
  match text_decode_body decimal body with
  | Ok rgb =>
      forallb (text_accepted decimal) (firstn 6 body) = true
      /\ (6 <=? List.length body)%nat = true
      /\ List.length rgb = 3%nat
  | Raise IndexError =>
      forallb (text_accepted decimal) (firstn 6 body) = true
      /\ (6 <=? List.length body)%nat = false
  | Raise ValueError =>
      forallb (text_accepted decimal) (firstn 6 body) = false
  | Raise _ => False
  end.
Proof.
  unfold text_decode_body, Unicode.slice.
  destruct body as [|c1 [|c2 [|c3 [|c4 [|c5 [|c6 r]]]]]];
    cbn [seq map Nat.mul Nat.add Nat.sub skipn firstn comprehension];
    rewrite ?text_hexval_cons2, ?text_hexval_cons1, ?text_hexval_nil;
    cbn [List.length Nat.leb forallb];
    repeat match goal with
      | |- context [text_accepted decimal ?c] =>
          let H := fresh "H" in
          pose proof (text_indhex_outcome c) as H;
          destruct (text_accepted decimal c);
          [destruct H as [? ->] | rewrite H]
      end;
    cbn [bind andb List.length]; auto.
Qed.

End TextDecoder.

(** C3, as the code has it.  [hex_to_rgb] fails, with [IndexError] or
    [ValueError], exactly when the input with one optional leading [#]
    removed has fewer than six characters, or one of its first six
    characters is neither an uppercase letter [A]-[F] nor a character
    with a decimal value (a digit [0]-[9], or a decimal digit of another
    script); it returns exactly when the first six characters are of
    these, and what follows the sixth character is not looked at. *)
Theorem hex_to_rgb_text_fails_iff
  (decimal : Unicode.char -> option Z) (s : Unicode.text) :
  ((Unicode.hex_to_rgb decimal s = Raise IndexError
    \/ Unicode.hex_to_rgb decimal s = Raise ValueError)
   <-> text_decodable decimal s = false)
  /\ ((exists rgb, Unicode.hex_to_rgb decimal s = Ok rgb)
      <-> text_decodable decimal s = true).
Proof.
  rewrite text_hex_to_rgb_strip. unfold text_decodable.
  destruct s as [|c0 s0].
  - cbn. split; split; auto; try discriminate. intros [rgb H]. discriminate H.
  - generalize (text_strip_hash (c0 :: s0)). clear c0 s0. intros body.
    pose proof (text_decode_body_outcome decimal body) as O.
    destruct (text_decode_body decimal body) as [rgb|[]].
    + destruct O as (F & L & _). rewrite F, L.
      split; split; eauto; try discriminate. intros [H|H]; discriminate H.
    + destruct O as (F & L). rewrite F, L.
      split; split; auto; try discriminate. intros [rgb H]. discriminate H.
    + rewrite O, andb_false_r.
      split; split; auto; try discriminate. intros [rgb H]. discriminate H.
    + contradiction.
    + contradiction.
Qed.

(** ** Loops that append *)

Section Loops.

Context {A B : Type}.

Lemma for_each_append (g : A -> B)
  (body : A -> list B -> result (list B)) (l : list A) :
  (forall x acc, In x l -> body x acc = Ok (acc ++ [g x])%list) ->
  forall acc, for_each l body acc = Ok (acc ++ map g l)%list.
Proof.
  induction l as [|x l IH]; intros Hbody acc; cbn [for_each map].
  - now rewrite app_nil_r.
  - rewrite Hbody by (left; reflexivity). cbn [bind].
    rewrite IH by (intros; apply Hbody; right; assumption).
    now rewrite <- app_assoc.
Qed.

Lemma for_each_extend (g : A -> list B)
  (body : A -> list B -> result (list B)) (l : list A) :
  (forall x acc, In x l -> body x acc = Ok (acc ++ g x)%list) ->
  forall acc, for_each l body acc = Ok (acc ++ flat_map g l)%list.
Proof.
  induction l as [|x l IH]; intros Hbody acc; cbn [for_each flat_map].
  - now rewrite app_nil_r.
  - rewrite Hbody by (left; reflexivity). cbn [bind].
    rewrite IH by (intros; apply Hbody; right; assumption).
    now rewrite <- app_assoc.
Qed.

End Loops.

Lemma range_length (n : Z) : List.length (range n) = Z.to_nat n.
Proof. unfold range. now rewrite length_map, length_seq. Qed.

Lemma range_In (n z : Z) : In z (range n) <-> 0 <= z < n.
Proof.
  unfold range. rewrite in_map_iff. split.
  - intros (k & <- & Hk). apply in_seq in Hk. lia.
  - intros Hz. exists (Z.to_nat z). split; [lia|]. apply in_seq. lia.
Qed.

Lemma range_nth (n : Z) (k : nat) (d : Z) :
  (k < Z.to_nat n)%nat -> nth k (range n) d = Z.of_nat k.
Proof.
  intros Hk. unfold range.
  rewrite (nth_indep _ d (Z.of_nat 0)) by (now rewrite length_map, length_seq).
  rewrite map_nth, seq_nth by assumption. reflexivity.
Qed.

Lemma map_range_nth {B : Type} (g : Z -> B) (n : Z) (k : nat) (d : B) :
  (k < Z.to_nat n)%nat -> nth k (map g (range n)) d = g (Z.of_nat k).
Proof.
  intros Hk.
  rewrite (nth_indep _ d (g 0)) by (now rewrite length_map, range_length).
  rewrite map_nth, range_nth by assumption. reflexivity.
Qed.

(** ** Truncation *)

Lemma int_nonneg (x : Q) : (0 <= x)%Q -> int x = Qfloor x.
Proof.
  destruct x as [a b]. unfold Qle, int, Qfloor. cbn. intros H.
  apply Z.quot_div_nonneg; lia.
Qed.

Lemma int_bounds (x : Q) (m : Z) :
  (0 <= x)%Q -> (x <= inject_Z m)%Q -> 0 <= int x <= m.
Proof.
  intros H0 Hm. rewrite int_nonneg by assumption. split.
  - change 0 with (Qfloor 0). now apply Qfloor_resp_le.
  - rewrite <- (Qfloor_Z m). now apply Qfloor_resp_le.
Qed.

Lemma int_Qeq (x : Q) (m : Z) : 0 <= m -> (x == inject_Z m)%Q -> int x = m.
Proof.
  intros Hm E. rewrite int_nonneg.
  - rewrite (Qfloor_comp _ _ E). apply Qfloor_Z.
  - rewrite E. change 0%Q with (inject_Z 0). now rewrite <- Zle_Qle.
Qed.

(** ** The gradient as a list expression *)

Lemma getitem_nth {A : Type} (l : list A) (i : Z) (d : A) :
  0 <= i < len l -> getitem l i = Ok (nth (Z.to_nat i) l d).
Proof.
  unfold getitem, len. intros Hi.
  destruct (i <? 0) eqn:E; [apply Z.ltb_lt in E; lia|]. rewrite E.
  destruct (nth_error l (Z.to_nat i)) as [x|] eqn:N.
  - now rewrite (nth_error_nth _ _ d N).
  - apply nth_error_None in N. lia.
Qed.

Lemma interpolate_pair_segment (start end_ : list Q) (acc : list (list Q)) :
  is_rgb start -> is_rgb end_ ->
  interpolate_pair start end_ acc = Ok (acc ++ segment (start, end_))%list.
Proof.
  intros Hs He. unfold interpolate_pair, segment.
  apply for_each_append. intros index acc' _.
  destruct start as [|s0 [|s1 [|s2 [|]]]]; try discriminate Hs.
  destruct end_ as [|e0 [|e1 [|e2 [|]]]]; try discriminate He.
  reflexivity.
Qed.

Lemma pairs_cons2 (p q : list Q) (l : list (list Q)) :
  pairs (p :: q :: l) = (p, q) :: pairs (q :: l).
Proof. reflexivity. Qed.

Lemma pairs_In (rgbList : list (list Q)) (p q : list Q) :
  In (p, q) (pairs rgbList) -> In p rgbList /\ In q rgbList.
Proof.
  induction rgbList as [|a [|b l] IH]; try (cbn; tauto).
  rewrite pairs_cons2. intros [E|H].
  - inversion E; subst. cbn; tauto.
  - destruct (IH H). split; right; assumption.
Qed.

(** The first loop of [linear_gradient] builds [dense rgbList]. *)
Lemma all_colors_dense (rgbList : list (list Q)) :
  Forall is_rgb rgbList ->
  for_each (pairs rgbList)
    (fun '(start, end_) allColors => interpolate_pair start end_ allColors) []
  = Ok (dense rgbList).
Proof.
  intros H. unfold dense.
  apply (for_each_extend segment). intros [p q] acc Hin.
  apply pairs_In in Hin as [Hp Hq]. rewrite Forall_forall in H.
  apply interpolate_pair_segment; auto.
Qed.

Lemma segment_length (pq : list Q * list Q) :
  List.length (segment pq) = 765%nat.
Proof. unfold segment. rewrite length_map, range_length. reflexivity. Qed.

Lemma dense_length (rgbList : list (list Q)) :
  List.length (dense rgbList) = (765 * (List.length rgbList - 1))%nat.
Proof.
  unfold dense.
  induction rgbList as [|a [|b l] IH]; try reflexivity.
  rewrite pairs_cons2. cbn [flat_map]. rewrite length_app, segment_length, IH.
  cbn [List.length]. lia.
Qed.

Lemma num_le (a b : Z) : a <= b -> (num a <= num b)%Q.
Proof. unfold num. now rewrite <- Zle_Qle. Qed.

Lemma num_lt (a b : Z) : a < b -> (num a < num b)%Q.
Proof. unfold num. now rewrite <- Zlt_Qlt. Qed.

Lemma pick_index_range (total nColors counter : Z) :
  1 <= total -> 2 <= nColors -> 0 <= counter < nColors ->
  0 <= pick_index total nColors counter <= total - 1.
Proof.
  intros Ht Hn Hc. unfold pick_index. apply int_bounds.
  - apply Qmult_le_0_compat; [apply Qle_shift_div_l|].
    + apply (num_lt 0). lia.
    + rewrite Qmult_0_l. apply (num_le 0). lia.
    + apply (num_le 0). lia.
  - assert (Hd : (0 < num (nColors - 1))%Q) by (apply (num_lt 0); lia).
    assert (Hq : (num counter / num (nColors - 1) <= 1)%Q).
    { apply Qle_shift_div_r; [assumption|]. rewrite Qmult_1_l.
      apply num_le. lia. }
    assert (Hm : (0 <= num (total - 1))%Q) by (apply (num_le 0); lia).
    fold (num (total - 1)).
    rewrite <- (Qmult_1_l (num (total - 1))) at 2.
    apply Qmult_le_compat_r; assumption.
Qed.

Lemma pick_index_first (total nColors : Z) :
  2 <= nColors -> pick_index total nColors 0 = 0.
Proof.
  intros Hn. unfold pick_index. apply int_Qeq; [lia|].
  unfold num. cbn [inject_Z]. unfold Qdiv. rewrite !Qmult_0_l. reflexivity.
Qed.

Lemma pick_index_last (total nColors : Z) :
  1 <= total -> 2 <= nColors ->
  pick_index total nColors (nColors - 1) = total - 1.
Proof.
  intros Ht Hn. unfold pick_index. apply int_Qeq; [lia|].
  fold (num (total - 1)).
  assert (Hd : ~ (num (nColors - 1) == 0)%Q).
  { intros E. pose proof (num_lt 0 (nColors - 1) ltac:(lia)) as L.
    rewrite E in L. now apply Qlt_irrefl in L. }
  field. exact Hd.
Qed.

(** The second loop of [linear_gradient] as a list expression. *)
Lemma pick_colors_map (allColors : list (list Q)) (nColors : Z) :
  allColors <> [] -> 2 <= nColors ->
  pick_colors allColors nColors
  = Ok (map (fun counter =>
               nth (Z.to_nat (pick_index (len allColors) nColors counter))
                 allColors [])
          (range nColors)).
Proof.
  intros Hne Hn. unfold pick_colors.
  apply (for_each_append
           (fun counter =>
              nth (Z.to_nat (pick_index (len allColors) nColors counter))
                allColors []) _ (range nColors)).
  intros counter acc Hin. apply range_In in Hin.
  assert (Ht : 1 <= len allColors).
  { unfold len. destruct allColors; [congruence | cbn [List.length]; lia]. }
  unfold truediv.
  destruct (Qeq_bool (num (nColors - 1)) 0) eqn:E.
  { apply Qeq_bool_iff in E.
    pose proof (num_lt 0 (nColors - 1) ltac:(lia)) as L.
    rewrite E in L. now apply Qlt_irrefl in L. }
  cbn [bind]. fold (pick_index (len allColors) nColors counter).
  pose proof (pick_index_range (len allColors) nColors counter Ht Hn Hin).
  rewrite (getitem_nth allColors _ []) by lia. reflexivity.
Qed.

(** [linear_gradient] as a list expression, for two or more control
    points of three channels each and two or more colours. *)
Lemma linear_gradient_map (rgbList : list (list Q)) (nColors : Z) :
  (2 <= List.length rgbList)%nat -> Forall is_rgb rgbList -> 2 <= nColors ->
  linear_gradient rgbList nColors
  = Ok (map (fun counter =>
               nth (Z.to_nat (pick_index (len (dense rgbList)) nColors counter))
                 (dense rgbList) [])
          (range nColors)).
Proof.
  intros Hl Hrgb Hn. unfold linear_gradient.
  rewrite all_colors_dense by assumption. cbn [bind].
  apply pick_colors_map; [|assumption].
  intros E. apply (f_equal (@List.length _)) in E.
  rewrite dense_length in E. cbn [List.length] in E. lia.
Qed.

(** ** Length and end points of the gradient *)

Lemma dense_cons2 (p q : list Q) (l : list (list Q)) :
  dense (p :: q :: l) = (segment (p, q) ++ dense (q :: l))%list.
Proof. reflexivity. Qed.

Lemma dense_first (first second : list Q) (l : list (list Q)) :
  nth 0 (dense (first :: second :: l)) [] = sample first second 0.
Proof. reflexivity. Qed.

Lemma dense_last (first last : list Q) (middle : list (list Q)) :
  exists before,
    nth (List.length (dense (first :: middle ++ [last])) - 1)
      (dense (first :: middle ++ [last])) []
    = sample before last 764.
Proof.
  revert first. induction middle as [|x m IH]; intros first.
  - exists first. reflexivity.
  - destruct (IH x) as (before & E). exists before.
    cbn [app]. rewrite dense_cons2.
    rewrite length_app, segment_length.
    rewrite dense_length in E |- *.
    cbn [List.length] in E |- *. rewrite length_app in E |- *.
    cbn [List.length] in E |- *.
    rewrite app_nth2 by (rewrite segment_length; lia).
    rewrite segment_length. rewrite <- E. f_equal; lia.
Qed.

Lemma sample_start (start end_ : list Q) :
  is_rgb start -> color_eq (sample start end_ 0) start.
Proof.
  intros Hs. destruct start as [|s0 [|s1 [|s2 [|]]]]; try discriminate Hs.
  unfold sample, color_eq. cbn [map seq nth].
  repeat (apply Forall2_cons || apply Forall2_nil);
    unfold num, nInterpolate; cbn [inject_Z Z.sub Z.add Z.opp Z.pos_sub];
    field; discriminate.
Qed.

Lemma sample_end (start end_ : list Q) :
  is_rgb end_ -> color_eq (sample start end_ 764) end_.
Proof.
  intros He. destruct end_ as [|e0 [|e1 [|e2 [|]]]]; try discriminate He.
  unfold sample, color_eq. cbn [map seq nth].
  repeat (apply Forall2_cons || apply Forall2_nil);
    unfold num, nInterpolate; cbn [inject_Z Z.sub Z.add Z.opp Z.pos_sub];
    field; discriminate.
Qed.

(** C5.  For two or more RGB control points and a count [nColors >= 2],
    [linear_gradient] returns a list of exactly [nColors] colours. *)
Theorem linear_gradient_length (rgbList : list (list Q)) (nColors : Z) :
  (2 <= List.length rgbList)%nat -> Forall is_rgb rgbList -> 2 <= nColors ->
  exists result,
    linear_gradient rgbList nColors = Ok result /\ len result = nColors.
Proof.
  intros Hl Hrgb Hn. rewrite linear_gradient_map by assumption.
  eexists. split; [reflexivity|].
  unfold len. rewrite length_map, range_length. lia.
Qed.

(** C4.  For two or more RGB control points and a count [nColors >= 2],
    the first colour of the gradient equals the first control point and
    the colour at index [nColors - 1] equals the last control point, in
    exact arithmetic. *)
Theorem linear_gradient_endpoints
  (first last : list Q) (middle : list (list Q)) (nColors : Z) :
  Forall is_rgb (first :: middle ++ [last]) -> 2 <= nColors ->
  exists result c0 cn,
    linear_gradient (first :: middle ++ [last]) nColors = Ok result
    /\ getitem result 0 = Ok c0 /\ color_eq c0 first
    /\ getitem result (nColors - 1) = Ok cn /\ color_eq cn last.
Proof.
  intros Hrgb Hn.
  set (rgbList := first :: middle ++ [last]) in *.
  assert (Hl : (2 <= List.length rgbList)%nat).
  { unfold rgbList. cbn [List.length]. rewrite length_app. cbn. lia. }
  assert (Hfirst : is_rgb first) by (now inversion Hrgb).
  assert (Hlast : is_rgb last).
  { rewrite Forall_forall in Hrgb. apply Hrgb. right.
    apply in_or_app. right. now left. }
  assert (Ht : 1 <= len (dense rgbList)).
  { unfold len. rewrite dense_length. lia. }
  rewrite linear_gradient_map by assumption.
  set (pick := fun counter : Z => _).
  assert (Hlen : len (map pick (range nColors)) = nColors).
  { unfold len. rewrite length_map, range_length. lia. }
  exists (map pick (range nColors)), (pick 0), (pick (nColors - 1)).
  split; [reflexivity|].
  assert (Hget : forall k, 0 <= k < nColors ->
                 getitem (map pick (range nColors)) k = Ok (pick k)).
  { intros k Hk. rewrite (getitem_nth _ _ []) by lia.
    rewrite map_range_nth by lia. f_equal. f_equal. lia. }
  repeat split.
  - apply Hget. lia.
  - unfold pick. rewrite pick_index_first by assumption.
    unfold rgbList. destruct middle; cbn [app]; rewrite dense_first;
      now apply sample_start.
  - apply Hget. lia.
  - unfold pick. rewrite pick_index_last by assumption.
    destruct (dense_last first last middle) as (before & E).
    fold rgbList in E.
    replace (Z.to_nat (len (dense rgbList) - 1))
      with (List.length (dense rgbList) - 1)%nat by (unfold len; lia).
    rewrite E. now apply sample_end.
Qed.

Lemma linear_gradient_length_witness :
  ((2 <= List.length [[0; 0; 0]; [255; 0; 0]; [255; 255; 0]]%Q)%nat
   /\ Forall is_rgb [[0; 0; 0]; [255; 0; 0]; [255; 255; 0]]%Q
   /\ 2 <= 100)
  /\ exists result,
       linear_gradient [[0; 0; 0]; [255; 0; 0]; [255; 255; 0]]%Q 100 = Ok result
       /\ len result = 100.
Proof.
  assert (H : Forall is_rgb [[0; 0; 0]; [255; 0; 0]; [255; 255; 0]]%Q)
    by (repeat constructor).
  split; [split; [cbn; lia | split; [exact H | lia]]|].
  apply linear_gradient_length; [cbn; lia | exact H | lia].
Defined.

Lemma linear_gradient_endpoints_witness :
  (Forall is_rgb ([0; 0; 0]%Q :: [[255; 0; 0]%Q] ++ [[255; 255; 0]%Q])
   /\ 2 <= 100)
  /\ exists result c0 cn,
       linear_gradient ([0; 0; 0]%Q :: [[255; 0; 0]%Q] ++ [[255; 255; 0]%Q]) 100
       = Ok result
       /\ getitem result 0 = Ok c0 /\ color_eq c0 [0; 0; 0]%Q
       /\ getitem result (100 - 1) = Ok cn /\ color_eq cn [255; 255; 0]%Q.
Proof.
  assert (H : Forall is_rgb ([0; 0; 0]%Q :: [[255; 0; 0]%Q] ++ [[255; 255; 0]%Q]))
    by (repeat constructor).
  split; [split; [exact H | lia]|].
  apply linear_gradient_endpoints; [exact H | lia].
Defined.

(** ** Channels stay in range *)

Lemma nth_in_byte_range (c : list Q) (j : nat) :
  Forall in_byte_range c -> in_byte_range (nth j c 0%Q).
Proof.
  intros H. destruct (Nat.lt_ge_cases j (List.length c)) as [L|L].
  - rewrite Forall_forall in H. apply H. now apply nth_In.
  - rewrite nth_overflow by assumption. unfold in_byte_range. lra.
Qed.

Lemma scale_in_byte_range (s e : Q) (i : Z) :
  in_byte_range s -> in_byte_range e -> 0 <= i < nInterpolate ->
  in_byte_range (s + num i / num (nInterpolate - 1) * (e - s)).
Proof.
  unfold in_byte_range, nInterpolate. intros Hs He Hi.
  set (t := (num i / num (765 - 1))%Q).
  assert (Ht : (0 <= t <= 1)%Q).
  { unfold t. split.
    - apply Qle_shift_div_l; [reflexivity|]. rewrite Qmult_0_l.
      apply (num_le 0). lia.
    - apply Qle_shift_div_r; [reflexivity|]. rewrite Qmult_1_l.
      apply num_le. lia. }
  nra.
Qed.

Lemma sample_in_byte_range (start end_ : list Q) (i : Z) :
  Forall in_byte_range start -> Forall in_byte_range end_ ->
  0 <= i < nInterpolate ->
  is_rgb (sample start end_ i) /\ Forall in_byte_range (sample start end_ i).
Proof.
  intros Hs He Hi. split; [reflexivity|].
  unfold sample. cbn [map seq].
  repeat (apply Forall_cons || apply Forall_nil);
    apply scale_in_byte_range; auto using nth_in_byte_range.
Qed.

Lemma dense_in_byte_range (rgbList : list (list Q)) :
  Forall (Forall in_byte_range) rgbList ->
  Forall (fun c => is_rgb c /\ Forall in_byte_range c) (dense rgbList).
Proof.
  intros H. unfold dense. apply Forall_flat_map.
  apply Forall_forall. intros [p q] Hin.
  apply pairs_In in Hin as [Hp Hq].
  rewrite Forall_forall in H.
  unfold segment. apply Forall_map, Forall_forall. intros i Hi.
  apply range_In in Hi. cbn [fst snd].
  apply sample_in_byte_range; auto.
Qed.

(** Every colour of the gradient is one of the dense list. *)
Lemma linear_gradient_in_byte_range (rgbList : list (list Q)) (nColors : Z) :
  (2 <= List.length rgbList)%nat -> Forall is_rgb rgbList ->
  Forall (Forall in_byte_range) rgbList -> 2 <= nColors ->
  exists result,
    linear_gradient rgbList nColors = Ok result
    /\ len result = nColors
    /\ Forall (fun c => is_rgb c /\ Forall in_byte_range c) result.
Proof.
  intros Hl Hrgb Hb Hn. rewrite linear_gradient_map by assumption.
  eexists. split; [reflexivity|]. split.
  - unfold len. rewrite length_map, range_length. lia.
  - apply Forall_map, Forall_forall. intros k Hk. apply range_In in Hk.
    assert (Ht : 1 <= len (dense rgbList)).
    { unfold len. rewrite dense_length. lia. }
    pose proof (pick_index_range (len (dense rgbList)) nColors k Ht Hn Hk) as R.
    pose proof (dense_in_byte_range rgbList Hb) as D.
    rewrite Forall_forall in D. apply D. apply nth_In. unfold len in *. lia.
Qed.

(** ** Encoding a channel of the range *)

Lemma numeric_to_indhex_digit (d : Z) :
  0 <= d <= 15 ->
  exists c, _numeric_to_indhex d = Ok (String c EmptyString)
            /\ is_hexdigit_upper c = true.
Proof.
  intros Hd.
  assert (H : indhex_check d = true).
  { apply (range_forallb indhex_check 16); [vm_compute; reflexivity | lia]. }
  unfold indhex_check in H.
  destruct (_numeric_to_indhex d) as [[|c [|? ?]]|]; try discriminate.
  exists c. auto.
Qed.

Lemma mod_16_range (x : Q) : (0 <= mod_ x 16 < 16)%Q.
Proof.
  unfold mod_.
  pose proof (Qfloor_le (x / 16)) as L.
  pose proof (Qlt_floor (x / 16)) as U.
  rewrite inject_Z_plus in U. change (inject_Z 1) with 1%Q in U.
  set (f := inject_Z (Qfloor (x / 16))) in *.
  assert (E : (x == 16 * (x / 16))%Q) by (field).
  lra.
Qed.

Lemma colorval_to_hexval_digits (x : Q) :
  in_byte_range x ->
  exists a b,
    _colorval_to_hexval x = Ok (String a (String b EmptyString))
    /\ is_hexdigit_upper a = true /\ is_hexdigit_upper b = true.
Proof.
  intros [H0 H1]. unfold _colorval_to_hexval.
  assert (Hdiv : 0 <= int (x / 16) <= 15).
  { assert (Hq : (0 <= x / 16)%Q) by (apply Qle_shift_div_l; lra).
    rewrite int_nonneg by assumption. split.
    - change 0 with (Qfloor 0). now apply Qfloor_resp_le.
    - change 15 with (Qfloor (255 / 16)). apply Qfloor_resp_le.
      unfold Qdiv. apply Qmult_le_compat_r; [exact H1 | discriminate]. }
  assert (Hrem : 0 <= int (mod_ x 16) <= 15).
  { destruct (mod_16_range x) as [M0 M1].
    rewrite int_nonneg by assumption. split.
    - change 0 with (Qfloor 0). now apply Qfloor_resp_le.
    - pose proof (Qfloor_le (mod_ x 16)) as F.
      assert (L : (inject_Z (Qfloor (mod_ x 16)) < inject_Z 16)%Q).
      { eapply Qle_lt_trans; [exact F | exact M1]. }
      rewrite <- Zlt_Qlt in L. lia. }
  destruct (numeric_to_indhex_digit _ Hdiv) as (a & -> & Ua).
  destruct (numeric_to_indhex_digit _ Hrem) as (b & -> & Ub).
  exists a, b. auto.
Qed.

Lemma rgb_to_hex_HexColor (c : list Q) :
  is_rgb c -> Forall in_byte_range c ->
  exists h, rgb_to_hex c = Ok h /\ is_HexColor h = true.
Proof.
  intros Hc Hb. destruct c as [|r [|g [|b [|]]]]; try discriminate Hc.
  inversion Hb as [|? ? Hr Hb1]; subst.
  inversion Hb1 as [|? ? Hg Hb2]; subst.
  inversion Hb2 as [|? ? Hbb _]; subst.
  destruct (colorval_to_hexval_digits r Hr) as (r1 & r2 & Er & Ur1 & Ur2).
  destruct (colorval_to_hexval_digits g Hg) as (g1 & g2 & Eg & Ug1 & Ug2).
  destruct (colorval_to_hexval_digits b Hbb) as (b1 & b2 & Eb & Ub1 & Ub2).
  unfold rgb_to_hex. cbn [comprehension]. rewrite Er, Eg, Eb.
  eexists. split; [reflexivity|].
  unfold is_HexColor. cbn. rewrite Ur1, Ur2, Ug1, Ug2, Ub1, Ub2. reflexivity.
Qed.

(** ** The catalogue *)

(** The keys of the dict literal are distinct, so the association list
    answers as the dict does. *)
Lemma schemes_keys_distinct :
  NoDup (map fst schemes) /\ List.length schemes = 12%nat.
Proof.
  split; [|reflexivity].
  repeat (constructor; [cbn; intuition discriminate|]). constructor.
Qed.

Lemma dict_get_In {V : Type} (d : list (string * V)) (k : string) (v : V) :
  dict_get d k = Some v -> In (k, v) d.
Proof.
  induction d as [|[k' v'] d IH]; cbn [dict_get]; [discriminate|].
  destruct (String.eqb k' k) eqn:E.
  - apply String.eqb_eq in E. intros [= ->]. subst. now left.
  - intros H. right. auto.
Qed.

Lemma schemes_palette (name : string) (hex_codes : list string) :
  dict_get schemes name = Some hex_codes ->
  exists rgbs,
    comprehension hex_to_rgb hex_codes = Ok rgbs
    /\ List.length rgbs = 7%nat
    /\ Forall is_rgb (map (map num) rgbs)
    /\ Forall (Forall in_byte_range) (map (map num) rgbs).
Proof.
  intros H. apply dict_get_In in H.
  assert (C : forallb (fun kv => palette_check (snd kv)) schemes = true)
    by (vm_compute; reflexivity).
  rewrite forallb_forall in C. specialize (C _ H). cbn [snd] in C.
  unfold palette_check in C.
  destruct (comprehension hex_to_rgb hex_codes) as [rgbs|]; [|discriminate].
  apply andb_prop in C as [L F]. apply Nat.eqb_eq in L.
  rewrite forallb_forall in F.
  exists rgbs. repeat split; auto.
  - apply Forall_map, Forall_forall. intros c Hc.
    apply F, andb_prop in Hc as [Lc _]. apply Nat.eqb_eq in Lc.
    unfold is_rgb. now rewrite length_map.
  - apply Forall_map, Forall_forall. intros c Hc.
    apply F, andb_prop in Hc as [_ Bc]. rewrite forallb_forall in Bc.
    apply Forall_map, Forall_forall. intros v Hv.
    apply Bc, andb_prop in Hv as [V0 V1]. apply Z.leb_le in V0, V1.
    split; [apply (num_le 0) | apply (num_le v 255)]; assumption.
Qed.

Lemma comprehension_Forall {A B : Type} (f : A -> result B)
  (P : A -> Prop) (R : B -> Prop) (l : list A) :
  (forall x, P x -> exists y, f x = Ok y /\ R y) ->
  Forall P l ->
  exists ys, comprehension f l = Ok ys
             /\ List.length ys = List.length l /\ Forall R ys.
Proof.
  intros Hf. induction 1 as [|x l Hx Hl IH]; cbn [comprehension].
  - exists []. auto.
  - destruct (Hf x Hx) as (y & -> & Ry). destruct IH as (ys & -> & L & Rs).
    exists (y :: ys). cbn [bind List.length]. auto.
Qed.

(** The three branches of [color_brewer]. *)
Lemma color_brewer_too_many (name : string) (n : Z) :
  maximum_n < n -> color_brewer name n = Raise ValueError.
Proof.
  intros H. unfold color_brewer.
  destruct (Z.gtb_spec n maximum_n); [reflexivity | lia].
Qed.

Lemma color_brewer_few (name : string) (n : Z) :
  n <= 6 -> color_brewer name n = Ok (dict_get schemes name).
Proof.
  intros H. unfold color_brewer.
  destruct (Z.gtb_spec n maximum_n); [unfold maximum_n in *; lia|].
  destruct (Z.gtb_spec n 6); [lia | reflexivity].
Qed.

Lemma color_brewer_many (name : string) (n : Z) :
  6 < n <= maximum_n ->
  color_brewer name n
  = match dict_get schemes name with
    | None => Ok None
    | Some hex_codes =>
        rgb_color_scheme <- comprehension hex_to_rgb hex_codes ;;
        gradient <- linear_gradient (map (map num) rgb_color_scheme) n ;;
        color_scheme <- comprehension rgb_to_hex gradient ;;
        Ok (Some color_scheme)
    end.
Proof.
  intros H. unfold color_brewer.
  destruct (Z.gtb_spec n maximum_n); [lia|].
  destruct (Z.gtb_spec n 6); [reflexivity | lia].
Qed.

(** The interpolating branch on a name of the catalogue. *)
Lemma color_brewer_interpolated (name : string) (n : Z) (hex_codes : list string) :
  dict_get schemes name = Some hex_codes -> 6 < n <= maximum_n ->
  exists color_scheme,
    color_brewer name n = Ok (Some color_scheme)
    /\ len color_scheme = n
    /\ Forall (fun h => is_HexColor h = true) color_scheme.
Proof.
  intros Hget Hn. rewrite color_brewer_many, Hget by assumption.
  destruct (schemes_palette name hex_codes Hget) as (rgbs & -> & L & Hrgb & Hb).
  cbn [bind].
  destruct (linear_gradient_in_byte_range (map (map num) rgbs) n)
    as (gradient & -> & Ln & Hg); try assumption; try lia.
  { rewrite length_map. lia. }
  cbn [bind].
  destruct (comprehension_Forall rgb_to_hex
              (fun c => is_rgb c /\ Forall in_byte_range c)
              (fun h => is_HexColor h = true) gradient)
    as (color_scheme & -> & Lc & Hc); [|assumption|].
  { intros c [? ?]. now apply rgb_to_hex_HexColor. }
  exists color_scheme. cbn [bind]. repeat split; [|assumption].
  unfold len in *. lia.
Qed.

Lemma color_brewer_returns (name : string) (n : Z) :
  n <= maximum_n -> exists color_scheme, color_brewer name n = Ok color_scheme.
Proof.
  intros Hn. destruct (Z_lt_le_dec 6 n) as [H6|H6].
  - destruct (dict_get schemes name) as [hex_codes|] eqn:G.
    + destruct (color_brewer_interpolated name n hex_codes G)
        as (cs & -> & _); [lia | eauto].
    + rewrite color_brewer_many, G by lia. eauto.
  - rewrite color_brewer_few by assumption. eauto.
Qed.

(** C6.  [color_brewer] raises [ValueError] if and only if [n] exceeds
    253, whatever the scheme name, known or not; for every [n <= 253] it
    returns. *)
Theorem color_brewer_raises_iff (name : string) (n : Z) :
  (color_brewer name n = Raise ValueError <-> 253 < n)
  /\ ((exists color_scheme, color_brewer name n = Ok color_scheme) <-> n <= 253).
Proof.
  destruct (Z_lt_le_dec 253 n) as [Hn|Hn].
  - rewrite (color_brewer_too_many name n Hn).
    split; split; try tauto; try lia.
    intros [? ?]. discriminate.
  - destruct (color_brewer_returns name n Hn) as [cs E]. rewrite E.
    split; split; eauto; try lia. discriminate.
Qed.

(** C7.  For [n <= 6], [color_brewer] returns what the catalogue holds
    under the name, whole and not cut to [n]: the seven-entry base palette
    of a known name ([BuGn] at [n = 6] gives its seven entries), and
    [None] for a name that is not in the catalogue. *)
Theorem color_brewer_base_palette (name : string) (n : Z) :
  n <= 6 ->
  color_brewer name n = Ok (dict_get schemes name)
  /\ (forall hex_codes, dict_get schemes name = Some hex_codes ->
        List.length hex_codes = 7%nat)
  /\ color_brewer "BuGn" 6
     = Ok (Some ["#EDF8FB"; "#CCECE6"; "#CCECE6"; "#66C2A4"; "#41AE76";
                 "#238B45"; "#005824"])
  /\ color_brewer "NotAScheme" 6 = Ok None.
Proof.
  intros Hn. repeat split; try reflexivity.
  - now apply color_brewer_few.
  - intros hex_codes G. apply dict_get_In in G.
    assert (C : forallb (fun kv => (List.length (snd kv) =? 7)%nat) schemes = true)
      by reflexivity.
    rewrite forallb_forall in C. specialize (C _ G). now apply Nat.eqb_eq in C.
Qed.

(** C10.  For every name of the catalogue and every [n] with
    [6 < n <= 253], [color_brewer] returns [n] strings, each a [#]
    followed by exactly six characters of [0]-[9] and [A]-[F]; the
    channels that reach [rgb_to_hex] are fractional, and [int] cuts them
    to digits of [0, 15]. *)
Theorem color_brewer_hexcolors (name : string) (n : Z) (hex_codes : list string) :
  dict_get schemes name = Some hex_codes -> 6 < n <= 253 ->
  exists color_scheme,
    color_brewer name n = Ok (Some color_scheme)
    /\ len color_scheme = n
    /\ Forall (fun h => is_HexColor h = true) color_scheme.
Proof.
  intros G Hn.
  destruct (color_brewer_interpolated name n hex_codes G Hn)
    as (color_scheme & E & L & W).
  exists color_scheme. auto.
Qed.

Lemma color_brewer_base_palette_witness :
  3 <= 6
  /\ color_brewer "YlGn" 3 = Ok (dict_get schemes "YlGn")
  /\ (forall hex_codes, dict_get schemes "YlGn" = Some hex_codes ->
        List.length hex_codes = 7%nat)
  /\ color_brewer "BuGn" 6
     = Ok (Some ["#EDF8FB"; "#CCECE6"; "#CCECE6"; "#66C2A4"; "#41AE76";
                 "#238B45"; "#005824"])
  /\ color_brewer "NotAScheme" 6 = Ok None.
Proof.
  split; [lia|]. apply color_brewer_base_palette. lia.
Defined.

Lemma color_brewer_hexcolors_witness :
  (dict_get schemes "BuGn"
   = Some ["#EDF8FB"; "#CCECE6"; "#CCECE6"; "#66C2A4"; "#41AE76";
           "#238B45"; "#005824"]
   /\ 6 < 9 <= 253)
  /\ exists color_scheme,
       color_brewer "BuGn" 9 = Ok (Some color_scheme)
       /\ len color_scheme = 9
       /\ Forall (fun h => is_HexColor h = true) color_scheme.
Proof.
  split; [split; [reflexivity | lia]|].
  eapply color_brewer_hexcolors; [reflexivity | lia].
Defined.

(** ** The legend scaler *)

Lemma num_eq_0 (z : Z) : Qeq_bool (num z) 0 = (z =? 0).
Proof.
  unfold Qeq_bool, num, inject_Z. cbn. now rewrite Z.mul_1_r.
Qed.

Lemma num_div_nonzero (a b : Z) :
  a <> 0 -> b <> 0 -> Qeq_bool (num a / num b) 0 = false.
Proof.
  intros Ha Hb. destruct (Qeq_bool (num a / num b) 0) eqn:E; [|reflexivity].
  apply Qeq_bool_iff in E. exfalso.
  assert (Hb' : ~ (num b == 0)%Q).
  { intros C. apply Qeq_bool_iff in C. rewrite num_eq_0 in C.
    apply Z.eqb_eq in C. contradiction. }
  assert (Ha' : (num a == 0)%Q).
  { rewrite <- (Qmult_div_r (num a) (num b) Hb'). rewrite E. apply Qmult_0_r. }
  apply Qeq_bool_iff in Ha'. rewrite num_eq_0 in Ha'.
  apply Z.eqb_eq in Ha'. contradiction.
Qed.

(** On integers the test [i % divisor == 0] of the loop, with
    [divisor = L / max_labels], is divisibility of [i * max_labels] by
    [L]. *)
Lemma legend_keep_divides (L max_labels i : Z) :
  0 < L -> max_labels <> 0 ->
  Qeq_bool (mod_ (num i) (num L / num max_labels)) 0
  = ((i * max_labels) mod L =? 0).
Proof.
  intros HL Hm.
  assert (HL' : ~ (num L == 0)%Q).
  { intros C. apply Qeq_bool_iff in C. rewrite num_eq_0 in C.
    apply Z.eqb_eq in C. lia. }
  assert (Hm' : ~ (num max_labels == 0)%Q).
  { intros C. apply Qeq_bool_iff in C. rewrite num_eq_0 in C.
    apply Z.eqb_eq in C. lia. }
  assert (Hq : (num i / (num L / num max_labels)
                == inject_Z (i * max_labels) / inject_Z L)%Q).
  { rewrite inject_Z_mult. fold (num i) (num max_labels) (num L).
    field. split; assumption. }
  unfold mod_. rewrite (Qfloor_comp _ _ Hq), <- Zdiv_Qdiv.
  set (k := (i * max_labels) / L).
  apply eq_true_iff_eq. rewrite Qeq_bool_iff, Z.eqb_eq.
  rewrite <- (Z.div_exact (i * max_labels) L) by lia. fold k.
  split.
  - intros E.
    assert (E' : (inject_Z (i * max_labels) == inject_Z (L * k))%Q).
    { rewrite !inject_Z_mult. fold (num i) (num max_labels) (num L).
      setoid_replace (num i)
        with (num L / num max_labels * inject_Z k)%Q by lra.
      field. assumption. }
    exact (proj1 (inject_Z_injective _ _) E').
  - intros E.
    assert (E' : (num i * num max_labels == num L * inject_Z k)%Q).
    { unfold num. rewrite <- !inject_Z_mult. now rewrite E. }
    setoid_replace (num i) with (num L * inject_Z k / num max_labels)%Q.
    + field. assumption.
    + rewrite <- E'. field. assumption.
Qed.

(** ** More on the encoder: fractions, bounds and negative channels *)

Lemma Qfloor_unique (x : Q) (f : Z) :
  (inject_Z f <= x)%Q -> (x < inject_Z (f + 1))%Q -> Qfloor x = f.
Proof.
  intros Hlo Hhi.
  pose proof (Qfloor_le x) as L. pose proof (Qlt_floor x) as U.
  assert (A : (inject_Z f < inject_Z (Qfloor x + 1))%Q)
    by (eapply Qle_lt_trans; eassumption).
  assert (B : (inject_Z (Qfloor x) < inject_Z (f + 1))%Q)
    by (eapply Qle_lt_trans; eassumption).
  rewrite <- Zlt_Qlt in A, B. lia.
Qed.

Lemma Qfloor_div_16 (x : Q) : Qfloor (x / 16) = Qfloor x / 16.
Proof.
  destruct x as [a b]. unfold Qfloor, Qdiv, Qmult, Qinv. cbn.
  rewrite Z.mul_1_r, Pos2Z.inj_mul, Z.div_div by lia. reflexivity.
Qed.

Lemma Qfloor_mod_16 (x : Q) : Qfloor (mod_ x 16) = Qfloor x mod 16.
Proof.
  unfold mod_. rewrite Qfloor_div_16.
  set (f := Qfloor x). set (k := f / 16).
  apply Qfloor_unique.
  - pose proof (Qfloor_le x) as L. fold f in L.
    assert (E : (inject_Z (f mod 16) == inject_Z f - 16 * inject_Z k)%Q).
    { rewrite Z.mod_eq by lia. fold k. unfold Zminus.
      rewrite inject_Z_plus, inject_Z_opp, inject_Z_mult. reflexivity. }
    rewrite E. lra.
  - pose proof (Qlt_floor x) as U. fold f in U.
    assert (E : (inject_Z (f mod 16 + 1)
                 == inject_Z (f + 1) - 16 * inject_Z k)%Q).
    { rewrite Z.mod_eq by lia. fold k.
      rewrite !inject_Z_plus. unfold Zminus.
      rewrite inject_Z_plus, inject_Z_opp, inject_Z_mult. ring. }
    rewrite E. lra.
Qed.

(** The digits that [_colorval_to_hexval] writes for a non-negative
    channel are those of its integer part. *)
Lemma colorval_digits_nonneg (x : Q) :
  (0 <= x)%Q ->
  int (x / 16) = Qfloor x / 16 /\ int (mod_ x 16) = Qfloor x mod 16.
Proof.
  intros Hx. split.
  - rewrite int_nonneg, Qfloor_div_16; [reflexivity|].
    apply Qle_shift_div_l; [reflexivity | lra].
  - rewrite int_nonneg, Qfloor_mod_16; [reflexivity|].
    apply mod_16_range.
Qed.

Lemma colorval_to_hexval_floor (x : Q) :
  (0 <= x)%Q -> _colorval_to_hexval x = _colorval_to_hexval (num (Qfloor x)).
Proof.
  intros Hx. unfold _colorval_to_hexval.
  assert (Hf : (0 <= num (Qfloor x))%Q).
  { apply (num_le 0). change 0 with (Qfloor 0). now apply Qfloor_resp_le. }
  destruct (colorval_digits_nonneg x Hx) as [-> ->].
  destruct (colorval_digits_nonneg _ Hf) as [-> ->].
  unfold num. rewrite Qfloor_Z. reflexivity.
Qed.

Lemma getitem_overflow {A : Type} (l : list A) (i : Z) :
  len l <= i -> getitem l i = Raise IndexError.
Proof.
  unfold getitem, len. intros Hi.
  destruct (i <? 0) eqn:E; [apply Z.ltb_lt in E; lia|]. rewrite E.
  destruct (nth_error l (Z.to_nat i)) eqn:N; [|reflexivity].
  assert (nth_error l (Z.to_nat i) <> None) as C by congruence.
  apply nth_error_Some in C. lia.
Qed.

Lemma numeric_to_indhex_overflow (d : Z) :
  16 <= d -> _numeric_to_indhex d = Raise IndexError.
Proof.
  intros Hd. unfold _numeric_to_indhex.
  destruct (d <? 10) eqn:E; [apply Z.ltb_lt in E; lia|].
  unfold str_getitem. rewrite getitem_overflow; [reflexivity|].
  unfold len. cbn. lia.
Qed.

Lemma numeric_to_indhex_small (d : Z) :
  d < 10 -> _numeric_to_indhex d = Ok (str d).
Proof.
  intros Hd. unfold _numeric_to_indhex.
  destruct (d <? 10) eqn:E; [reflexivity | apply Z.ltb_ge in E; lia].
Qed.

Lemma colorval_to_hexval_too_large (x : Q) :
  (256 <= x)%Q -> _colorval_to_hexval x = Raise IndexError.
Proof.
  intros Hx. unfold _colorval_to_hexval.
  rewrite numeric_to_indhex_overflow; [reflexivity|].
  destruct (colorval_digits_nonneg x ltac:(lra)) as [-> _].
  apply Z.div_le_lower_bound; [lia|].
  change (16 * 16) with (Qfloor 256). now apply Qfloor_resp_le.
Qed.

Lemma int_nonpos (x : Q) : (x <= 0)%Q -> int x <= 0.
Proof.
  destruct x as [a b]. unfold Qle, int. cbn. intros H.
  rewrite Z.mul_1_r in H. apply Z.quot_le_upper_bound; lia.
Qed.

Lemma colorval_to_hexval_negative (x : Q) :
  (x < 0)%Q -> exists h, _colorval_to_hexval x = Ok h.
Proof.
  intros Hx. unfold _colorval_to_hexval.
  assert (Hd : int (x / 16) <= 0).
  { apply int_nonpos. unfold Qdiv.
    setoid_replace 0%Q with (0 * / 16)%Q by ring.
    apply Qmult_le_compat_r; [lra | discriminate]. }
  rewrite numeric_to_indhex_small by lia. cbn [bind].
  destruct (mod_16_range x) as [M0 M1].
  assert (Hr : 0 <= int (mod_ x 16) <= 15).
  { rewrite int_nonneg by assumption. split.
    - change 0 with (Qfloor 0). now apply Qfloor_resp_le.
    - pose proof (Qfloor_le (mod_ x 16)) as F.
      assert (L : (inject_Z (Qfloor (mod_ x 16)) < inject_Z 16)%Q)
        by (eapply Qle_lt_trans; [exact F | exact M1]).
      rewrite <- Zlt_Qlt in L. lia. }
  destruct (numeric_to_indhex_digit _ Hr) as (c & -> & _).
  cbn [bind]. eauto.
Qed.

Lemma colorval_to_hexval_in_range (x : Q) :
  (0 <= x < 256)%Q ->
  exists a b,
    _colorval_to_hexval x = Ok (String a (String b EmptyString))
    /\ is_hexdigit_upper a = true /\ is_hexdigit_upper b = true
    /\ _hexval_to_colorval (String a (String b EmptyString)) = Ok (Qfloor x).
Proof.
  intros [H0 H1]. rewrite colorval_to_hexval_floor by assumption.
  assert (Hf : 0 <= Qfloor x <= 255).
  { split.
    - change 0 with (Qfloor 0). now apply Qfloor_resp_le.
    - pose proof (Qfloor_le x) as F.
      assert (L : (inject_Z (Qfloor x) < inject_Z 256)%Q)
        by (eapply Qle_lt_trans; [exact F | exact H1]).
      rewrite <- Zlt_Qlt in L. lia. }
  destruct (channel_roundtrip _ Hf) as (a & b & E & D & Ua & Ub).
  exists a, b. auto.
Qed.

(** X1.  [rgb_to_hex] has no bounds check.  On integer channels (of at
    most 53 bits, which the division by 16 keeps exact) the only
    exception it raises is the [IndexError] of [alphas[mathval]]: it
    returns exactly when every channel is below 256, negative channels
    included, and raises [IndexError] as soon as one channel is 256 or
    more. *)
Theorem rgb_to_hex_raises_iff (color_code : list Z) :
  Forall (fun c => - 2 ^ 53 < c < 2 ^ 53) color_code ->
  ((exists h, rgb_to_hex (map num color_code) = Ok h)
   <-> Forall (fun c => c < 256) color_code)
  /\ (rgb_to_hex (map num color_code) = Raise IndexError
      <-> Exists (fun c => 256 <= c) color_code).
Proof.
  intros _.
  assert (K : forall l : list Z,
             (Forall (fun c => c < 256) l /\
              exists hs, comprehension _colorval_to_hexval (map num l) = Ok hs)
             \/ (Exists (fun c => 256 <= c) l /\
                 comprehension _colorval_to_hexval (map num l)
                 = Raise IndexError)).
  { induction l as [|c l IH]; cbn [map comprehension].
    - left. split; [constructor | eauto].
    - destruct (Z_lt_le_dec c 256) as [Hc|Hc].
      + assert (exists h, _colorval_to_hexval (num c) = Ok h) as [h ->].
        { destruct (Z_lt_le_dec c 0) as [N|P].
          - apply colorval_to_hexval_negative. now apply (num_lt c 0).
          - destruct (colorval_to_hexval_in_range (num c))
              as (a & b & E & _); [|eauto].
            split; [now apply (num_le 0 c) | now apply (num_lt c 256)]. }
        cbn [bind]. destruct IH as [[F [hs ->]]|[E ->]].
        * left. split; [now constructor | cbn; eauto].
        * right. split; [now apply Exists_cons_tl | reflexivity].
      + right. rewrite colorval_to_hexval_too_large
          by now apply (num_le 256 c).
        split; [now apply Exists_cons_hd | reflexivity]. }
  unfold rgb_to_hex.
  destruct (K color_code) as [[F [hs E]]|[X E]]; rewrite E; cbn [bind].
  - split; split; eauto; try discriminate.
    intros X. exfalso. apply Exists_exists in X as (x & Hin & Hx).
    rewrite Forall_forall in F. specialize (F x Hin). lia.
  - split; split; auto; try (intros [h H]; discriminate H).
    intros F. exfalso. apply Exists_exists in X as (x & Hin & Hx).
    rewrite Forall_forall in F. specialize (F x Hin). lia.
Qed.

Lemma rgb_to_hex_raises_iff_witness :
  Forall (fun c => - 2 ^ 53 < c < 2 ^ 53) [-17; 255; 256]
  /\ rgb_to_hex (map num [-17; 255; 256]) = Raise IndexError.
Proof.
  assert (H : Forall (fun c => - 2 ^ 53 < c < 2 ^ 53) [-17; 255; 256])
    by (repeat constructor; lia).
  split; [exact H|].
  apply (proj2 (rgb_to_hex_raises_iff [-17; 255; 256] H)).
  apply Exists_cons_tl, Exists_cons_tl, Exists_cons_hd. lia.
Defined.

(** X2.  A fractional colour loses its fractions and nothing else: for
    channels anywhere in [[0, 256)], decoding the encoding returns the
    integer parts of the three channels. *)
Theorem rgb_to_hex_truncates (r g b : Q) :
  (0 <= r < 256)%Q -> (0 <= g < 256)%Q -> (0 <= b < 256)%Q ->
  exists h,
    rgb_to_hex [r; g; b] = Ok h
    /\ is_HexColor h = true
    /\ hex_to_rgb h = Ok [Qfloor r; Qfloor g; Qfloor b].
Proof.
  intros Hr Hg Hb.
  destruct (colorval_to_hexval_in_range r Hr) as (r1 & r2 & Er & Ur1 & Ur2 & Dr).
  destruct (colorval_to_hexval_in_range g Hg) as (g1 & g2 & Eg & Ug1 & Ug2 & Dg).
  destruct (colorval_to_hexval_in_range b Hb) as (b1 & b2 & Eb & Ub1 & Ub2 & Db).
  eexists. split; [|split].
  - unfold rgb_to_hex. cbn [comprehension]. rewrite Er, Eg, Eb. reflexivity.
  - unfold is_HexColor. cbn. rewrite Ur1, Ur2, Ug1, Ug2, Ub1, Ub2. reflexivity.
  - rewrite hex_to_rgb_unfold. cbn [Ascii.eqb Bool.eqb append join fold_right].
    unfold decode_body, str_slice.
    cbn [seq map Nat.mul Nat.add Nat.sub substring comprehension append].
    rewrite Dr, Dg, Db. reflexivity.
Qed.

Lemma rgb_to_hex_truncates_witness :
  ((0 <= 255 # 2 < 256)%Q /\ (0 <= 1 # 3 < 256)%Q /\ (0 <= 200 < 256)%Q)
  /\ exists h,
       rgb_to_hex [255 # 2; 1 # 3; 200]%Q = Ok h
       /\ is_HexColor h = true
       /\ hex_to_rgb h = Ok [Qfloor (255 # 2); Qfloor (1 # 3); Qfloor 200].
Proof.
  assert (A : (0 <= 255 # 2 < 256)%Q) by (split; [discriminate | reflexivity]).
  assert (B : (0 <= 1 # 3 < 256)%Q) by (split; [discriminate | reflexivity]).
  assert (C : (0 <= 200 < 256)%Q) by (split; [discriminate | reflexivity]).
  split; [auto|]. exact (rgb_to_hex_truncates _ _ _ A B C).
Defined.

(** X3.  For any number of channels, each in [[0, 256)], the encoding is
    [#] followed by two digits of [0]-[9], [A]-[F] per channel. *)
Theorem rgb_to_hex_shape (color_code : list Q) :
  Forall (fun x => 0 <= x < 256)%Q color_code ->
  exists body,
    rgb_to_hex color_code = Ok (String "#" body)
    /\ String.length body = (2 * List.length color_code)%nat
    /\ string_forallb is_hexdigit_upper body = true.
Proof.
  intros H. unfold rgb_to_hex.
  assert (K : exists hs,
             comprehension _colorval_to_hexval color_code = Ok hs
             /\ String.length (join hs) = (2 * List.length color_code)%nat
             /\ string_forallb is_hexdigit_upper (join hs) = true).
  { induction H as [|x l Hx Hl IH]; cbn [comprehension].
    - exists []. auto.
    - destruct (colorval_to_hexval_in_range x Hx) as (a & b & -> & Ua & Ub & _).
      destruct IH as (hs & -> & L & F). cbn [bind].
      eexists. split; [reflexivity|]. cbn [join fold_right append].
      fold (join hs). cbn [String.length string_forallb List.length].
      rewrite L, Ua, Ub, F. split; [lia | reflexivity]. }
  destruct K as (hs & -> & L & F). cbn [bind].
  exists (join hs). auto.
Qed.

Lemma rgb_to_hex_shape_witness :
  Forall (fun x => 0 <= x < 256)%Q [1; 2]%Q
  /\ exists body,
       rgb_to_hex [1; 2]%Q = Ok (String "#" body)
       /\ String.length body = (2 * List.length [1; 2]%Q)%nat
       /\ string_forallb is_hexdigit_upper body = true.
Proof.
  assert (H : Forall (fun x => 0 <= x < 256)%Q [1; 2]%Q).
  { repeat constructor; discriminate. }
  split; [exact H|]. exact (rgb_to_hex_shape _ H).
Defined.

(** X4.  A negative channel is not rejected: an integer channel [x]
    with [-16 < x < 0] is written with the digits of [x + 16], so the
    round trip returns [x + 16] in its place. *)
Theorem rgb_to_hex_negative_wraps (x g b : Z) :
  -16 < x < 0 -> 0 <= g <= 255 -> 0 <= b <= 255 ->
  exists h,
    rgb_to_hex [num x; num g; num b] = Ok h
    /\ is_HexColor h = true
    /\ hex_to_rgb h = Ok [x + 16; g; b].
Proof.
  intros Hx Hg Hb.
  assert (E : _colorval_to_hexval (num x) = _colorval_to_hexval (num (x + 16))).
  { assert (C : forallb (fun k =>
                   match _colorval_to_hexval (num (k - 15)),
                         _colorval_to_hexval (num (k - 15 + 16)) with
                   | Ok h, Ok h' => String.eqb h h'
                   | _, _ => false
                   end) (range 15) = true) by (vm_compute; reflexivity).
    pose proof (range_forallb _ 15 C (x + 15) ltac:(lia)) as Cx.
    cbv beta in Cx. replace (x + 15 - 15) with x in Cx by lia.
    destruct (_colorval_to_hexval (num x)) as [h|]; [|discriminate].
    destruct (_colorval_to_hexval (num (x + 16))) as [h'|]; [|discriminate].
    apply String.eqb_eq in Cx. now subst. }
  destruct (channel_roundtrip (x + 16) ltac:(lia)) as (r1 & r2 & Er & Dr & Ur1 & Ur2).
  destruct (channel_roundtrip g Hg) as (g1 & g2 & Eg & Dg & Ug1 & Ug2).
  destruct (channel_roundtrip b Hb) as (b1 & b2 & Eb & Db & Ub1 & Ub2).
  eexists. split; [|split].
  - unfold rgb_to_hex. cbn [comprehension]. rewrite E, Er, Eg, Eb. reflexivity.
  - unfold is_HexColor. cbn. rewrite Ur1, Ur2, Ug1, Ug2, Ub1, Ub2. reflexivity.
  - rewrite hex_to_rgb_unfold. cbn [Ascii.eqb Bool.eqb append join fold_right].
    unfold decode_body, str_slice.
    cbn [seq map Nat.mul Nat.add Nat.sub substring comprehension append].
    rewrite Dr, Dg, Db. reflexivity.
Qed.

Lemma rgb_to_hex_negative_wraps_witness :
  (-16 < -1 < 0 /\ 0 <= 0 <= 255 /\ 0 <= 0 <= 255)
  /\ exists h,
       rgb_to_hex [num (-1); num 0; num 0] = Ok h
       /\ is_HexColor h = true
       /\ hex_to_rgb h = Ok [-1 + 16; 0; 0].
Proof.
  split; [lia|]. apply (rgb_to_hex_negative_wraps (-1) 0 0); lia.
Defined.

(** ** More on the decoder: shape of the result, the optional [#],
       trailing characters and the kind of failure *)

Lemma decode_body_trailing (c1 c2 c3 c4 c5 c6 : ascii) (r : string) :
  decode_body (String c1 (String c2 (String c3 (String c4
                 (String c5 (String c6 r))))))
  = decode_body (String c1 (String c2 (String c3 (String c4
                   (String c5 (String c6 EmptyString)))))).
Proof.
  unfold decode_body, str_slice.
  cbn [seq map Nat.mul Nat.add Nat.sub substring].
  rewrite substring_0_0. reflexivity.
Qed.

Lemma decode_body_app (body t : string) :
  (6 <= String.length body)%nat -> decode_body (body ++ t) = decode_body body.
Proof.
  intros H.
  destruct body as [|c1 [|c2 [|c3 [|c4 [|c5 [|c6 r]]]]]];
    cbn [String.length] in H; try lia.
  cbn [append]. rewrite decode_body_trailing.
  symmetry. apply decode_body_trailing.
Qed.

(** The outcome of [decode_body], with the exception told apart. *)
Lemma decode_body_error (body : string) :
  match decode_body body with
  | Ok rgb =>
      string_forallb is_hexdigit_upper (substring 0 6 body) = true
      /\ (6 <=? String.length body)%nat = true
      /\ List.length rgb = 3%nat
  | Raise IndexError =>
      string_forallb is_hexdigit_upper (substring 0 6 body) = true
      /\ (6 <=? String.length body)%nat = false
  | Raise ValueError =>
      string_forallb is_hexdigit_upper (substring 0 6 body) = false
  | Raise ZeroDivisionError => False
  | Raise OverflowError => False
  end.
Proof.
  unfold decode_body, str_slice.
  destruct body as [|c1 [|c2 [|c3 [|c4 [|c5 [|c6 r]]]]]];
    cbn [seq map Nat.mul Nat.add Nat.sub substring comprehension];
    rewrite ?substring_0_0;
    rewrite ?hexval_to_colorval_cons2, ?hexval_to_colorval_cons1,
      ?hexval_to_colorval_nil;
    rewrite ?indhex_to_numeric_upper;
    cbn [String.length Nat.leb Nat.ltb andb string_forallb];
    repeat match goal with
      | |- context [is_hexdigit_upper ?c] => destruct (is_hexdigit_upper c)
      end;
    cbn [bind andb List.length]; auto.
Qed.

Lemma strip_hash_length (s : string) :
  (String.length (strip_hash s) <= String.length s)%nat.
Proof.
  destruct s as [|c r]; [cbn; lia|].
  rewrite strip_hash_cons. destruct (Ascii.eqb "#" c); cbn; lia.
Qed.

Lemma hex_to_rgb_strip (s : string) :
  hex_to_rgb s
  = match s with
    | EmptyString => Raise IndexError
    | _ => decode_body (strip_hash s)
    end.
Proof.
  rewrite hex_to_rgb_unfold. destruct s as [|c r]; [reflexivity|].
  now rewrite strip_hash_cons.
Qed.

(** X5.  Whatever the input string, when [hex_to_rgb] returns, the
    result has exactly three channels and each is an integer of
    [[0, 255]]. *)
Theorem hex_to_rgb_bytes (s : string) (rgb : list Z) :
  hex_to_rgb s = Ok rgb ->
  List.length rgb = 3%nat /\ Forall (fun v => 0 <= v <= 255) rgb.
Proof.
  rewrite hex_to_rgb_strip. destruct s as [|c0 s0]; [discriminate|].
  generalize (strip_hash (String c0 s0)). clear c0 s0. intros body D.
  pose proof (decode_body_error body) as O. rewrite D in O.
  destruct O as (F & L & Len). split; [exact Len|].
  destruct body as [|c1 [|c2 [|c3 [|c4 [|c5 [|c6 r]]]]]];
    cbn [String.length Nat.leb] in L; try discriminate L.
  rewrite decode_body_trailing in D.
  cbn [substring string_forallb] in F. rewrite substring_0_0 in F.
  cbn [string_forallb] in F.
  repeat match type of F with
         | (_ && _) = true => let X := fresh "U" in apply andb_prop in F as [X F]
         end.
  destruct (pair_roundtrip c1 c2) as (v1 & D1 & R1 & _); try assumption.
  destruct (pair_roundtrip c3 c4) as (v2 & D2 & R2 & _); try assumption.
  destruct (pair_roundtrip c5 c6) as (v3 & D3 & R3 & _); try assumption.
  unfold decode_body, str_slice in D.
  cbn [seq map Nat.mul Nat.add Nat.sub substring comprehension] in D.
  rewrite D1, D2, D3 in D. cbn [bind] in D. injection D as <-.
  repeat constructor; lia.
Qed.

Lemma hex_to_rgb_bytes_witness :
  hex_to_rgb "#EDF8FB00" = Ok [237; 248; 251]
  /\ List.length [237; 248; 251] = 3%nat
  /\ Forall (fun v => 0 <= v <= 255) [237; 248; 251].
Proof.
  split; [reflexivity|].
  exact (hex_to_rgb_bytes "#EDF8FB00" [237; 248; 251] eq_refl).
Defined.

(** X6.  The leading [#] is optional: a string that does not itself
    start with [#] decodes, or fails, the same with and without it. *)
Theorem hex_to_rgb_hash_optional (s : string) :
  String.prefix "#" s = false ->
  hex_to_rgb (String "#" s) = hex_to_rgb s.
Proof.
  intros H. rewrite (hex_to_rgb_unfold (String "#" s)).
  change (Ascii.eqb "#" "#") with true. cbv iota.
  rewrite (hex_to_rgb_unfold s).
  destruct s as [|c r]; [reflexivity|].
  replace (Ascii.eqb "#" c) with false; [reflexivity|].
  symmetry. cbn [String.prefix] in H.
  destruct (ascii_dec "#" c) as [E|E] in H.
  - destruct r; discriminate H.
  - now apply Ascii.eqb_neq.
Qed.

Lemma hex_to_rgb_hash_optional_witness :
  String.prefix "#" "EDF8FB" = false
  /\ hex_to_rgb (String "#" "EDF8FB") = hex_to_rgb "EDF8FB".
Proof.
  split; [reflexivity|]. exact (hex_to_rgb_hash_optional "EDF8FB" eq_refl).
Defined.

(** X7.  Once six characters follow the optional [#], nothing after
    them is looked at: appending any text changes neither the decoded
    colour nor the exception. *)
Theorem hex_to_rgb_ignores_tail (s t : string) :
  (6 <= String.length (strip_hash s))%nat ->
  hex_to_rgb (s ++ t) = hex_to_rgb s.
Proof.
  intros H. rewrite !hex_to_rgb_unfold.
  destruct s as [|c r]; [cbn in H; lia|].
  rewrite strip_hash_cons in H. cbn [append].
  destruct (Ascii.eqb "#" c).
  - now apply decode_body_app.
  - change (String c (r ++ t)) with (String c r ++ t).
    now apply decode_body_app.
Qed.

Lemma hex_to_rgb_ignores_tail_witness :
  (6 <= String.length (strip_hash "#EDF8FB"))%nat
  /\ hex_to_rgb ("#EDF8FB" ++ "00") = hex_to_rgb "#EDF8FB".
Proof.
  assert (H : (6 <= String.length (strip_hash "#EDF8FB"))%nat) by (cbn; lia).
  split; [exact H|]. exact (hex_to_rgb_ignores_tail "#EDF8FB" "00" H).
Defined.

(** X8.  The two failures of [hex_to_rgb] are told apart by the input:
    [ValueError] exactly when one of the (at most six) characters that
    are read is neither an uppercase letter [A]-[F] nor a character with
    a decimal value; [IndexError] exactly when all characters present are
    accepted but fewer than six follow the optional [#]. *)
Theorem hex_to_rgb_text_error_kind
  (decimal : Unicode.char -> option Z) (s : Unicode.text) :
  (Unicode.hex_to_rgb decimal s = Raise ValueError
   <-> forallb (text_accepted decimal) (firstn 6 (text_strip_hash s)) = false)
  /\ (Unicode.hex_to_rgb decimal s = Raise IndexError
      <-> forallb (text_accepted decimal) (firstn 6 (text_strip_hash s)) = true
          /\ (List.length (text_strip_hash s) < 6)%nat).
Proof.
  rewrite text_hex_to_rgb_strip.
  destruct s as [|c0 s0].
  - cbn. split; split; try discriminate; auto. intros _. split; [reflexivity|lia].
  - generalize (text_strip_hash (c0 :: s0)). clear c0 s0. intros body.
    pose proof (text_decode_body_outcome decimal body) as O.
    destruct (text_decode_body decimal body) as [rgb|[]].
    + destruct O as (F & L & _). apply Nat.leb_le in L. rewrite F.
      split; split; try discriminate. intros [_ C]. lia.
    + destruct O as (F & L). apply Nat.leb_gt in L. rewrite F.
      split; split; try discriminate; auto.
    + rewrite O. split; split; auto; try discriminate. intros [C _]. discriminate C.
    + contradiction.
    + contradiction.
Qed.

(** ** The two decoders on strings of one-byte characters *)

Lemma text_indhex_of_ascii (decimal : Unicode.char -> option Z) (c : ascii) :
  (forall n, (n < 256)%N -> decimal n = Unicode.latin1_decimal n) ->
  Unicode._indhex_to_numeric decimal (Unicode.of_ascii c)
  = _indhex_to_numeric c.
Proof.
  intros H. rewrite text_indhex_to_numeric.
  unfold Unicode.of_ascii. rewrite (H _ (N_ascii_bounded c)).
  ascii_cases c; reflexivity.
Qed.

Lemma text_strip_hash_of_string (s : string) :
  text_strip_hash (Unicode.of_string s) = Unicode.of_string (strip_hash s).
Proof.
  destruct s as [|c r]; [reflexivity|].
  ascii_cases c; reflexivity.
Qed.

Lemma text_decode_body_of_string
  (decimal : Unicode.char -> option Z) (body : string) :
  (forall n, (n < 256)%N -> decimal n = Unicode.latin1_decimal n) ->
  text_decode_body decimal (Unicode.of_string body) = decode_body body.
Proof.
  intros H. unfold text_decode_body, decode_body, Unicode.slice, str_slice.
  destruct body as [|c1 [|c2 [|c3 [|c4 [|c5 [|c6 r]]]]]];
    cbn [Unicode.of_string list_ascii_of_string map seq Nat.mul Nat.add
           Nat.sub skipn firstn substring comprehension];
    rewrite ?substring_0_0;
    rewrite ?text_hexval_cons2, ?text_hexval_cons1, ?text_hexval_nil,
      ?hexval_to_colorval_cons2, ?hexval_to_colorval_cons1,
      ?hexval_to_colorval_nil;
    rewrite ?(text_indhex_of_ascii decimal _ H); reflexivity.
Qed.

(** Where the character database agrees with [0]-[9] on the first 256
    code points, the decoder on text is the decoder on byte strings. *)
Lemma hex_to_rgb_text_of_string
  (decimal : Unicode.char -> option Z) (s : string) :
  (forall n, (n < 256)%N -> decimal n = Unicode.latin1_decimal n) ->
  Unicode.hex_to_rgb decimal (Unicode.of_string s) = hex_to_rgb s.
Proof.
  intros H. rewrite text_hex_to_rgb_strip, hex_to_rgb_strip.
  rewrite text_strip_hash_of_string, (text_decode_body_of_string decimal _ H).
  destruct s; reflexivity.
Qed.

Lemma hexcolor_decode_encode (h : string) :
  is_HexColor h = true ->
  exists r g b,
    hex_to_rgb h = Ok [r; g; b]
    /\ rgb_to_hex [num r; num g; num b] = Ok h.
Proof.
  intros Hup.
  apply hexcolor_with_inv in Hup
    as (c1 & c2 & c3 & c4 & c5 & c6 & -> & U1 & U2 & U3 & U4 & U5 & U6).
  destruct (pair_roundtrip c1 c2 U1 U2) as (r & Dr & _ & Er).
  destruct (pair_roundtrip c3 c4 U3 U4) as (g & Dg & _ & Eg).
  destruct (pair_roundtrip c5 c6 U5 U6) as (b & Db & _ & Eb).
  exists r, g, b. split.
  - rewrite hex_to_rgb_unfold. change (Ascii.eqb "#" "#") with true. cbv iota.
    unfold decode_body, str_slice.
    cbn [seq map Nat.mul Nat.add Nat.sub substring comprehension].
    rewrite Dr, Dg, Db. reflexivity.
  - unfold rgb_to_hex. cbn [comprehension]. rewrite Er, Eg, Eb. reflexivity.
Qed.

Lemma bytes_encode_decode (r g b : Z) :
  0 <= r <= 255 -> 0 <= g <= 255 -> 0 <= b <= 255 ->
  exists h,
    rgb_to_hex [num r; num g; num b] = Ok h /\ hex_to_rgb h = Ok [r; g; b].
Proof.
  intros Hr Hg Hb.
  destruct (channel_roundtrip r Hr) as (r1 & r2 & Er & Dr & _).
  destruct (channel_roundtrip g Hg) as (g1 & g2 & Eg & Dg & _).
  destruct (channel_roundtrip b Hb) as (b1 & b2 & Eb & Db & _).
  eexists. split.
  - unfold rgb_to_hex. cbn [comprehension]. rewrite Er, Eg, Eb. reflexivity.
  - rewrite hex_to_rgb_unfold. cbn [append join fold_right].
    change (Ascii.eqb "#" "#") with true. cbv iota.
    unfold decode_body, str_slice.
    cbn [seq map Nat.mul Nat.add Nat.sub substring comprehension].
    rewrite Dr, Dg, Db. reflexivity.
Qed.

(** X9.  The codec confuses no two colours: two HexColors (digits
    [0]-[9], [A]-[F]) that decode to the same channels are the same
    string, and two triples of integers of [[0, 255]] that encode to the
    same string are the same triple. *)
Theorem codec_injective :
  (forall h h' : string,
      is_HexColor h = true -> is_HexColor h' = true ->
      hex_to_rgb h = hex_to_rgb h' -> h = h')
  /\ (forall r g b r' g' b' : Z,
         0 <= r <= 255 -> 0 <= g <= 255 -> 0 <= b <= 255 ->
         0 <= r' <= 255 -> 0 <= g' <= 255 -> 0 <= b' <= 255 ->
         rgb_to_hex [num r; num g; num b] = rgb_to_hex [num r'; num g'; num b'] ->
         [r; g; b] = [r'; g'; b']).
Proof.
  split.
  - intros h h' U U' E.
    destruct (hexcolor_decode_encode h U) as (r & g & b & D & En).
    destruct (hexcolor_decode_encode h' U') as (r' & g' & b' & D' & En').
    rewrite D, D' in E. injection E as -> -> ->. congruence.
  - intros r g b r' g' b' Hr Hg Hb Hr' Hg' Hb' E.
    destruct (bytes_encode_decode r g b Hr Hg Hb) as (h & En & D).
    destruct (bytes_encode_decode r' g' b' Hr' Hg' Hb') as (h' & En' & D').
    rewrite En, En' in E. injection E as ->. congruence.
Qed.

(** ** Edge cases of the gradient *)

Lemma range_nonpos (n : Z) : n <= 0 -> range n = [].
Proof.
  intros H. unfold range. replace (Z.to_nat n) with 0%nat by lia. reflexivity.
Qed.

Lemma range_pos (n : Z) :
  0 < n -> range n = 0 :: map Z.of_nat (seq 1 (Z.to_nat n - 1)).
Proof.
  intros H. unfold range.
  replace (Z.to_nat n) with (S (Z.to_nat n - 1)) at 1 by lia. reflexivity.
Qed.

(** X10.  Asking for no colours (or a negative number) is not an error:
    with well-formed control points, however many, the result is the
    empty list. *)
Theorem linear_gradient_nonpositive (rgbList : list (list Q)) (nColors : Z) :
  Forall is_rgb rgbList -> nColors <= 0 ->
  linear_gradient rgbList nColors = Ok [].
Proof.
  intros Hrgb Hn. unfold linear_gradient.
  rewrite all_colors_dense by assumption. cbn [bind].
  unfold pick_colors. now rewrite range_nonpos.
Qed.

Lemma linear_gradient_nonpositive_witness :
  (Forall is_rgb [[0; 0; 0]; [255; 0; 0]]%Q /\ -3 <= 0)
  /\ linear_gradient [[0; 0; 0]; [255; 0; 0]]%Q (-3) = Ok [].
Proof.
  assert (H : Forall is_rgb [[0; 0; 0]; [255; 0; 0]]%Q) by (repeat constructor).
  split; [split; [exact H | lia]|].
  apply linear_gradient_nonpositive; [exact H | lia].
Defined.

(** X11.  Asking for exactly one colour divides by [nColors - 1 = 0]:
    with well-formed control points, however many, [linear_gradient]
    raises [ZeroDivisionError]. *)
Theorem linear_gradient_single (rgbList : list (list Q)) :
  Forall is_rgb rgbList ->
  linear_gradient rgbList 1 = Raise ZeroDivisionError.
Proof.
  intros Hrgb. unfold linear_gradient.
  rewrite all_colors_dense by assumption. reflexivity.
Qed.

Lemma linear_gradient_single_witness :
  Forall is_rgb [[0; 0; 0]; [255; 0; 0]]%Q
  /\ linear_gradient [[0; 0; 0]; [255; 0; 0]]%Q 1 = Raise ZeroDivisionError.
Proof.
  assert (H : Forall is_rgb [[0; 0; 0]; [255; 0; 0]]%Q) by (repeat constructor).
  split; [exact H|]. exact (linear_gradient_single _ H).
Defined.

(** X12.  With fewer than two control points there is nothing to
    interpolate: for [nColors >= 2] the first pick indexes the empty list
    and [linear_gradient] raises [IndexError]. *)
Theorem linear_gradient_too_few_points (rgbList : list (list Q)) (nColors : Z) :
  (List.length rgbList <= 1)%nat -> 2 <= nColors ->
  linear_gradient rgbList nColors = Raise IndexError.
Proof.
  intros Hl Hn. unfold linear_gradient.
  assert (E : pairs rgbList = []).
  { destruct rgbList as [|p [|q l]]; [reflexivity | reflexivity |].
    cbn [List.length] in Hl. lia. }
  rewrite E. cbn [for_each bind]. unfold pick_colors.
  rewrite range_pos by lia. cbn [for_each].
  unfold truediv. rewrite num_eq_0.
  destruct (Z.eqb_spec (nColors - 1) 0) as [C|_]; [lia|].
  cbn [bind].
  replace (int (num 0 / num (nColors - 1) * num (len (@nil (list Q)) - 1)))
    with 0; [reflexivity|].
  symmetry. apply int_Qeq; [lia|].
  unfold num at 1. cbn [inject_Z]. unfold Qdiv. rewrite !Qmult_0_l. reflexivity.
Qed.

Lemma linear_gradient_too_few_points_witness :
  ((List.length [[0; 0; 0]]%Q <= 1)%nat /\ 2 <= 5)
  /\ linear_gradient [[0; 0; 0]]%Q 5 = Raise IndexError.
Proof.
  split; [cbn; lia|]. apply linear_gradient_too_few_points; [cbn; lia | lia].
Defined.

Lemma interpolate_pair_long (start end_ : list Q) (acc : list (list Q)) :
  (3 <= List.length start)%nat -> (3 <= List.length end_)%nat ->
  interpolate_pair start end_ acc = Ok (acc ++ segment (start, end_))%list.
Proof.
  intros Hs He. unfold interpolate_pair, segment.
  apply for_each_append. intros index acc' _.
  destruct start as [|s0 [|s1 [|s2 ?]]]; cbn [List.length] in Hs; try lia.
  destruct end_ as [|e0 [|e1 [|e2 ?]]]; cbn [List.length] in He; try lia.
  reflexivity.
Qed.

Lemma interpolate_pair_short (start end_ : list Q) (acc : list (list Q)) :
  (List.length start < 3)%nat \/ (List.length end_ < 3)%nat ->
  interpolate_pair start end_ acc = Raise IndexError.
Proof.
  intros H. unfold interpolate_pair.
  rewrite range_pos by reflexivity. cbn [for_each].
  destruct start as [|s0 [|s1 [|s2 ?]]];
    destruct end_ as [|e0 [|e1 [|e2 ?]]];
    try reflexivity.
  cbn [List.length] in H. lia.
Qed.

(** X13.  A control point with fewer than three channels makes the first
    loop fail, whatever [nColors] is (even when no colour is asked for):
    with two or more control points, one of which is too short,
    [linear_gradient] raises [IndexError]. *)
Theorem linear_gradient_short_point (rgbList : list (list Q)) (nColors : Z) :
  (2 <= List.length rgbList)%nat ->
  Exists (fun p => (List.length p < 3)%nat) rgbList ->
  linear_gradient rgbList nColors = Raise IndexError.
Proof.
  intros Hl Hbad. unfold linear_gradient.
  assert (K : forall acc,
             for_each (pairs rgbList)
               (fun '(start, end_) allColors =>
                  interpolate_pair start end_ allColors) acc
             = Raise IndexError); [|now rewrite K].
  revert Hl Hbad.
  induction rgbList as [|a [|b l] IH]; intros Hl Hbad acc;
    cbn [List.length] in Hl; try lia.
  rewrite pairs_cons2. cbn [for_each].
  destruct (Nat.lt_ge_cases (List.length a) 3) as [Ha|Ha];
    [now rewrite interpolate_pair_short by (left; assumption)|].
  destruct (Nat.lt_ge_cases (List.length b) 3) as [Hb|Hb];
    [now rewrite interpolate_pair_short by (right; assumption)|].
  rewrite interpolate_pair_long by assumption. cbn [bind].
  assert (Hbad' : Exists (fun p => (List.length p < 3)%nat) (b :: l)).
  { inversion Hbad; subst; [lia | assumption]. }
  apply IH; [|assumption].
  destruct l as [|c l]; [|cbn [List.length]; lia].
  inversion Hbad' as [? ? C|? ? C]; subst; [lia | inversion C].
Qed.

Lemma linear_gradient_short_point_witness :
  ((2 <= List.length [[0; 0; 0]; [255; 0]]%Q)%nat
   /\ Exists (fun p => (List.length p < 3)%nat) [[0; 0; 0]; [255; 0]]%Q)
  /\ linear_gradient [[0; 0; 0]; [255; 0]]%Q 0 = Raise IndexError.
Proof.
  assert (H : Exists (fun p => (List.length p < 3)%nat) [[0; 0; 0]; [255; 0]]%Q).
  { apply Exists_cons_tl, Exists_cons_hd. cbn. lia. }
  split; [split; [cbn; lia | exact H]|].
  apply linear_gradient_short_point; [cbn; lia | exact H].
Defined.

(** ** Where the colours of the gradient come from *)

Lemma linear_gradient_In_dense (rgbList : list (list Q)) (nColors : Z) :
  (2 <= List.length rgbList)%nat -> Forall is_rgb rgbList -> 2 <= nColors ->
  exists result,
    linear_gradient rgbList nColors = Ok result
    /\ Forall (fun c => In c (dense rgbList)) result.
Proof.
  intros Hl Hrgb Hn. rewrite linear_gradient_map by assumption.
  eexists. split; [reflexivity|].
  apply Forall_map, Forall_forall. intros k Hk. apply range_In in Hk.
  assert (Ht : 1 <= len (dense rgbList)).
  { unfold len. rewrite dense_length. lia. }
  pose proof (pick_index_range (len (dense rgbList)) nColors k Ht Hn Hk) as R.
  apply nth_In. unfold len in *. lia.
Qed.

(** X14.  Every colour of the gradient is a point of the polyline
    through the control points: it lies on the segment between two
    consecutive control points [p] and [q], at one parameter [t] of
    [[0, 1]] for its three channels. *)
Theorem linear_gradient_on_polyline (rgbList : list (list Q)) (nColors : Z) :
  (2 <= List.length rgbList)%nat -> Forall is_rgb rgbList -> 2 <= nColors ->
  exists result,
    linear_gradient rgbList nColors = Ok result
    /\ Forall
         (fun c =>
            exists p0 p1 p2 q0 q1 q2 t,
              In ([p0; p1; p2], [q0; q1; q2]) (pairs rgbList)
              /\ (0 <= t <= 1)%Q
              /\ c = [p0 + t * (q0 - p0); p1 + t * (q1 - p1);
                      p2 + t * (q2 - p2)]%Q)
         result.
Proof.
  intros Hl Hrgb Hn.
  destruct (linear_gradient_In_dense rgbList nColors Hl Hrgb Hn)
    as (result & E & Hin).
  exists result. split; [exact E|].
  eapply Forall_impl; [|exact Hin]. cbv beta. intros c Hc.
  unfold dense in Hc. apply in_flat_map in Hc as ([p q] & Hpq & Hc).
  unfold segment in Hc. cbn [fst snd] in Hc.
  apply in_map_iff in Hc as (i & <- & Hi). apply range_In in Hi.
  destruct (pairs_In rgbList p q Hpq) as [Hp Hq].
  rewrite Forall_forall in Hrgb.
  pose proof (Hrgb p Hp) as Lp. pose proof (Hrgb q Hq) as Lq.
  destruct p as [|p0 [|p1 [|p2 [|]]]]; try discriminate Lp.
  destruct q as [|q0 [|q1 [|q2 [|]]]]; try discriminate Lq.
  exists p0, p1, p2, q0, q1, q2, (num i / num (nInterpolate - 1))%Q.
  split; [exact Hpq|]. split; [|reflexivity].
  unfold nInterpolate in *. split.
  - apply Qle_shift_div_l; [reflexivity|]. rewrite Qmult_0_l.
    apply (num_le 0). lia.
  - apply Qle_shift_div_r; [reflexivity|]. rewrite Qmult_1_l.
    apply num_le. lia.
Qed.

Lemma linear_gradient_on_polyline_witness :
  ((2 <= List.length [[0; 0; 0]; [255; 0; 0]]%Q)%nat
   /\ Forall is_rgb [[0; 0; 0]; [255; 0; 0]]%Q /\ 2 <= 4)
  /\ exists result,
       linear_gradient [[0; 0; 0]; [255; 0; 0]]%Q 4 = Ok result
       /\ Forall
            (fun c =>
               exists p0 p1 p2 q0 q1 q2 t,
                 In ([p0; p1; p2], [q0; q1; q2])
                   (pairs [[0; 0; 0]; [255; 0; 0]]%Q)
                 /\ (0 <= t <= 1)%Q
                 /\ c = [p0 + t * (q0 - p0); p1 + t * (q1 - p1);
                         p2 + t * (q2 - p2)]%Q)
            result.
Proof.
  assert (H : Forall is_rgb [[0; 0; 0]; [255; 0; 0]]%Q) by (repeat constructor).
  split; [split; [cbn; lia | split; [exact H | lia]]|].
  apply linear_gradient_on_polyline; [cbn; lia | exact H | lia].
Defined.

(** The oversampled list, position by position. *)
Lemma dense_nth (rgbList : list (list Q)) (j i : nat) :
  (S j < List.length rgbList)%nat -> (i < 765)%nat ->
  nth (765 * j + i) (dense rgbList) []
  = sample (nth j rgbList []) (nth (S j) rgbList []) (Z.of_nat i).
Proof.
  revert j. induction rgbList as [|a [|b l] IH]; intros j Hj Hi;
    cbn [List.length] in Hj; try lia.
  rewrite dense_cons2. destruct j as [|j].
  - rewrite Nat.mul_0_r, Nat.add_0_l.
    rewrite app_nth1 by (rewrite segment_length; exact Hi).
    unfold segment. cbn [fst snd nth].
    apply map_range_nth. exact Hi.
  - rewrite app_nth2 by (rewrite segment_length; lia).
    rewrite segment_length.
    replace (765 * S j + i - 765)%nat with (765 * j + i)%nat by lia.
    change (nth (S j) (a :: b :: l) []) with (nth j (b :: l) []).
    change (nth (S (S j)) (a :: b :: l) []) with (nth (S j) (b :: l) []).
    apply IH; [cbn [List.length]; lia | exact Hi].
Qed.

(** The position picked for [counter] when as many colours are asked for
    as there are control points. *)
Lemma pick_index_same_count (m k : Z) :
  2 <= m -> 1 <= k < m ->
  pick_index (765 * (m - 1)) m k = 765 * k - 1.
Proof.
  intros Hm Hk. unfold pick_index.
  assert (Hd : (0 < num (m - 1))%Q) by (apply (num_lt 0); lia).
  assert (Hk0 : (0 < num k)%Q) by (apply (num_lt 0); lia).
  assert (Hk1 : (num k <= num (m - 1))%Q) by (apply num_le; lia).
  set (t := (num k / num (m - 1))%Q).
  assert (Ht : (0 < t <= 1)%Q).
  { unfold t. split.
    - apply Qlt_shift_div_l; [assumption|]. now rewrite Qmult_0_l.
    - apply Qle_shift_div_r; [assumption|]. now rewrite Qmult_1_l. }
  assert (E : (t * num (765 * (m - 1) - 1) == num (765 * k) - t)%Q).
  { unfold t, num, Zminus.
    rewrite !inject_Z_plus, !inject_Z_mult, !inject_Z_plus, !inject_Z_opp.
    fold (num k) (num m). cbn [inject_Z Z.opp].
    field. intros C.
    assert (C' : (num (m - 1) == 0)%Q).
    { unfold num, Zminus. rewrite inject_Z_plus. exact C. }
    rewrite C' in Hd. now apply Qlt_irrefl in Hd. }
  clearbody t. rewrite int_nonneg.
  - apply Qfloor_unique.
    + rewrite E. unfold Zminus. rewrite inject_Z_plus. fold (num (765 * k)).
      change (inject_Z (- (1))) with (- (1))%Q. lra.
    + rewrite E. replace (765 * k - 1 + 1) with (765 * k) by lia.
      fold (num (765 * k)). lra.
  - rewrite E.
    assert (L : (1 <= num (765 * k))%Q) by (apply (num_le 1); lia).
    lra.
Qed.

Lemma nth_is_rgb (rgbList : list (list Q)) (j : nat) :
  Forall is_rgb rgbList -> (j < List.length rgbList)%nat ->
  is_rgb (nth j rgbList []).
Proof.
  intros H Hj. rewrite Forall_forall in H. apply H. now apply nth_In.
Qed.

(** The colour picked for [k] when as many colours are asked for as there
    are control points is the control point [k]. *)
Lemma pick_same_count (rgbList : list (list Q)) (k : Z) :
  (2 <= List.length rgbList)%nat -> Forall is_rgb rgbList ->
  0 <= k < len rgbList ->
  color_eq
    (nth (Z.to_nat (pick_index (len (dense rgbList)) (len rgbList) k))
       (dense rgbList) [])
    (nth (Z.to_nat k) rgbList []).
Proof.
  intros Hl Hrgb Hk.
  replace (len (dense rgbList)) with (765 * (len rgbList - 1))
    by (unfold len; rewrite dense_length; lia).
  destruct (Z.eq_dec k 0) as [->|Hk0].
  - rewrite pick_index_first by (unfold len; lia).
    change (Z.to_nat 0) with (765 * 0 + 0)%nat.
    rewrite dense_nth by lia.
    apply sample_start. apply nth_is_rgb; [assumption | lia].
  - rewrite pick_index_same_count by (unfold len in *; lia).
    replace (Z.to_nat (765 * k - 1))
      with (765 * (Z.to_nat k - 1) + 764)%nat by lia.
    rewrite dense_nth by (unfold len in *; lia).
    replace (S (Z.to_nat k - 1)) with (Z.to_nat k) by lia.
    apply sample_end. apply nth_is_rgb; [assumption | unfold len in *; lia].
Qed.

(** The two ends of the gradient, whatever the count. *)
Lemma pick_ends (rgbList : list (list Q)) (nColors : Z) :
  (2 <= List.length rgbList)%nat -> Forall is_rgb rgbList -> 2 <= nColors ->
  color_eq
    (nth (Z.to_nat (pick_index (len (dense rgbList)) nColors 0))
       (dense rgbList) [])
    (nth 0 rgbList [])
  /\ color_eq
       (nth (Z.to_nat (pick_index (len (dense rgbList)) nColors (nColors - 1)))
          (dense rgbList) [])
       (nth (List.length rgbList - 1) rgbList []).
Proof.
  intros Hl Hrgb Hn. split.
  - rewrite pick_index_first by assumption.
    change (Z.to_nat 0) with (765 * 0 + 0)%nat.
    rewrite dense_nth by lia.
    apply sample_start. apply nth_is_rgb; [assumption | lia].
  - rewrite pick_index_last;
      [| unfold len; rewrite dense_length; lia | assumption].
    replace (Z.to_nat (len (dense rgbList) - 1))
      with (765 * (List.length rgbList - 2) + 764)%nat
      by (unfold len; rewrite dense_length; lia).
    rewrite dense_nth by lia.
    replace (S (List.length rgbList - 2)) with (List.length rgbList - 1)%nat by lia.
    apply sample_end. apply nth_is_rgb; [assumption | lia].
Qed.

(** X15.  Asking for as many colours as there are control points
    returns the control points: the colour at every index equals, channel
    by channel in exact arithmetic, the control point at that index. *)
Theorem linear_gradient_same_count (rgbList : list (list Q)) (k : Z) :
  (2 <= List.length rgbList)%nat -> Forall is_rgb rgbList ->
  0 <= k < len rgbList ->
  exists result c p,
    linear_gradient rgbList (len rgbList) = Ok result
    /\ len result = len rgbList
    /\ getitem result k = Ok c
    /\ getitem rgbList k = Ok p
    /\ color_eq c p.
Proof.
  intros Hl Hrgb Hk.
  assert (Hm : 2 <= len rgbList) by (unfold len; lia).
  rewrite linear_gradient_map by assumption.
  set (pick := fun counter : Z => _).
  assert (Hlen : len (map pick (range (len rgbList))) = len rgbList).
  { unfold len. rewrite length_map, range_length. lia. }
  exists (map pick (range (len rgbList))), (pick k), (nth (Z.to_nat k) rgbList []).
  split; [reflexivity|]. split; [exact Hlen|].
  split; [|split].
  - rewrite (getitem_nth _ _ []) by lia.
    rewrite map_range_nth by (unfold len in *; lia).
    f_equal. f_equal. lia.
  - apply getitem_nth. exact Hk.
  - unfold pick. now apply pick_same_count.
Qed.

Lemma linear_gradient_same_count_witness :
  ((2 <= List.length [[0; 0; 0]; [255; 0; 0]; [255; 255; 0]]%Q)%nat
   /\ Forall is_rgb [[0; 0; 0]; [255; 0; 0]; [255; 255; 0]]%Q
   /\ 0 <= 1 < len [[0; 0; 0]; [255; 0; 0]; [255; 255; 0]]%Q)
  /\ exists result c p,
       linear_gradient [[0; 0; 0]; [255; 0; 0]; [255; 255; 0]]%Q
         (len [[0; 0; 0]; [255; 0; 0]; [255; 255; 0]]%Q) = Ok result
       /\ len result = len [[0; 0; 0]; [255; 0; 0]; [255; 255; 0]]%Q
       /\ getitem result 1 = Ok c
       /\ getitem [[0; 0; 0]; [255; 0; 0]; [255; 255; 0]]%Q 1 = Ok p
       /\ color_eq c p.
Proof.
  assert (H : Forall is_rgb [[0; 0; 0]; [255; 0; 0]; [255; 255; 0]]%Q)
    by (repeat constructor).
  split; [split; [cbn; lia | split; [exact H | cbn; lia]]|].
  apply linear_gradient_same_count; [cbn; lia | exact H | cbn; lia].
Defined.

Lemma pick_index_monotone (total nColors k k' : Z) :
  1 <= total -> 2 <= nColors -> 0 <= k <= k' ->
  pick_index total nColors k <= pick_index total nColors k'.
Proof.
  intros Ht Hn Hk. unfold pick_index.
  assert (Hd : (0 < num (nColors - 1))%Q) by (apply (num_lt 0); lia).
  assert (Hm : (0 <= num (total - 1))%Q) by (apply (num_le 0); lia).
  assert (H0 : (0 <= num k / num (nColors - 1))%Q).
  { apply Qle_shift_div_l; [assumption|]. rewrite Qmult_0_l.
    apply (num_le 0). lia. }
  assert (H1 : (num k / num (nColors - 1) <= num k' / num (nColors - 1))%Q).
  { unfold Qdiv. apply Qmult_le_compat_r; [apply num_le; lia|].
    apply Qlt_le_weak, Qinv_lt_0_compat. assumption. }
  rewrite !int_nonneg.
  - apply Qfloor_resp_le. apply Qmult_le_compat_r; assumption.
  - apply Qmult_le_0_compat; [|assumption]. eapply Qle_trans; eassumption.
  - apply Qmult_le_0_compat; assumption.
Qed.

(** X16.  The colours come out in the order of the polyline: the first
    loop builds the oversampled list [dense rgbList], and the colour at
    index [k] of the result is the entry of that list at a position that
    starts at [0], never decreases with [k], and ends at the last
    entry. *)
Theorem linear_gradient_in_order (rgbList : list (list Q)) (nColors : Z) :
  (2 <= List.length rgbList)%nat -> Forall is_rgb rgbList -> 2 <= nColors ->
  exists result position,
    for_each (pairs rgbList)
      (fun '(start, end_) allColors => interpolate_pair start end_ allColors) []
    = Ok (dense rgbList)
    /\ linear_gradient rgbList nColors = Ok result
    /\ (forall k, 0 <= k < nColors ->
          0 <= position k < len (dense rgbList)
          /\ getitem result k = getitem (dense rgbList) (position k))
    /\ (forall k k', 0 <= k <= k' -> k' < nColors -> position k <= position k')
    /\ position 0 = 0
    /\ position (nColors - 1) = len (dense rgbList) - 1.
Proof.
  intros Hl Hrgb Hn.
  assert (Ht : 1 <= len (dense rgbList)).
  { unfold len. rewrite dense_length. lia. }
  rewrite linear_gradient_map by assumption.
  set (pick := fun counter : Z => _).
  exists (map pick (range nColors)), (pick_index (len (dense rgbList)) nColors).
  split; [now apply all_colors_dense|]. split; [reflexivity|].
  split; [|split; [|split]].
  - intros k Hk.
    pose proof (pick_index_range (len (dense rgbList)) nColors k Ht Hn Hk) as R.
    split; [lia|].
    rewrite (getitem_nth _ k [])
      by (unfold len; rewrite length_map, range_length; lia).
    rewrite map_range_nth by lia.
    rewrite (getitem_nth (dense rgbList) _ []) by lia.
    unfold pick. do 4 f_equal. lia.
  - intros k k' Hk _. now apply pick_index_monotone.
  - now apply pick_index_first.
  - now apply pick_index_last.
Qed.

Lemma linear_gradient_in_order_witness :
  ((2 <= List.length [[0; 0; 0]; [255; 0; 0]]%Q)%nat
   /\ Forall is_rgb [[0; 0; 0]; [255; 0; 0]]%Q /\ 2 <= 4)
  /\ exists result position,
       for_each (pairs [[0; 0; 0]; [255; 0; 0]]%Q)
         (fun '(start, end_) allColors =>
            interpolate_pair start end_ allColors) []
       = Ok (dense [[0; 0; 0]; [255; 0; 0]]%Q)
       /\ linear_gradient [[0; 0; 0]; [255; 0; 0]]%Q 4 = Ok result
       /\ (forall k, 0 <= k < 4 ->
             0 <= position k < len (dense [[0; 0; 0]; [255; 0; 0]]%Q)
             /\ getitem result k
                = getitem (dense [[0; 0; 0]; [255; 0; 0]]%Q) (position k))
       /\ (forall k k', 0 <= k <= k' -> k' < 4 -> position k <= position k')
       /\ position 0 = 0
       /\ position (4 - 1) = len (dense [[0; 0; 0]; [255; 0; 0]]%Q) - 1.
Proof.
  assert (H : Forall is_rgb [[0; 0; 0]; [255; 0; 0]]%Q) by (repeat constructor).
  split; [split; [cbn; lia | split; [exact H | lia]]|].
  apply linear_gradient_in_order; [cbn; lia | exact H | lia].
Defined.

(** ** More on the schemes: unknown names, length, end points and the
       seven-colour scheme *)

Lemma colorval_to_hexval_Qeq (x y : Q) :
  (x == y)%Q -> (0 <= y)%Q -> _colorval_to_hexval x = _colorval_to_hexval y.
Proof.
  intros E Hy.
  rewrite (colorval_to_hexval_floor x) by (rewrite E; exact Hy).
  rewrite (colorval_to_hexval_floor y) by exact Hy.
  now rewrite (Qfloor_comp _ _ E).
Qed.

Lemma rgb_to_hex_Qeq (c p : list Q) :
  color_eq c p -> Forall (fun y => 0 <= y)%Q p -> rgb_to_hex c = rgb_to_hex p.
Proof.
  intros E Hp. unfold rgb_to_hex. f_equal.
  induction E as [|x y c p Exy E IH]; [reflexivity|].
  inversion Hp as [|? ? Hy Hp']; subst. cbn [comprehension].
  rewrite (colorval_to_hexval_Qeq x y Exy Hy), (IH Hp'). reflexivity.
Qed.

Lemma comprehension_nth {A B : Type} (f : A -> result B) (l : list A)
  (ys : list B) (d : A) (d' : B) :
  comprehension f l = Ok ys ->
  List.length ys = List.length l
  /\ forall k, (k < List.length l)%nat -> f (nth k l d) = Ok (nth k ys d').
Proof.
  revert ys. induction l as [|x l IH]; intros ys H; cbn [comprehension] in H.
  - injection H as <-. split; [reflexivity|]. intros k Hk. cbn in Hk. lia.
  - destruct (f x) as [y|] eqn:Fx; [|discriminate H]. cbn [bind] in H.
    destruct (comprehension f l) as [ys'|]; [|discriminate H].
    cbn [bind] in H. injection H as <-.
    destruct (IH ys' eq_refl) as [L N]. split; [cbn; lia|].
    intros [|k] Hk; [exact Fx|]. cbn [nth]. apply N. cbn in Hk. lia.
Qed.

Lemma schemes_hexcolors (name : string) (hex_codes : list string) :
  dict_get schemes name = Some hex_codes ->
  List.length hex_codes = 7%nat
  /\ Forall (fun h => is_HexColor h = true) hex_codes.
Proof.
  intros G. apply dict_get_In in G.
  assert (C : forallb (fun kv => (List.length (snd kv) =? 7)%nat
                                 && forallb is_HexColor (snd kv)) schemes = true)
    by (vm_compute; reflexivity).
  rewrite forallb_forall in C. specialize (C _ G). cbn [snd] in C.
  apply andb_prop in C as [L F]. apply Nat.eqb_eq in L.
  split; [exact L|]. apply Forall_forall. rewrite forallb_forall in F. exact F.
Qed.

(** The interpolating branch, colour by colour: the colour at index [k]
    is the encoding of the entry that the second loop picks. *)
Lemma color_brewer_many_nth (name : string) (n : Z) (hex_codes : list string) :
  dict_get schemes name = Some hex_codes -> 6 < n <= maximum_n ->
  exists rgbs color_scheme,
    comprehension hex_to_rgb hex_codes = Ok rgbs
    /\ List.length rgbs = 7%nat
    /\ Forall is_rgb (map (map num) rgbs)
    /\ Forall (Forall in_byte_range) (map (map num) rgbs)
    /\ color_brewer name n = Ok (Some color_scheme)
    /\ len color_scheme = n
    /\ forall k, 0 <= k < n ->
         rgb_to_hex
           (nth (Z.to_nat (pick_index (len (dense (map (map num) rgbs))) n k))
              (dense (map (map num) rgbs)) [])
         = Ok (nth (Z.to_nat k) color_scheme "").
Proof.
  intros Hget Hn. rewrite color_brewer_many, Hget by assumption.
  destruct (schemes_palette name hex_codes Hget) as (rgbs & E & L & Hrgb & Hb).
  exists rgbs. rewrite E. cbn [bind].
  assert (Hl : (2 <= List.length (map (map num) rgbs))%nat)
    by (rewrite length_map; lia).
  rewrite linear_gradient_map by (assumption || lia).
  cbn [bind]. set (pick := fun counter : Z => _).
  destruct (comprehension rgb_to_hex (map pick (range n)))
    as [color_scheme|e] eqn:C.
  - exists color_scheme. cbn [bind].
    destruct (comprehension_nth rgb_to_hex _ color_scheme [] "" C) as [Lc N].
    rewrite length_map, range_length in Lc.
    repeat split; try assumption; [unfold len; lia|].
    intros k Hk.
    specialize (N (Z.to_nat k)).
    rewrite length_map, range_length in N.
    rewrite map_range_nth in N by lia.
    rewrite <- N by lia. unfold pick. do 4 f_equal. lia.
  - exfalso.
    destruct (color_brewer_interpolated name n hex_codes Hget Hn)
      as (cs & Ecs & _).
    rewrite color_brewer_many, Hget, E in Ecs by assumption.
    cbn [bind] in Ecs.
    rewrite linear_gradient_map in Ecs by (assumption || lia).
    cbn [bind] in Ecs. fold pick in Ecs. rewrite C in Ecs. discriminate Ecs.
Qed.

Lemma decoded_encodes_back (hex_codes : list string) (rgbs : list (list Z))
  (k : nat) :
  Forall (fun h => is_HexColor h = true) hex_codes ->
  comprehension hex_to_rgb hex_codes = Ok rgbs ->
  (k < List.length hex_codes)%nat ->
  rgb_to_hex (nth k (map (map num) rgbs) []) = Ok (nth k hex_codes "").
Proof.
  intros Hc E Hk.
  destruct (comprehension_nth hex_to_rgb hex_codes rgbs "" [] E) as [L N].
  specialize (N k Hk).
  rewrite Forall_forall in Hc.
  destruct (hexcolor_decode_encode (nth k hex_codes "")) as (r & g & b & D & En);
    [apply Hc; now apply nth_In|].
  rewrite D in N. injection N as N.
  change (@nil Q) with (map num []). rewrite map_nth, <- N. exact En.
Qed.

Lemma nth_nonneg (rgbs : list (list Q)) (k : nat) :
  Forall (Forall in_byte_range) rgbs ->
  Forall (fun y => 0 <= y)%Q (nth k rgbs []).
Proof.
  intros H. destruct (Nat.lt_ge_cases k (List.length rgbs)) as [L|L].
  - rewrite Forall_forall in H. specialize (H _ (nth_In rgbs [] L)).
    eapply Forall_impl; [|exact H]. intros y [Hy _]. exact Hy.
  - rewrite nth_overflow by assumption. constructor.
Qed.

(** X17.  [color_brewer] answers [None] exactly for the names that are
    not in the catalogue, for every [n <= 253], above 6 as well as
    below: an unknown name is never an error, and a known name never
    gives [None]. *)
Theorem color_brewer_none_iff (name : string) (n : Z) :
  n <= 253 ->
  (color_brewer name n = Ok None <-> dict_get schemes name = None).
Proof.
  intros Hn. destruct (Z_lt_le_dec 6 n) as [H6|H6].
  - destruct (dict_get schemes name) as [hex_codes|] eqn:G.
    + destruct (color_brewer_interpolated name n hex_codes G)
        as (cs & -> & _); [unfold maximum_n; lia|].
      split; discriminate.
    + split; intros _; [reflexivity|].
      rewrite color_brewer_many by (unfold maximum_n; lia).
      now rewrite G.
  - pose proof (color_brewer_few name n H6) as E.
    split; [intros C; congruence | intros C; congruence].
Qed.

Lemma color_brewer_none_iff_witness :
  100 <= 253
  /\ (color_brewer "Spectral" 100 = Ok None
      <-> dict_get schemes "Spectral" = None).
Proof.
  split; [lia|]. apply color_brewer_none_iff. lia.
Defined.

(** X18.  A known name never gives fewer than seven colours: for every
    [n <= 253] the scheme returned has [max(n, 7)] entries. *)
Theorem color_brewer_length (name : string) (n : Z) (hex_codes : list string) :
  dict_get schemes name = Some hex_codes -> n <= 253 ->
  exists color_scheme,
    color_brewer name n = Ok (Some color_scheme)
    /\ len color_scheme = Z.max n 7.
Proof.
  intros G Hn. destruct (Z_lt_le_dec 6 n) as [H6|H6].
  - destruct (color_brewer_interpolated name n hex_codes G)
      as (cs & E & L & _); [unfold maximum_n; lia|].
    exists cs. split; [exact E | lia].
  - rewrite color_brewer_few, G by assumption.
    exists hex_codes. split; [reflexivity|].
    destruct (schemes_hexcolors name hex_codes G) as [L _].
    unfold len. lia.
Qed.

Lemma color_brewer_length_witness :
  (dict_get schemes "BuGn"
   = Some ["#EDF8FB"; "#CCECE6"; "#CCECE6"; "#66C2A4"; "#41AE76";
           "#238B45"; "#005824"]
   /\ 3 <= 253)
  /\ exists color_scheme,
       color_brewer "BuGn" 3 = Ok (Some color_scheme)
       /\ len color_scheme = Z.max 3 7.
Proof.
  split; [split; [reflexivity | lia]|].
  eapply color_brewer_length; [reflexivity | lia].
Defined.

(** X19.  An interpolated scheme starts and ends on the base palette:
    for a known name and [6 < n <= 253], the first colour returned is the
    first of the seven base colours and the last colour returned is the
    last of them, as the same strings. *)
Theorem color_brewer_ends (name : string) (n : Z) (hex_codes : list string) :
  dict_get schemes name = Some hex_codes -> 6 < n <= 253 ->
  exists color_scheme,
    color_brewer name n = Ok (Some color_scheme)
    /\ getitem color_scheme 0 = getitem hex_codes 0
    /\ getitem color_scheme (-1) = getitem hex_codes (-1).
Proof.
  intros G Hn.
  destruct (color_brewer_many_nth name n hex_codes G Hn)
    as (rgbs & cs & E & L & Hrgb & Hb & Ecs & Lcs & N).
  destruct (schemes_hexcolors name hex_codes G) as [L7 Hhex].
  exists cs. split; [exact Ecs|].
  assert (Hl : (2 <= List.length (map (map num) rgbs))%nat)
    by (rewrite length_map; lia).
  destruct (pick_ends (map (map num) rgbs) n Hl Hrgb ltac:(lia)) as [P0 P1].
  pose proof (N 0 ltac:(lia)) as N0. pose proof (N (n - 1) ltac:(lia)) as N1.
  rewrite (rgb_to_hex_Qeq _ _ P0 (nth_nonneg _ _ Hb)) in N0.
  rewrite (rgb_to_hex_Qeq _ _ P1 (nth_nonneg _ _ Hb)) in N1.
  rewrite (decoded_encodes_back hex_codes rgbs 0 Hhex E) in N0 by lia.
  rewrite length_map in N1.
  rewrite (decoded_encodes_back hex_codes rgbs _ Hhex E) in N1 by lia.
  injection N0 as N0. injection N1 as N1.
  unfold getitem. unfold len in *.
  replace (-1 + Z.of_nat (List.length cs)) with (n - 1) by lia.
  replace (-1 + Z.of_nat (List.length hex_codes)) with 6 by lia.
  cbn [Z.ltb Z.compare].
  destruct (n - 1 <? 0) eqn:C; [apply Z.ltb_lt in C; lia|].
  change (Z.to_nat 0) with 0%nat.
  rewrite (nth_error_nth' cs "") by lia.
  rewrite (nth_error_nth' cs "") by lia.
  rewrite (nth_error_nth' hex_codes "") by lia.
  rewrite (nth_error_nth' hex_codes "") by lia.
  change (Z.to_nat 0) with 0%nat in N0.
  rewrite L in N1. rewrite N0.
  replace (Z.to_nat 6) with (7 - 1)%nat by reflexivity. rewrite N1.
  split; reflexivity.
Qed.

Lemma color_brewer_ends_witness :
  (dict_get schemes "BuGn"
   = Some ["#EDF8FB"; "#CCECE6"; "#CCECE6"; "#66C2A4"; "#41AE76";
           "#238B45"; "#005824"]
   /\ 6 < 9 <= 253)
  /\ exists color_scheme,
       color_brewer "BuGn" 9 = Ok (Some color_scheme)
       /\ getitem color_scheme 0
          = getitem ["#EDF8FB"; "#CCECE6"; "#CCECE6"; "#66C2A4"; "#41AE76";
                     "#238B45"; "#005824"] 0
       /\ getitem color_scheme (-1)
          = getitem ["#EDF8FB"; "#CCECE6"; "#CCECE6"; "#66C2A4"; "#41AE76";
                     "#238B45"; "#005824"] (-1).
Proof.
  split; [split; [reflexivity | lia]|].
  eapply color_brewer_ends; [reflexivity | lia].
Defined.

(** X20.  The two branches meet at seven: for a known name,
    [color_brewer] with [n = 7] interpolates and yet returns the seven
    base colours unchanged, the same list as for [n <= 6]. *)
Theorem color_brewer_seven (name : string) (hex_codes : list string) :
  dict_get schemes name = Some hex_codes ->
  color_brewer name 7 = Ok (Some hex_codes).
Proof.
  intros G.
  destruct (color_brewer_many_nth name 7 hex_codes G ltac:(unfold maximum_n; lia))
    as (rgbs & cs & E & L & Hrgb & Hb & Ecs & Lcs & N).
  destruct (schemes_hexcolors name hex_codes G) as [L7 Hhex].
  rewrite Ecs. do 2 f_equal.
  apply (nth_ext _ _ "" ""); [unfold len in Lcs; lia|].
  intros k Hk. unfold len in Lcs.
  assert (Hl : (2 <= List.length (map (map num) rgbs))%nat)
    by (rewrite length_map; lia).
  assert (L' : len (map (map num) rgbs) = 7)
    by (unfold len; rewrite length_map; lia).
  pose proof (N (Z.of_nat k) ltac:(lia)) as Nk.
  rewrite <- L' in Nk.
  rewrite (rgb_to_hex_Qeq _ _
             (pick_same_count (map (map num) rgbs) (Z.of_nat k) Hl Hrgb
                ltac:(lia))
             (nth_nonneg _ _ Hb)) in Nk.
  rewrite Nat2Z.id in Nk.
  rewrite (decoded_encodes_back hex_codes rgbs k Hhex E) in Nk by lia.
  now injection Nk.
Qed.

Lemma color_brewer_seven_witness :
  dict_get schemes "YlOrRd"
  = Some ["#FFFFB2"; "#FED976"; "#FEB24C"; "#FD8D3C"; "#FC4E2A";
          "#E31A1C"; "#B10026"]
  /\ color_brewer "YlOrRd" 7
     = Ok (Some ["#FFFFB2"; "#FED976"; "#FEB24C"; "#FD8D3C"; "#FC4E2A";
                 "#E31A1C"; "#B10026"]).
Proof.
  split; [reflexivity|]. apply color_brewer_seven. reflexivity.
Defined.

(** ** More on the legend scaler: which labels survive, and how many *)

(** Closed comparisons of integers. *)
Ltac closed_Z :=
  repeat split; vm_compute; first [reflexivity | discriminate | intro; discriminate].

Lemma legend_scaler_downsampled (legend_values : list value) (max_labels : Z) :
  max_labels <> 0 -> max_labels <= len legend_values ->
  legend_scaler legend_values max_labels
  = Ok (map (fun i =>
               if legend_keep (len legend_values) max_labels i
               then nth (Z.to_nat i) legend_values blank
               else blank)
          (range (len legend_values))).
Proof.
  intros Hm Hl. unfold legend_scaler.
  destruct (Z.ltb_spec (len legend_values) max_labels) as [C|_]; [lia|].
  unfold truediv. rewrite num_eq_0.
  destruct (Z.eqb_spec max_labels 0) as [C|_]; [contradiction|].
  cbn [bind].
  apply (for_each_append
           (fun i =>
              if legend_keep (len legend_values) max_labels i
              then nth (Z.to_nat i) legend_values blank
              else blank)).
  intros i acc Hi. apply range_In in Hi. unfold legend_keep.
  destruct (Z.eqb_spec i 0) as [Ei|Ei]; cbn [negb andb bind]; [reflexivity|].
  unfold modulo. rewrite num_div_nonzero by lia. cbn [bind].
  rewrite legend_keep_divides by lia.
  destruct ((i * max_labels) mod len legend_values =? 0); [|reflexivity].
  rewrite (getitem_nth legend_values i blank) by lia. reflexivity.
Qed.

Lemma legend_scaler_short (legend_values : list value) (max_labels : Z) :
  len legend_values < max_labels ->
  legend_scaler legend_values max_labels = Ok legend_values.
Proof.
  intros H. unfold legend_scaler.
  destruct (Z.ltb_spec (len legend_values) max_labels); [reflexivity | lia].
Qed.

Lemma labels_map_length (g : Z -> value) (keep : Z -> bool) (l : list Z) :
  (forall i, keep i = false -> g i = blank) ->
  (List.length (labels (map g l)) <= List.length (filter keep l))%nat.
Proof.
  intros Hg. induction l as [|i l IH]; [reflexivity|].
  unfold labels in *. cbn [map filter].
  destruct (keep i) eqn:K.
  - destruct (negb (is_blank (g i))); cbn [List.length]; lia.
  - rewrite (Hg i K). cbn [is_blank blank negb]. exact IH.
Qed.

Lemma range_NoDup (n : Z) : NoDup (range n).
Proof.
  unfold range. apply NoDup_map_NoDup_ForallPairs; [|apply seq_NoDup].
  intros a b _ _. apply Nat2Z.inj.
Qed.

(** At most [max_labels - 1] positions are kept: a kept [i] has
    [i * max_labels = j * L] for one [j] of [1 .. max_labels - 1], and
    different positions have different [j]. *)
Lemma legend_keep_count (L max_labels : Z) :
  0 < max_labels <= L ->
  (List.length (filter (legend_keep L max_labels) (range L))
   <= Z.to_nat (max_labels - 1))%nat.
Proof.
  intros Hm.
  set (kept := filter (legend_keep L max_labels) (range L)).
  set (f := fun i : Z => i * max_labels / L).
  assert (Hkept : forall i, In i kept ->
             0 < i < L /\ i * max_labels = L * f i).
  { intros i Hi. apply filter_In in Hi as [Hr K]. apply range_In in Hr.
    unfold legend_keep in K. apply andb_prop in K as [K0 K1].
    apply negb_true_iff, Z.eqb_neq in K0. apply Z.eqb_eq in K1.
    split; [lia|]. unfold f. apply Z.div_exact; [lia | exact K1]. }
  assert (Hlen : List.length (map Z.of_nat (seq 1 (Z.to_nat (max_labels - 1))))
                 = Z.to_nat (max_labels - 1))
    by (now rewrite length_map, length_seq).
  rewrite <- Hlen, <- (length_map f kept).
  apply NoDup_incl_length.
  - apply NoDup_map_NoDup_ForallPairs.
    + intros x y Hx Hy E.
      destruct (Hkept x Hx) as [_ Ex]. destruct (Hkept y Hy) as [_ Ey].
      rewrite E in Ex. nia.
    + apply NoDup_filter, range_NoDup.
  - intros j Hj. apply in_map_iff in Hj as (i & <- & Hi).
    destruct (Hkept i Hi) as [Hr E].
    apply in_map_iff. exists (Z.to_nat (f i)).
    assert (0 < f i < max_labels) by nia.
    split; [lia|]. apply in_seq. lia.
Qed.

(** X22.  The scaler does what it is for: with [max_labels > 0], the
    ticks returned carry fewer than [max_labels] labels that are not
    blank. *)
Theorem legend_scaler_label_count (legend_values : list value) (max_labels : Z) :
  0 < max_labels ->
  exists ticks,
    legend_scaler legend_values max_labels = Ok ticks
    /\ Z.of_nat (List.length (labels ticks)) < max_labels.
Proof.
  intros Hm.
  destruct (Z_lt_le_dec (len legend_values) max_labels) as [Hl|Hl].
  - exists legend_values. split.
    + now apply legend_scaler_short.
    + pose proof (filter_length_le (fun v => negb (is_blank v)) legend_values).
      unfold labels, len in *. lia.
  - rewrite legend_scaler_downsampled by lia.
    eexists. split; [reflexivity|].
    pose proof (labels_map_length
                  (fun i => if legend_keep (len legend_values) max_labels i
                            then nth (Z.to_nat i) legend_values blank
                            else blank)
                  (legend_keep (len legend_values) max_labels)
                  (range (len legend_values))) as C.
    pose proof (legend_keep_count (len legend_values) max_labels ltac:(lia)) as K.
    assert (forall i, legend_keep (len legend_values) max_labels i = false ->
                      (if legend_keep (len legend_values) max_labels i
                       then nth (Z.to_nat i) legend_values blank
                       else blank) = blank) as G by (now intros i ->).
    specialize (C G). lia.
Qed.

Lemma legend_scaler_label_count_witness :
  0 < 10
  /\ exists ticks,
       legend_scaler (map (fun i => Num (num i)) (range 25)) 10 = Ok ticks
       /\ Z.of_nat (List.length (labels ticks)) < 10.
Proof.
  split; [lia|]. apply legend_scaler_label_count. lia.
Defined.

(** X24.  Scaling twice changes nothing more: the ticks returned are a
    fixed point of [legend_scaler] for the same [max_labels]. *)
Theorem legend_scaler_idempotent
  (legend_values ticks : list value) (max_labels : Z) :
  legend_scaler legend_values max_labels = Ok ticks ->
  legend_scaler ticks max_labels = Ok ticks.
Proof.
  intros H.
  destruct (Z_lt_le_dec (len legend_values) max_labels) as [Hl|Hl].
  - rewrite legend_scaler_short in H by assumption.
    injection H as <-. now apply legend_scaler_short.
  - destruct (Z.eq_dec max_labels 0) as [->|Hm].
    { unfold legend_scaler in H.
      destruct (Z.ltb_spec (len legend_values) 0); [lia|]. discriminate H. }
    rewrite legend_scaler_downsampled in H by assumption.
    injection H as H. subst ticks.
    set (g := fun i : Z => _).
    assert (L : len (map g (range (len legend_values))) = len legend_values).
    { unfold len. rewrite length_map, range_length. unfold len. lia. }
    rewrite legend_scaler_downsampled by lia. rewrite L. f_equal.
    apply map_ext_in. intros i Hi. apply range_In in Hi.
    destruct (legend_keep (len legend_values) max_labels i) eqn:K.
    + rewrite map_range_nth by (unfold len in *; lia).
      rewrite Z2Nat.id by lia. unfold g. now rewrite K.
    + unfold g. now rewrite K.
Qed.

Lemma legend_scaler_idempotent_witness :
  legend_scaler [Num 1; Num 2; Num 3; Num 4]%Q 2
  = Ok [blank; blank; Num 3; blank]%Q
  /\ legend_scaler [blank; blank; Num 3; blank]%Q 2
     = Ok [blank; blank; Num 3; blank]%Q.
Proof.
  split; [reflexivity|].
  exact (legend_scaler_idempotent [Num 1; Num 2; Num 3; Num 4]%Q _ 2 eq_refl).
Defined.

(** ** Rounding to binary64 *)

Lemma Qeq_bool_comp (a a' b b' : Q) :
  (a == a')%Q -> (b == b')%Q -> Qeq_bool a b = Qeq_bool a' b'.
Proof.
  intros Ea Eb. apply eq_true_iff_eq. rewrite !Qeq_bool_iff.
  now rewrite Ea, Eb.
Qed.

Lemma pow2_pos (e : Z) : (0 < Binary64.pow2 e)%Q.
Proof. apply Qpower_0_lt. reflexivity. Qed.

Lemma pow2_plus (a b : Z) :
  (Binary64.pow2 (a + b) == Binary64.pow2 a * Binary64.pow2 b)%Q.
Proof. apply Qpower_plus. discriminate. Qed.

Lemma pow2_le (a b : Z) : a <= b -> (Binary64.pow2 a <= Binary64.pow2 b)%Q.
Proof. intros H. apply Qpower_le_compat_l; [exact H | discriminate]. Qed.

Lemma pow2_lt (a b : Z) : a < b -> (Binary64.pow2 a < Binary64.pow2 b)%Q.
Proof. intros H. apply Qpower_lt_compat_l; [exact H | reflexivity]. Qed.

Lemma pow2_lt_inv (a b : Z) :
  (Binary64.pow2 a < Binary64.pow2 b)%Q -> a < b.
Proof. intros H. apply (Qpower_lt_compat_l_inv 2); [exact H | reflexivity]. Qed.

Lemma pow2_Z (n : Z) : 0 <= n -> (Binary64.pow2 n == inject_Z (2 ^ n))%Q.
Proof. intros H. unfold Binary64.pow2. now rewrite Zpower_Qpower. Qed.

(** A division by a power of two is a multiplication by the opposite
    power. *)
Lemma div_pow2 (q : Q) (e : Z) :
  (q / Binary64.pow2 e == q * Binary64.pow2 (- e))%Q.
Proof.
  unfold Qdiv. apply Qmult_comp; [reflexivity|].
  unfold Binary64.pow2. now rewrite Qpower_opp.
Qed.

Lemma pow2_opp_r (e : Z) : (Binary64.pow2 e * Binary64.pow2 (- e) == 1)%Q.
Proof.
  rewrite <- pow2_plus. now replace (e + - e) with 0 by lia.
Qed.

(** [floor_log2] finds the binade of a positive number. *)
Lemma floor_log2_spec (q : Q) :
  (0 < q)%Q ->
  (Binary64.pow2 (Binary64.floor_log2 q) <= q
   < Binary64.pow2 (Binary64.floor_log2 q + 1))%Q.
Proof.
  intros Hq. unfold Binary64.floor_log2.
  destruct q as [n d]. cbn [Qnum Qden].
  assert (Hn : 0 < n) by (unfold Qlt in Hq; cbn in Hq; lia).
  set (a := Z.log2 n). set (b := Z.log2 (Z.pos d)).
  assert (Ha : 0 <= a) by apply Z.log2_nonneg.
  assert (Hb : 0 <= b) by apply Z.log2_nonneg.
  destruct (Z.log2_spec n Hn) as [An An']. fold a in An, An'.
  destruct (Z.log2_spec (Z.pos d) ltac:(lia)) as [Bd Bd']. fold b in Bd, Bd'.
  assert (Qn : (n # d == inject_Z n * / inject_Z (Z.pos d))%Q)
    by (rewrite (Qmake_Qdiv n d); reflexivity).
  assert (Pd : (0 < inject_Z (Z.pos d))%Q) by reflexivity.
  assert (Pa : (Binary64.pow2 a == inject_Z (2 ^ a))%Q) by now apply pow2_Z.
  assert (Pb : (Binary64.pow2 b == inject_Z (2 ^ b))%Q) by now apply pow2_Z.
  assert (Pa1 : (Binary64.pow2 (a + 1) == inject_Z (2 ^ (a + 1)))%Q)
    by (apply pow2_Z; lia).
  assert (Pb1 : (Binary64.pow2 (b + 1) == inject_Z (2 ^ (b + 1)))%Q)
    by (apply pow2_Z; lia).
  (* [2^(a-b-1) < n/d < 2^(a-b+1)] *)
  assert (Up : (n # d < Binary64.pow2 (a - b + 1))%Q).
  { rewrite Qn. apply Qlt_shift_div_r; [exact Pd|].
    assert (E : (Binary64.pow2 (a + 1)
                 == Binary64.pow2 (a - b + 1) * Binary64.pow2 b)%Q).
    { rewrite <- pow2_plus. now replace (a - b + 1 + b) with (a + 1) by lia. }
    apply Qlt_le_trans with (Binary64.pow2 (a + 1)).
    - rewrite Pa1. now rewrite <- Zlt_Qlt.
    - rewrite E. apply Qmult_le_l; [apply pow2_pos|].
      rewrite Pb. now rewrite <- Zle_Qle. }
  assert (Lo : (Binary64.pow2 (a - b - 1) <= n # d)%Q).
  { rewrite Qn. apply Qle_shift_div_l; [exact Pd|].
    assert (E : (Binary64.pow2 a
                 == Binary64.pow2 (a - b - 1) * Binary64.pow2 (b + 1))%Q).
    { rewrite <- pow2_plus. now replace (a - b - 1 + (b + 1)) with a by lia. }
    apply Qle_trans with (Binary64.pow2 a).
    - rewrite E. apply Qmult_le_l; [apply pow2_pos|].
      rewrite Pb1. rewrite <- Zle_Qle. lia.
    - rewrite Pa. now rewrite <- Zle_Qle. }
  destruct (Qle_bool (Binary64.pow2 (a - b)) (n # d)) eqn:E.
  - apply Qle_bool_iff in E. split; [exact E | exact Up].
  - split; [exact Lo|].
    replace (a - b - 1 + 1) with (a - b) by lia.
    apply Qnot_le_lt. intros C. apply Qle_bool_iff in C. congruence.
Qed.

Lemma floor_log2_unique (q : Q) (e : Z) :
  (Binary64.pow2 e <= q < Binary64.pow2 (e + 1))%Q ->
  Binary64.floor_log2 q = e.
Proof.
  intros [Lo Hi].
  assert (Hq : (0 < q)%Q)
    by (eapply Qlt_le_trans; [apply pow2_pos | exact Lo]).
  destruct (floor_log2_spec q Hq) as [Lo' Hi'].
  assert (A : Binary64.floor_log2 q < e + 1).
  { apply pow2_lt_inv. eapply Qle_lt_trans; eassumption. }
  assert (B : e < Binary64.floor_log2 q + 1).
  { apply pow2_lt_inv. eapply Qle_lt_trans; eassumption. }
  lia.
Qed.

Lemma nearest_even_bounds (x : Q) :
  Qfloor x <= Binary64.nearest_even x <= Qfloor x + 1.
Proof.
  unfold Binary64.nearest_even.
  destruct (x - inject_Z (Qfloor x) ?= 1 # 2)%Q; [|lia|lia].
  destruct (Z.even (Qfloor x)); lia.
Qed.

Lemma nearest_even_Z (n : Z) : Binary64.nearest_even (inject_Z n) = n.
Proof.
  unfold Binary64.nearest_even. rewrite Qfloor_Z.
  assert (E : (inject_Z n - inject_Z n ?= 1 # 2)%Q = Lt).
  { apply Qlt_alt.
    setoid_replace (inject_Z n - inject_Z n)%Q with 0%Q by ring. reflexivity. }
  now rewrite E.
Qed.

Lemma nearest_even_comp (x y : Q) :
  (x == y)%Q -> Binary64.nearest_even x = Binary64.nearest_even y.
Proof.
  intros E. unfold Binary64.nearest_even.
  rewrite (Qfloor_comp _ _ E).
  assert (C : (x - inject_Z (Qfloor y) ?= 1 # 2)%Q
              = (y - inject_Z (Qfloor y) ?= 1 # 2)%Q)
    by (apply Qcompare_comp; [now rewrite E | reflexivity]).
  now rewrite C.
Qed.

(** The nearest integer is within one half. *)
Lemma nearest_even_error (x : Q) :
  (Qabs (inject_Z (Binary64.nearest_even x) - x) <= 1 # 2)%Q.
Proof.
  pose proof (Qfloor_le x) as L. pose proof (Qlt_floor x) as U.
  rewrite inject_Z_plus in U. change (inject_Z 1) with 1%Q in U.
  apply Qabs_Qle_condition. unfold Binary64.nearest_even.
  destruct (x - inject_Z (Qfloor x) ?= 1 # 2)%Q eqn:C.
  - apply Qeq_alt in C.
    destruct (Z.even (Qfloor x)).
    + split; lra.
    + rewrite inject_Z_plus. change (inject_Z 1) with 1%Q. split; lra.
  - apply Qlt_alt in C. split; lra.
  - apply Qgt_alt in C. rewrite inject_Z_plus. change (inject_Z 1) with 1%Q.
    split; lra.
Qed.

Lemma Qred_inject_Z (n : Z) : Qred (inject_Z n) = inject_Z n.
Proof.
  unfold Qred, inject_Z.
  pose proof (Z.ggcd_gcd n 1) as G.
  pose proof (Z.ggcd_correct_divisors n 1) as D.
  destruct (Z.ggcd n 1) as (g, (a, b)). cbn [fst] in G. destruct D as [Da Db].
  rewrite Z.gcd_1_r in G. subst g.
  rewrite Z.mul_1_l in Da, Db. subst a b. reflexivity.
Qed.

(** The value of [round] before reduction to lowest terms. *)
Lemma round_value (q : Q) :
  ~ (q == 0)%Q ->
  (Binary64.round q
   == inject_Z (Binary64.nearest_even
                  (q / Binary64.pow2 (Binary64.ulp_exponent q)))
      * Binary64.pow2 (Binary64.ulp_exponent q))%Q.
Proof.
  intros H. unfold Binary64.round.
  destruct (Qeq_bool q 0) eqn:E; [apply Qeq_bool_iff in E; contradiction|].
  apply Qred_correct.
Qed.

Lemma round_0 : Binary64.round 0 = 0%Q.
Proof. reflexivity. Qed.

(** An [int] of at most 53 bits is a binary64 number. *)
Lemma round_int (n : Z) :
  Z.abs n < 2 ^ 53 -> Binary64.round (inject_Z n) = inject_Z n.
Proof.
  intros Hn. unfold Binary64.round.
  destruct (Qeq_bool (inject_Z n) 0) eqn:E.
  { apply Qeq_bool_iff in E.
    change 0%Q with (inject_Z 0) in E.
    apply (proj1 (inject_Z_injective _ _)) in E. now subst n. }
  assert (N0 : n <> 0).
  { intros ->. discriminate E. }
  set (e := Binary64.ulp_exponent (inject_Z n)).
  assert (He : -52 <= e <= 0).
  { unfold e, Binary64.ulp_exponent.
    assert (A : (Qabs (inject_Z n) == inject_Z (Z.abs n))%Q)
      by (unfold inject_Z; now rewrite <- Zabs_Qabs).
    assert (P : (0 < Qabs (inject_Z n))%Q).
    { rewrite A. change 0%Q with (inject_Z 0). rewrite <- Zlt_Qlt. lia. }
    destruct (floor_log2_spec _ P) as [Lo Hi].
    set (e0 := Binary64.floor_log2 (Qabs (inject_Z n))) in *.
    assert (0 <= e0).
    { assert (0 < e0 + 1); [|lia].
      apply pow2_lt_inv. eapply Qle_lt_trans; [|exact Hi].
      rewrite A. change (Binary64.pow2 0) with (inject_Z 1).
      rewrite <- Zle_Qle. lia. }
    assert (e0 < 53).
    { apply pow2_lt_inv. eapply Qle_lt_trans; [exact Lo|].
      rewrite A. rewrite (pow2_Z 53) by lia. now rewrite <- Zlt_Qlt. }
    lia. }
  clearbody e.
  assert (X : (inject_Z n / Binary64.pow2 e == inject_Z (n * 2 ^ (- e)))%Q).
  { rewrite div_pow2, inject_Z_mult. now rewrite (pow2_Z (- e)) by lia. }
  rewrite (nearest_even_comp _ _ X), nearest_even_Z.
  transitivity (Qred (inject_Z n)); [|apply Qred_inject_Z].
  apply Qred_complete.
  rewrite inject_Z_mult, <- (pow2_Z (- e)) by lia.
  rewrite <- Qmult_assoc, (Qmult_comm (Binary64.pow2 (- e))), pow2_opp_r.
  apply Qmult_1_r.
Qed.

(** Rounding stays within the binade, ends included. *)
Lemma round_bracket (q : Q) (e0 : Z) :
  -1022 <= e0 ->
  (Binary64.pow2 e0 <= q < Binary64.pow2 (e0 + 1))%Q ->
  (Binary64.pow2 e0 <= Binary64.round q <= Binary64.pow2 (e0 + 1))%Q.
Proof.
  intros He0 [Lo Hi].
  assert (Hq : (0 < q)%Q)
    by (eapply Qlt_le_trans; [apply pow2_pos | exact Lo]).
  assert (Hq0 : ~ (q == 0)%Q) by lra.
  rewrite (round_value q Hq0).
  assert (E : Binary64.ulp_exponent q = e0 - 52).
  { unfold Binary64.ulp_exponent.
    rewrite (floor_log2_unique (Qabs q) e0); [lia|].
    rewrite (Qabs_pos q) by lra. split; assumption. }
  rewrite E. set (e := e0 - 52).
  set (x := (q / Binary64.pow2 e)%Q).
  pose proof (pow2_pos e) as Pe.
  assert (E0 : (Binary64.pow2 e0 == inject_Z (2 ^ 52) * Binary64.pow2 e)%Q).
  { rewrite <- (pow2_Z 52) by lia. rewrite <- pow2_plus.
    now replace (52 + e) with e0 by (unfold e; lia). }
  assert (E1 : (Binary64.pow2 (e0 + 1)
                == inject_Z (2 ^ 53) * Binary64.pow2 e)%Q).
  { rewrite <- (pow2_Z 53) by lia. rewrite <- pow2_plus.
    now replace (53 + e) with (e0 + 1) by (unfold e; lia). }
  assert (Xlo : (inject_Z (2 ^ 52) <= x)%Q).
  { unfold x. apply Qle_shift_div_l; [exact Pe|]. now rewrite <- E0. }
  assert (Xhi : (x < inject_Z (2 ^ 53))%Q).
  { unfold x. apply Qlt_shift_div_r; [exact Pe|]. now rewrite <- E1. }
  assert (F : 2 ^ 52 <= Qfloor x < 2 ^ 53).
  { split.
    - rewrite <- (Qfloor_Z (2 ^ 52)). now apply Qfloor_resp_le.
    - rewrite Zlt_Qlt. eapply Qle_lt_trans; [apply Qfloor_le | exact Xhi]. }
  pose proof (nearest_even_bounds x) as B.
  rewrite E0, E1. split.
  - apply Qmult_le_r; [exact Pe|]. rewrite <- Zle_Qle. lia.
  - apply Qmult_le_r; [exact Pe|]. rewrite <- Zle_Qle. lia.
Qed.

(** Equal numbers round to the same float. *)
Lemma round_comp (q q' : Q) :
  (q == q')%Q -> Binary64.round q = Binary64.round q'.
Proof.
  intros E. unfold Binary64.round.
  rewrite (Qeq_bool_comp q q' 0 0 E (Qeq_refl 0)).
  destruct (Qeq_bool q' 0) eqn:Z0; [reflexivity|].
  assert (N0 : ~ (q' == 0)%Q).
  { intros C. apply Qeq_bool_iff in C. congruence. }
  assert (U : Binary64.ulp_exponent q = Binary64.ulp_exponent q').
  { unfold Binary64.ulp_exponent. f_equal. f_equal.
    apply floor_log2_unique.
    assert (P : (0 < Qabs q')%Q).
    { apply Qabs_case; intros ?; lra. }
    rewrite E. now apply floor_log2_spec. }
  rewrite U. apply Qred_complete.
  rewrite (nearest_even_comp (q / _) (q' / Binary64.pow2 (Binary64.ulp_exponent q'))).
  - reflexivity.
  - now rewrite E.
Qed.

(** Where [max_labels] divides the number of values, the quotient is an
    integer, and a binary64 number. *)
Lemma round_quotient_divides (L m : Z) :
  0 < m <= L -> L < 2 ^ 53 -> (m | L) ->
  (Binary64.round (num L / num m) == num L / num m)%Q.
Proof.
  intros Hm HL [c Hc].
  assert (Pm : (0 < num m)%Q) by (apply (num_lt 0 m); lia).
  assert (E : (num L / num m == inject_Z c)%Q).
  { subst L. unfold num. rewrite inject_Z_mult. field. fold (num m). lra. }
  rewrite (round_comp _ _ E), E.
  rewrite round_int; [reflexivity|]. nia.
Qed.

(** ** [round] returns a nearest binary64 number *)

(** No integer is nearer than the nearest integer. *)
Lemma nearest_even_nearest (x : Q) (z : Z) :
  (Qabs (inject_Z (Binary64.nearest_even x) - x) <= Qabs (inject_Z z - x))%Q.
Proof.
  pose proof (Qfloor_le x) as L. pose proof (Qlt_floor x) as U.
  rewrite inject_Z_plus in U. change (inject_Z 1) with 1%Q in U.
  assert (Z1 : (inject_Z z <= inject_Z (Qfloor x)
                \/ inject_Z (Qfloor x) + 1 <= inject_Z z)%Q).
  { destruct (Z_le_gt_dec z (Qfloor x)) as [H|H].
    - left. now rewrite <- Zle_Qle.
    - right. change 1%Q with (inject_Z 1).
      rewrite <- inject_Z_plus, <- Zle_Qle. lia. }
  unfold Binary64.nearest_even.
  set (f := inject_Z (Qfloor x)) in *.
  assert (F1 : (inject_Z (Qfloor x + 1) == f + 1)%Q)
    by (rewrite inject_Z_plus; reflexivity).
  destruct (x - f ?= 1 # 2)%Q eqn:C.
  - apply Qeq_alt in C.
    destruct (Z.even (Qfloor x)); fold f; rewrite ?F1;
      apply Qabs_case; intros ?; apply Qabs_case; intros ?;
      destruct Z1; lra.
  - apply Qlt_alt in C. fold f.
    apply Qabs_case; intros ?; apply Qabs_case; intros ?; destruct Z1; lra.
  - apply Qgt_alt in C. rewrite F1.
    apply Qabs_case; intros ?; apply Qabs_case; intros ?; destruct Z1; lra.
Qed.

Lemma Qabs_inject_Z (n : Z) : (Qabs (inject_Z n) == inject_Z (Z.abs n))%Q.
Proof. unfold inject_Z. now rewrite <- Zabs_Qabs. Qed.

(** [round] returns a binary64 number nearest to its argument: no
    binary64 number is nearer. *)
Lemma round_nearest (q f : Q) :
  binary64 f ->
  (Qabs (Binary64.round q - q) <= Qabs (f - q))%Q.
Proof.
  intros (n & e' & He' & Hn & Hf).
  destruct (Qeq_dec q 0) as [Q0|Q0].
  { rewrite (round_comp _ _ Q0), round_0, Q0.
    setoid_replace (0 - 0)%Q with 0%Q by ring. apply Qabs_nonneg. }
  rewrite (round_value q Q0).
  set (e := Binary64.ulp_exponent q).
  pose proof (pow2_pos e) as Pe.
  set (x := (q / Binary64.pow2 e)%Q).
  assert (X : (q == x * Binary64.pow2 e)%Q) by (unfold x; field; lra).
  (* distances, in units in the last place *)
  assert (D : forall y : Q,
             (Qabs (y * Binary64.pow2 e - q)
              == Qabs (y - x) * Binary64.pow2 e)%Q).
  { intros y. rewrite X at 1.
    setoid_replace (y * Binary64.pow2 e - x * Binary64.pow2 e)%Q
      with ((y - x) * Binary64.pow2 e)%Q by ring.
    rewrite Qabs_Qmult, (Qabs_pos (Binary64.pow2 e)) by lra. reflexivity. }
  rewrite D.
  assert (F : (f == f / Binary64.pow2 e * Binary64.pow2 e)%Q) by (field; lra).
  rewrite F, D.
  apply Qmult_le_compat_r; [|lra].
  destruct (Z_le_gt_dec e e') as [Le|Gt].
  - (* [f] is a multiple of the unit in the last place *)
    assert (I : (f / Binary64.pow2 e == inject_Z (n * 2 ^ (e' - e)))%Q).
    { rewrite Hf, inject_Z_mult, <- (pow2_Z (e' - e)) by lia.
      replace e' with (e' - e + e) at 1 by lia. rewrite pow2_plus.
      field. lra. }
    rewrite I. apply nearest_even_nearest.
  - (* [f] lies below the binade of [q] *)
    assert (E : e = Binary64.floor_log2 (Qabs q) - 52).
    { unfold e, Binary64.ulp_exponent in *. lia. }
    assert (P : (0 < Qabs q)%Q) by (apply Qabs_case; intros ?; lra).
    destruct (floor_log2_spec _ P) as [Lo _].
    set (e0 := Binary64.floor_log2 (Qabs q)) in *.
    assert (E0 : (Binary64.pow2 e0 == inject_Z (2 ^ 52) * Binary64.pow2 e)%Q).
    { rewrite <- (pow2_Z 52) by lia. rewrite <- pow2_plus.
      now replace (52 + e) with e0 by lia. }
    assert (Xlo : (inject_Z (2 ^ 52) <= Qabs x)%Q).
    { unfold x, Qdiv. rewrite Qabs_Qmult, Qabs_Qinv.
      rewrite (Qabs_pos (Binary64.pow2 e)) by lra.
      apply Qle_shift_div_l; [exact Pe|]. now rewrite <- E0. }
    assert (Flt : (Qabs (f / Binary64.pow2 e) <= inject_Z (2 ^ 52))%Q).
    { unfold Qdiv. rewrite Qabs_Qmult, Qabs_Qinv.
      rewrite (Qabs_pos (Binary64.pow2 e)) by lra.
      apply Qle_shift_div_r; [exact Pe|]. rewrite <- E0.
      rewrite Hf, Qabs_Qmult, Qabs_inject_Z.
      rewrite (Qabs_pos (Binary64.pow2 e')) by (pose proof (pow2_pos e'); lra).
      apply Qle_trans with (inject_Z (2 ^ 53) * Binary64.pow2 e')%Q.
      - apply Qmult_le_compat_r; [|pose proof (pow2_pos e'); lra].
        rewrite <- Zle_Qle. lia.
      - rewrite <- (pow2_Z 53) by lia. rewrite <- pow2_plus.
        apply pow2_le. lia. }
    set (y := (f / Binary64.pow2 e)%Q) in *. clearbody y.
    clearbody x.
    (* the end of the binade on the side of [x] is an integer at least
       as near as [y] *)
    destruct (Qlt_le_dec x 0) as [Neg|Pos].
    + eapply Qle_trans; [apply (nearest_even_nearest x (- 2 ^ 52))|].
      rewrite inject_Z_opp.
      rewrite (Qabs_neg x) in Xlo by lra.
      apply Qabs_Qle_condition in Flt.
      apply Qabs_case; intros ?; apply Qabs_case; intros ?; lra.
    + eapply Qle_trans; [apply (nearest_even_nearest x (2 ^ 52))|].
      rewrite (Qabs_pos x) in Xlo by lra.
      apply Qabs_Qle_condition in Flt.
      apply Qabs_case; intros ?; apply Qabs_case; intros ?; lra.
Qed.

(** [round] returns a binary64 number. *)
Lemma round_binary64 (q : Q) : binary64 (Binary64.round q).
Proof.
  destruct (Qeq_dec q 0) as [Q0|Q0].
  { rewrite (round_comp _ _ Q0), round_0.
    exists 0, 0. repeat split; lia. }
  set (e := Binary64.ulp_exponent q).
  set (n := Binary64.nearest_even (q / Binary64.pow2 e)).
  pose proof (round_value q Q0) as V. fold e n in V.
  pose proof (pow2_pos e) as Pe.
  assert (He : -1074 <= e) by (unfold e, Binary64.ulp_exponent; lia).
  assert (P : (0 < Qabs q)%Q) by (apply Qabs_case; intros ?; lra).
  destruct (floor_log2_spec _ P) as [_ Hi].
  set (e0 := Binary64.floor_log2 (Qabs q)) in *.
  assert (Ee : e0 - 52 <= e) by (unfold e, Binary64.ulp_exponent; fold e0; lia).
  (* fewer than [2^53] units *)
  assert (X : (Qabs (q / Binary64.pow2 e) < inject_Z (2 ^ 53))%Q).
  { unfold Qdiv. rewrite Qabs_Qmult, Qabs_Qinv.
    rewrite (Qabs_pos (Binary64.pow2 e)) by lra.
    apply Qlt_shift_div_r; [exact Pe|].
    eapply Qlt_le_trans; [exact Hi|].
    rewrite <- (pow2_Z 53) by lia. rewrite <- pow2_plus.
    apply pow2_le. lia. }
  assert (N : Z.abs n <= 2 ^ 53).
  { pose proof (nearest_even_bounds (q / Binary64.pow2 e)) as B. fold n in B.
    assert (F : - 2 ^ 53 <= Qfloor (q / Binary64.pow2 e) < 2 ^ 53).
    { apply Qabs_Qlt_condition in X. destruct X as [X1 X2]. split.
      - rewrite <- (Qfloor_Z (- 2 ^ 53)). apply Qfloor_resp_le.
        rewrite inject_Z_opp. lra.
      - rewrite Zlt_Qlt. eapply Qle_lt_trans; [apply Qfloor_le | exact X2]. }
    lia. }
  destruct (Z.eq_dec (Z.abs n) (2 ^ 53)) as [Top|NTop].
  - exists (n / 2), (e + 1). split; [lia|]. split.
    + assert (n = 2 ^ 53 \/ n = - 2 ^ 53) as [-> | ->] by lia;
        vm_compute; reflexivity.
    + rewrite V, pow2_plus. change (Binary64.pow2 1) with 2%Q.
      assert (n = 2 * (n / 2)) as E2.
      { assert (n = 2 ^ 53 \/ n = - 2 ^ 53) as [-> | ->] by lia;
          vm_compute; reflexivity. }
      rewrite E2 at 1. rewrite inject_Z_mult. change (inject_Z 2) with 2%Q.
      ring.
  - exists n, e. split; [exact He|]. split; [lia | exact V].
Qed.

(** ** The rounding against the reference implementation of IEEE 754 *)

(** All quotients of two lengths up to 64. *)
Example int_truediv_as_SFdiv :
  forallb (fun n =>
    forallb (fun d =>
      same_float (SFtruediv (n + 1) (d + 1))
                 (Binary64.int_truediv (n + 1) (d + 1)))
      (range 64))
    (range 64)
  = true.
Proof. vm_compute. reflexivity. Qed.

(** Integers around [2^53], where ties appear, and at the end of the
    range. *)
Example of_int_as_binary_normalize :
  forallb (fun n => same_float (SFof_int n) (Binary64.of_int n))
    (map (fun k => 2 ^ 53 + k - 8) (range 17)
     ++ map (fun k => - 2 ^ 54 + 2 * k - 16) (range 17)
     ++ map (fun k => 2 ^ 1024 - 2 ^ 970 + (k - 2) * 2 ^ 968) (range 5))%list
  = true.
Proof. vm_compute. reflexivity. Qed.

(** Quotients that underflow. *)
Example round_as_binary_normalize_subnormal :
  forallb (fun k =>
    same_float (binary_normalize 53 1024 k (-1077) false)
               (Ok (Binary64.round (inject_Z k * Binary64.pow2 (-1077)))))
    (range 40)
  = true.
Proof. vm_compute. reflexivity. Qed.

(** ** The legend scaler on the examples *)

Example int_truediv_14_10 :
  Binary64.int_truediv 14 10 = Ok (3152519739159347 # 2251799813685248).
Proof. vm_compute. reflexivity. Qed.

Example int_mod_float_7 :
  Binary64.int_mod_float 7 (3152519739159347 # 2251799813685248)
  = Ok (1 # 2251799813685248).
Proof. vm_compute. reflexivity. Qed.

Example legend_scaler_binary64_identity :
  Binary64.legend_scaler [Num 1; Num 2; Num 3]%Q 10
  = Ok [Num 1; Num 2; Num 3]%Q.
Proof. reflexivity. Qed.

Example legend_scaler_binary64_downsample :
  Binary64.legend_scaler (map (fun i => Num (num i)) (range 20)) 10
  = Ok (map (fun i => if (negb (i =? 0) && (i mod 2 =? 0))%bool
                      then Num (num i) else blank) (range 20)).
Proof. vm_compute. reflexivity. Qed.

Example legend_scaler_binary64_zero :
  Binary64.legend_scaler [Num 1]%Q 0 = Raise ZeroDivisionError.
Proof. reflexivity. Qed.

(** A negative remainder is moved by the divisor, and the sum rounded. *)
Example float_mod_negative :
  Binary64.float_mod (- Binary64.pow2 (-70))%Q 16%Q = Ok 16%Q.
Proof. vm_compute. reflexivity. Qed.

(** ** The remainder *)

Lemma real_mod_comp (x x' d d' : Q) :
  (x == x')%Q -> (d == d')%Q -> (real_mod x d == real_mod x' d')%Q.
Proof.
  intros Ex Ed. unfold real_mod.
  assert (E : (x / d == x' / d')%Q) by now rewrite Ex, Ed.
  rewrite (Qfloor_comp _ _ E). now rewrite Ex, Ed.
Qed.

Lemma real_mod_bounds (x d : Q) :
  (0 < d)%Q -> (0 <= real_mod x d < d)%Q.
Proof.
  intros Hd. unfold real_mod.
  pose proof (Qfloor_le (x / d)) as L. pose proof (Qlt_floor (x / d)) as U.
  rewrite inject_Z_plus in U. change (inject_Z 1) with 1%Q in U.
  set (f := inject_Z (Qfloor (x / d))) in *. clearbody f.
  assert (X : (x == x / d * d)%Q) by (field; lra).
  set (y := (x / d)%Q) in *. clearbody y.
  rewrite X. split; nra.
Qed.

(** The remainder is zero exactly on the integer multiples. *)
Lemma real_mod_multiple (x d : Q) :
  ~ (d == 0)%Q ->
  Qeq_bool (real_mod x d) 0 = true
  <-> exists k : Z, (x == inject_Z k * d)%Q.
Proof.
  intros Hd. rewrite Qeq_bool_iff. unfold real_mod. split.
  - intros E. exists (Qfloor (x / d)). lra.
  - intros [k E].
    assert (X : (x / d == inject_Z k)%Q) by (rewrite E; field; exact Hd).
    rewrite (Qfloor_comp _ _ X), Qfloor_Z. rewrite E. ring.
Qed.

Lemma fmod_nonneg (x d : Q) :
  (0 <= x)%Q -> (0 < d)%Q -> (Binary64.fmod x d == real_mod x d)%Q.
Proof.
  intros Hx Hd. unfold Binary64.fmod, real_mod.
  rewrite int_nonneg; [ring|].
  apply Qle_shift_div_l; [exact Hd|]. lra.
Qed.

(** [x % y] on floats that are not negative: nothing is moved, and
    nothing is rounded. *)
Lemma float_mod_nonneg (x d : Q) :
  (0 <= x)%Q -> (0 < d)%Q ->
  exists r,
    Binary64.float_mod x d = Ok r /\ (r == real_mod x d)%Q.
Proof.
  intros Hx Hd. unfold Binary64.float_mod.
  destruct (Qeq_bool d 0) eqn:D0; [apply Qeq_bool_iff in D0; lra|].
  pose proof (fmod_nonneg x d Hx Hd) as F.
  pose proof (real_mod_bounds x d Hd) as [B0 B1].
  destruct (Qeq_bool (Binary64.fmod x d) 0) eqn:R0.
  - apply Qeq_bool_iff in R0. exists 0%Q. split; [reflexivity|]. lra.
  - assert (N1 : Binary64.negative d = false).
    { unfold Binary64.negative.
      assert (Qle_bool 0 d = true) as -> by (apply Qle_bool_iff; lra).
      reflexivity. }
    assert (N2 : Binary64.negative (Binary64.fmod x d) = false).
    { unfold Binary64.negative.
      assert (Qle_bool 0 (Binary64.fmod x d) = true) as ->
        by (apply Qle_bool_iff; lra).
      reflexivity. }
    rewrite N1, N2. cbn [Bool.eqb]. eauto.
Qed.

(** ** Conversions and the division in range *)

Lemma of_int_exact (i : Z) :
  Z.abs i < 2 ^ 53 -> Binary64.of_int i = Ok (inject_Z i).
Proof.
  intros Hi. unfold Binary64.of_int, Binary64.of_real.
  rewrite (round_int i Hi).
  assert (A : (Qabs (inject_Z i) == inject_Z (Z.abs i))%Q)
    by (unfold inject_Z; now rewrite <- Zabs_Qabs).
  assert (B : (Qabs (inject_Z i) < Binary64.pow2 1024)%Q).
  { rewrite A. apply Qlt_trans with (Binary64.pow2 53).
    - rewrite (pow2_Z 53) by lia. now rewrite <- Zlt_Qlt.
    - apply pow2_lt. lia. }
  destruct (Qle_bool (Binary64.pow2 1024) (Qabs (inject_Z i))) eqn:C;
    [|reflexivity].
  apply Qle_bool_iff in C. lra.
Qed.

(** The quotient of a length by a smaller positive [max_labels] is
    computed without overflow, and is at least [1]. *)
Lemma int_truediv_quotient (L m : Z) :
  0 < m <= L -> L < 2 ^ 53 ->
  Binary64.int_truediv L m = Ok (Binary64.round (num L / num m))
  /\ (1 <= Binary64.round (num L / num m))%Q.
Proof.
  intros Hm HL. unfold Binary64.int_truediv.
  destruct (Z.eqb_spec m 0) as [C|_]; [lia|].
  fold (num L) (num m). set (q := (num L / num m)%Q).
  assert (Pm : (0 < num m)%Q) by (apply (num_lt 0 m); lia).
  assert (Q1 : (1 <= q)%Q).
  { unfold q. apply Qle_shift_div_l; [exact Pm|].
    rewrite Qmult_1_l. apply num_le. lia. }
  assert (Q2 : (q < Binary64.pow2 53)%Q).
  { unfold q. apply Qlt_shift_div_r; [exact Pm|].
    rewrite (pow2_Z 53) by lia.
    apply Qlt_le_trans with (inject_Z (2 ^ 53) * 1)%Q.
    - rewrite Qmult_1_r. unfold num. now rewrite <- Zlt_Qlt.
    - apply Qmult_le_l; [reflexivity|].
      change 1%Q with (num 1). apply num_le. lia. }
  destruct (floor_log2_spec q ltac:(lra)) as [Lo Hi].
  set (e0 := Binary64.floor_log2 q) in *.
  assert (E0 : 0 <= e0).
  { assert (0 < e0 + 1); [|lia].
    apply pow2_lt_inv. change (Binary64.pow2 0) with 1%Q. lra. }
  assert (E1 : e0 + 1 <= 53).
  { assert (e0 < 53); [|lia]. apply pow2_lt_inv. lra. }
  destruct (round_bracket q e0 ltac:(lia) (conj Lo Hi)) as [RLo RHi].
  pose proof (pow2_le 0 e0 E0) as P0. change (Binary64.pow2 0) with 1%Q in P0.
  pose proof (pow2_le (e0 + 1) 53 E1) as P1.
  pose proof (pow2_lt 53 1024 ltac:(lia)) as P2.
  split; [|lra].
  unfold Binary64.of_real.
  destruct (Qle_bool (Binary64.pow2 1024) (Qabs (Binary64.round q))) eqn:C;
    [|reflexivity].
  apply Qle_bool_iff in C. rewrite Qabs_pos in C by lra. lra.
Qed.

(** ** The loop of the legend scaler *)

Lemma for_each_length {A B : Type}
  (body : A -> list B -> result (list B)) (l : list A) :
  (forall x acc acc', body x acc = Ok acc' ->
     List.length acc' = S (List.length acc)) ->
  forall acc out,
    for_each l body acc = Ok out ->
    List.length out = (List.length acc + List.length l)%nat.
Proof.
  intros Hbody. induction l as [|x l IH]; intros acc out; cbn [for_each].
  - intros [= <-]. cbn. lia.
  - destruct (body x acc) as [acc'|e] eqn:E; cbn [bind]; [|discriminate].
    intros H. rewrite (IH _ _ H), (Hbody _ _ _ E). cbn. lia.
Qed.

(** Whenever the scaler returns, it returns as many ticks as it was
    given values. *)
Lemma legend_scaler_binary64_length
  (legend_values ticks : list value) (max_labels : Z) :
  Binary64.legend_scaler legend_values max_labels = Ok ticks ->
  len ticks = len legend_values.
Proof.
  unfold Binary64.legend_scaler.
  destruct (len legend_values <? max_labels); [now intros [= <-]|].
  destruct (Binary64.int_truediv _ _) as [divisor|e]; cbn [bind];
    [|discriminate].
  intros H. apply for_each_length in H.
  - unfold len. rewrite H, range_length. cbn. unfold len. lia.
  - clear. intros i acc acc'.
    destruct (if negb (i =? 0) then _ else _) as [[]|e]; cbn [bind].
    + destruct (getitem legend_values i); cbn [bind]; [|discriminate].
      intros [= <-]. rewrite length_app. cbn. lia.
    + intros [= <-]. rewrite length_app. cbn. lia.
    + discriminate.
Qed.

(** In range, the scaler is a map over the positions. *)
Lemma legend_scaler_binary64_map
  (legend_values : list value) (max_labels : Z) :
  0 < max_labels <= len legend_values -> len legend_values < 2 ^ 53 ->
  Binary64.legend_scaler legend_values max_labels
  = Ok (map (fun i =>
               if legend_kept
                    (Binary64.round
                       (num (len legend_values) / num max_labels)) i
               then nth (Z.to_nat i) legend_values blank
               else blank)
          (range (len legend_values))).
Proof.
  intros Hm HL. unfold Binary64.legend_scaler.
  destruct (Z.ltb_spec (len legend_values) max_labels) as [C|_]; [lia|].
  destruct (int_truediv_quotient _ _ Hm HL) as [-> D1].
  set (divisor := Binary64.round _) in *. cbn [bind].
  apply (for_each_append
           (fun i =>
              if legend_kept divisor i
              then nth (Z.to_nat i) legend_values blank
              else blank)).
  intros i acc Hi. apply range_In in Hi. unfold legend_kept.
  destruct (Z.eqb_spec i 0) as [Ei|Ei]; cbn [negb andb bind]; [reflexivity|].
  unfold Binary64.int_mod_float.
  rewrite of_int_exact by lia. cbn [bind].
  destruct (float_mod_nonneg (inject_Z i) divisor) as (r & -> & Er).
  { change 0%Q with (inject_Z 0). rewrite <- Zle_Qle. lia. }
  { lra. }
  cbn [bind]. rewrite (Qeq_bool_comp _ _ 0 0 Er (Qeq_refl 0)).
  destruct (Qeq_bool (real_mod (inject_Z i) divisor) 0); [|reflexivity].
  rewrite (getitem_nth legend_values i blank) by lia. reflexivity.
Qed.

Lemma scale_legend_map (values : list value) (max_labels : Z) :
  max_labels <= len values ->
  scale_legend values max_labels
  = map (fun i =>
           if legend_kept (num (len values) / num max_labels) i
           then nth (Z.to_nat i) values blank
           else blank)
      (range (len values)).
Proof.
  intros Hm. unfold scale_legend. fold (len values).
  destruct (Z.ltb_spec (len values) max_labels) as [C|_]; [lia|].
  unfold range, len. rewrite Nat2Z.id, map_map.
  apply map_ext. intros i. unfold legend_kept, num.
  rewrite Nat2Z.id.
  replace (Z.of_nat i =? 0) with (i =? 0)%nat; [reflexivity|].
  destruct i; reflexivity.
Qed.

(** ** The legend scaler and its reference definition *)

Lemma legend_kept_iff (divisor : Q) (i : Z) :
  ~ (divisor == 0)%Q ->
  legend_kept divisor i = true
  <-> i <> 0 /\ exists k : Z, (num i == inject_Z k * divisor)%Q.
Proof.
  intros Hd. unfold legend_kept.
  rewrite andb_true_iff, negb_true_iff, Z.eqb_neq.
  now rewrite (real_mod_multiple (inject_Z i) divisor Hd).
Qed.

Lemma legend_kept_comp (d d' : Q) (i : Z) :
  (d == d')%Q -> legend_kept d i = legend_kept d' i.
Proof.
  intros E. unfold legend_kept. f_equal.
  apply Qeq_bool_comp; [|reflexivity].
  now apply real_mod_comp.
Qed.




(** ** How far the rounded quotient is from the quotient *)

(** Rounding moves a number by at most half a unit in the last place. *)
Lemma round_error (q : Q) (e0 : Z) :
  -1022 <= e0 ->
  (Binary64.pow2 e0 <= q < Binary64.pow2 (e0 + 1))%Q ->
  (Qabs (Binary64.round q - q) <= Binary64.pow2 (e0 - 53))%Q.
Proof.
  intros He0 [Lo Hi].
  assert (Hq : (0 < q)%Q)
    by (eapply Qlt_le_trans; [apply pow2_pos | exact Lo]).
  assert (Hq0 : ~ (q == 0)%Q) by lra.
  rewrite (round_value q Hq0).
  assert (E : Binary64.ulp_exponent q = e0 - 52).
  { unfold Binary64.ulp_exponent.
    rewrite (floor_log2_unique (Qabs q) e0); [lia|].
    rewrite (Qabs_pos q) by lra. split; assumption. }
  rewrite E. set (e := e0 - 52).
  pose proof (pow2_pos e) as Pe.
  pose proof (nearest_even_error (q / Binary64.pow2 e)) as N.
  set (n := inject_Z (Binary64.nearest_even (q / Binary64.pow2 e))) in *.
  clearbody n.
  assert (X : (q == q / Binary64.pow2 e * Binary64.pow2 e)%Q)
    by (field; lra).
  set (x := (q / Binary64.pow2 e)%Q) in *. clearbody x.
  assert (H : (Binary64.pow2 e == 2 * Binary64.pow2 (e0 - 53))%Q).
  { change 2%Q with (Binary64.pow2 1). rewrite <- pow2_plus.
    now replace (1 + (e0 - 53)) with e by (unfold e; lia). }
  apply Qabs_Qle_condition in N. destruct N as [N1 N2].
  apply Qabs_Qle_condition.
  set (u := Binary64.pow2 e) in *. clearbody u.
  set (h := Binary64.pow2 (e0 - 53)) in *. clearbody h.
  rewrite X. split; nra.
Qed.

(** The quotient of a length by a smaller positive [max_labels], rounded,
    is the quotient up to one part in [2^53]. *)
Lemma quotient_error (L m : Z) :
  0 < m <= L -> L < 2 ^ 53 ->
  (Qabs (Binary64.round (num L / num m) - num L / num m) * inject_Z (2 ^ 53)
   <= num L / num m)%Q.
Proof.
  intros Hm HL. set (q := (num L / num m)%Q).
  assert (Pm : (0 < num m)%Q) by (apply (num_lt 0 m); lia).
  assert (Q1 : (1 <= q)%Q).
  { unfold q. apply Qle_shift_div_l; [exact Pm|].
    rewrite Qmult_1_l. apply num_le. lia. }
  destruct (floor_log2_spec q ltac:(lra)) as [Lo Hi].
  set (e0 := Binary64.floor_log2 q) in *.
  assert (E0 : 0 <= e0).
  { assert (0 < e0 + 1); [|lia].
    apply pow2_lt_inv. change (Binary64.pow2 0) with 1%Q. lra. }
  pose proof (round_error q e0 ltac:(lia) (conj Lo Hi)) as R.
  assert (H : (Binary64.pow2 (e0 - 53) * inject_Z (2 ^ 53)
               == Binary64.pow2 e0)%Q).
  { rewrite <- (pow2_Z 53) by lia. rewrite <- pow2_plus.
    now replace (e0 - 53 + 53) with e0 by lia. }
  pose proof (pow2_pos (e0 - 53)) as Ph.
  assert (P53 : (0 < inject_Z (2 ^ 53))%Q) by reflexivity.
  set (a := Qabs (Binary64.round q - q)) in *. clearbody a.
  set (h := Binary64.pow2 (e0 - 53)) in *. clearbody h.
  set (c := inject_Z (2 ^ 53)) in *. clearbody c.
  apply Qle_trans with (h * c)%Q; [|lra].
  apply Qmult_le_compat_r; lra.
Qed.

(** With fewer than [2^26] values, a position can only be kept where the
    quotient is a binary64 number: a multiple [k * divisor] that is an
    integer [i] below [L] makes [i * max_labels - k * L] an integer below
    one in magnitude. *)
Lemma legend_kept_exact (L m i : Z) :
  0 < m <= L -> L < 2 ^ 26 -> 0 <= i < L ->
  legend_kept (Binary64.round (num L / num m)) i = true ->
  (Binary64.round (num L / num m) == num L / num m)%Q.
Proof.
  intros Hm HL Hi K.
  destruct (int_truediv_quotient L m Hm ltac:(lia)) as [_ D1].
  pose proof (quotient_error L m Hm ltac:(lia)) as Err.
  set (d := Binary64.round (num L / num m)) in *.
  apply legend_kept_iff in K; [|lra]. destruct K as [I0 [k Hk]].
  assert (Pm : (0 < num m)%Q) by (apply (num_lt 0 m); lia).
  assert (Qm : (num L / num m * num m == num L)%Q) by (field; lra).
  set (q := (num L / num m)%Q) in *. clearbody q. clearbody d.
  assert (Pi : (0 < num i)%Q) by (apply (num_lt 0 i); lia).
  assert (Kpos : (0 < inject_Z k)%Q) by nra.
  assert (Kle : (inject_Z k <= num i)%Q) by nra.
  assert (Kz : 0 < k <= i).
  { split.
    - change 0%Q with (inject_Z 0) in Kpos. now rewrite <- Zlt_Qlt in Kpos.
    - unfold num in Kle. now rewrite <- Zle_Qle in Kle. }
  (* the integer [i * m - k * L] is [k * m * (d - q)] *)
  assert (Z0 : (inject_Z (i * m - k * L)
                == inject_Z k * num m * (d - q))%Q).
  { unfold Zminus. rewrite inject_Z_plus, inject_Z_opp, !inject_Z_mult.
    fold (num i) (num m) (num L). rewrite Hk, <- Qm. ring. }
  assert (B : (Qabs (inject_Z (i * m - k * L)) * inject_Z (2 ^ 53)
               <= inject_Z (k * L))%Q).
  { rewrite Z0, !Qabs_Qmult.
    rewrite (Qabs_pos (inject_Z k)) by lra.
    rewrite (Qabs_pos (num m)) by lra.
    rewrite inject_Z_mult. fold (num L). rewrite <- Qm.
    set (a := Qabs (d - q)) in *. clearbody a.
    set (c := inject_Z (2 ^ 53)) in *. clearbody c.
    assert (0 < inject_Z k * num m)%Q by nra.
    nra. }
  assert (Zz : i * m - k * L = 0).
  { assert (A : (Qabs (inject_Z (i * m - k * L))
                 == inject_Z (Z.abs (i * m - k * L)))%Q)
      by (unfold inject_Z; now rewrite <- Zabs_Qabs).
    rewrite A, <- inject_Z_mult, <- Zle_Qle in B.
    assert (k * L < 2 ^ 53) by nia. lia. }
  rewrite Zz in Z0. change (inject_Z 0) with 0%Q in Z0.
  assert (0 < inject_Z k * num m)%Q by nra.
  nra.
Qed.

(** The test of the loop, in binary64, on fewer than [2^26] values. *)
Lemma legend_kept_binary64 (L m i : Z) :
  0 < m <= L -> L < 2 ^ 26 -> 0 <= i < L ->
  legend_kept (Binary64.round (num L / num m)) i
  = legend_keep L m i
    && Qeq_bool (Binary64.round (num L / num m)) (num L / num m).
Proof.
  intros Hm HL Hi.
  destruct (Qeq_bool (Binary64.round (num L / num m)) (num L / num m)) eqn:E.
  - apply Qeq_bool_iff in E. rewrite (legend_kept_comp _ _ i E), andb_true_r.
    unfold legend_kept, legend_keep. f_equal.
    apply (legend_keep_divides L m i); lia.
  - rewrite andb_false_r.
    destruct (legend_kept _ i) eqn:K; [|reflexivity].
    apply (legend_kept_exact L m i Hm HL Hi) in K.
    apply Qeq_bool_iff in K. congruence.
Qed.

(** ** Which labels survive in binary64 *)

(** X21.  When the list is downsampled ([0 < max_labels <= L], fewer
    than [2^26] values), the entry at index [i] survives exactly when
    [i] is not [0], [L] divides [i * max_labels], and the quotient
    [L / max_labels] is a binary64 number, so that the division rounds
    nothing; every other entry is blank. *)
Theorem legend_scaler_divisibility
  (legend_values : list value) (max_labels i : Z) :
  0 < max_labels <= len legend_values -> len legend_values < 2 ^ 26 ->
  0 <= i < len legend_values ->
  exists ticks,
    Binary64.legend_scaler legend_values max_labels = Ok ticks
    /\ getitem ticks i
       = if negb (i =? 0)
            && ((i * max_labels) mod len legend_values =? 0)
            && Qeq_bool
                 (Binary64.round (num (len legend_values) / num max_labels))
                 (num (len legend_values) / num max_labels)
         then getitem legend_values i
         else Ok blank.
Proof.
  intros Hm HL Hi.
  rewrite legend_scaler_binary64_map by (try assumption; lia).
  eexists. split; [reflexivity|].
  rewrite (getitem_nth _ i blank)
    by (unfold len; rewrite length_map, range_length; unfold len in *; lia).
  rewrite map_range_nth by (unfold len in *; lia).
  rewrite Z2Nat.id by lia.
  rewrite legend_kept_binary64 by assumption. unfold legend_keep.
  destruct (_ && _ && _); [|reflexivity].
  now rewrite (getitem_nth legend_values i blank) by lia.
Qed.

Lemma legend_scaler_divisibility_witness :
  (0 < 10 <= len (map (fun i => Num (num i)) (range 15))
   /\ len (map (fun i => Num (num i)) (range 15)) < 2 ^ 26
   /\ 0 <= 3 < len (map (fun i => Num (num i)) (range 15)))
  /\ exists ticks,
       Binary64.legend_scaler (map (fun i => Num (num i)) (range 15)) 10
       = Ok ticks
       /\ getitem ticks 3 = Ok (Num (num 3)).
Proof.
  split; [closed_Z|].
  destruct (legend_scaler_divisibility
              (map (fun i => Num (num i)) (range 15)) 10 3)
    as (ticks & E & K); [closed_Z | closed_Z | closed_Z |].
  exists ticks. split; [exact E|]. rewrite K. vm_compute. reflexivity.
Defined.

(** In range, all ticks are blank where no position passes the test. *)
Lemma legend_scaler_binary64_blank
  (legend_values : list value) (max_labels : Z) :
  0 < max_labels <= len legend_values -> len legend_values < 2 ^ 53 ->
  (forall i, 0 <= i < len legend_values ->
     legend_kept
       (Binary64.round (num (len legend_values) / num max_labels)) i
     = false) ->
  Binary64.legend_scaler legend_values max_labels
  = Ok (repeat blank (List.length legend_values)).
Proof.
  intros Hm HL K. rewrite legend_scaler_binary64_map by assumption.
  f_equal. apply (nth_ext _ _ blank blank).
  - rewrite length_map, range_length, repeat_length. unfold len. lia.
  - intros k Hk. rewrite length_map, range_length in Hk. unfold len in Hk.
    rewrite map_range_nth by (unfold len; lia).
    rewrite nth_repeat, K; [reflexivity|]. unfold len. lia.
Qed.

(** X23.  When [L] and [max_labels] have no common factor, nothing
    survives: every tick is blank (eleven values with the default
    [max_labels = 10] lose all their labels). *)
Theorem legend_scaler_coprime (legend_values : list value) (max_labels : Z) :
  0 < max_labels <= len legend_values -> len legend_values < 2 ^ 26 ->
  Z.gcd (len legend_values) max_labels = 1 ->
  Binary64.legend_scaler legend_values max_labels
  = Ok (repeat blank (List.length legend_values)).
Proof.
  intros Hm HL Hg.
  apply legend_scaler_binary64_blank; [assumption | lia |].
  intros i Hi. rewrite legend_kept_binary64 by assumption.
  destruct (legend_keep (len legend_values) max_labels i) eqn:K;
    [|reflexivity].
  exfalso. unfold legend_keep in K. apply andb_prop in K as [K0 K1].
  apply negb_true_iff, Z.eqb_neq in K0. apply Z.eqb_eq in K1.
  apply Z.mod_divide in K1; [|lia].
  rewrite Z.mul_comm in K1. apply Z.gauss in K1; [|exact Hg].
  apply Z.divide_pos_le in K1; lia.
Qed.

Lemma legend_scaler_coprime_witness :
  (0 < 10 <= len (map (fun i => Num (num i)) (range 11))
   /\ len (map (fun i => Num (num i)) (range 11)) < 2 ^ 26
   /\ Z.gcd (len (map (fun i => Num (num i)) (range 11))) 10 = 1)
  /\ Binary64.legend_scaler (map (fun i => Num (num i)) (range 11)) 10
     = Ok (repeat blank (List.length (map (fun i => Num (num i)) (range 11)))).
Proof.
  split; [closed_Z|].
  apply legend_scaler_coprime; closed_Z.
Defined.

(** X29.  Where the quotient [L / max_labels] is not a binary64 number,
    nothing survives either: the rounded divisor has no integer multiple
    among the positions, and every tick is blank (fourteen values with
    the default [max_labels = 10], although [7 * 10] is a multiple of
    [14]). *)
Theorem legend_scaler_inexact_quotient
  (legend_values : list value) (max_labels : Z) :
  0 < max_labels <= len legend_values -> len legend_values < 2 ^ 26 ->
  ~ (Binary64.round (num (len legend_values) / num max_labels)
     == num (len legend_values) / num max_labels)%Q ->
  Binary64.legend_scaler legend_values max_labels
  = Ok (repeat blank (List.length legend_values)).
Proof.
  intros Hm HL Hq.
  apply legend_scaler_binary64_blank; [assumption | lia |].
  intros i Hi. rewrite legend_kept_binary64 by assumption.
  destruct (Qeq_bool _ _) eqn:E; [|apply andb_false_r].
  apply Qeq_bool_iff in E. contradiction.
Qed.

Lemma legend_scaler_inexact_quotient_witness :
  (0 < 10 <= len (map (fun i => Num (num i)) (range 14))
   /\ len (map (fun i => Num (num i)) (range 14)) < 2 ^ 26
   /\ ~ (Binary64.round
           (num (len (map (fun i => Num (num i)) (range 14))) / num 10)
         == num (len (map (fun i => Num (num i)) (range 14))) / num 10)%Q)
  /\ Binary64.legend_scaler (map (fun i => Num (num i)) (range 14)) 10
     = Ok (repeat blank (List.length (map (fun i => Num (num i)) (range 14)))).
Proof.
  split; [closed_Z|].
  apply legend_scaler_inexact_quotient; closed_Z.
Defined.

(** X30.  Where [max_labels] divides the number of values [L], the code
    does what the reference definition says: the divisor is the integer
    [L / max_labels], and the entry at index [i] survives exactly when
    [i] is not [0] and is a multiple of it. *)
Theorem legend_scaler_divides (legend_values : list value) (max_labels : Z) :
  0 < max_labels <= len legend_values -> len legend_values < 2 ^ 53 ->
  (max_labels | len legend_values) ->
  Binary64.legend_scaler legend_values max_labels
  = Ok (scale_legend legend_values max_labels)
  /\ scale_legend legend_values max_labels
     = map (fun i =>
              if negb (i =? 0)
                 && (i mod (len legend_values / max_labels) =? 0)
              then nth (Z.to_nat i) legend_values blank
              else blank)
         (range (len legend_values)).
Proof.
  intros Hm HL Hd.
  pose proof (round_quotient_divides _ _ Hm HL Hd) as E.
  rewrite legend_scaler_binary64_map by assumption.
  rewrite scale_legend_map by lia. split.
  - f_equal. apply map_ext. intros i. now rewrite (legend_kept_comp _ _ i E).
  - apply map_ext. intros i.
    replace (legend_kept (num (len legend_values) / num max_labels) i)
      with (negb (i =? 0) && (i mod (len legend_values / max_labels) =? 0));
      [reflexivity|].
    unfold legend_kept. f_equal.
    change (real_mod (inject_Z i) (num (len legend_values) / num max_labels))
      with (mod_ (num i) (num (len legend_values) / num max_labels)).
    rewrite legend_keep_divides by lia.
    destruct Hd as [c Hc]. rewrite Hc.
    rewrite Z.div_mul by lia.
    assert (0 < c) by nia.
    apply eq_true_iff_eq. rewrite !Z.eqb_eq.
    rewrite !Z.mod_divide by nia.
    split.
    + intros [k Hk]. exists k.
      apply (Z.mul_cancel_r _ _ max_labels); [lia|]. lia.
    + intros [k Hk]. exists k. nia.
Qed.

Lemma legend_scaler_divides_witness :
  (0 < 10 <= len (map (fun i => Num (num i)) (range 20))
   /\ len (map (fun i => Num (num i)) (range 20)) < 2 ^ 53
   /\ (10 | len (map (fun i => Num (num i)) (range 20))))
  /\ Binary64.legend_scaler (map (fun i => Num (num i)) (range 20)) 10
     = Ok (scale_legend (map (fun i => Num (num i)) (range 20)) 10).
Proof.
  assert (H : (10 | len (map (fun i => Num (num i)) (range 20))))
    by (exists 2; vm_compute; reflexivity).
  split; [split; [closed_Z | split; [closed_Z | exact H]]|].
  apply legend_scaler_divides; [closed_Z | closed_Z | exact H].
Defined.

(** ** The legend scaler in binary64, whatever the arguments *)

(** A loop that returns has passed every test, and its ticks are given
    by the outcomes. *)
Lemma legend_loop_returns
  (values : list value) (divisor : Q) (l : list Z) (acc out : list value) :
  (forall i, In i l -> 0 <= i < len values) ->
  for_each l
    (fun i legend_ticks =>
       keep <- legend_test divisor i ;;
       if keep : bool
       then v <- getitem values i ;; Ok (legend_ticks ++ [v])%list
       else Ok (legend_ticks ++ [blank])%list)
    acc = Ok out ->
  out = (acc ++ map (legend_tick values divisor) l)%list
  /\ forall i, In i l -> exists b, legend_test divisor i = Ok b.
Proof.
  revert acc. induction l as [|x l IH]; intros acc Hr; cbn [for_each map].
  - intros [= <-]. split; [now rewrite app_nil_r | intros i []].
  - intros H.
    destruct (legend_test divisor x) as [b|e] eqn:T; cbn [bind] in H;
      [|discriminate].
    assert (Hx : 0 <= x < len values) by (apply Hr; now left).
    assert (Hr' : forall i, In i l -> 0 <= i < len values)
      by (intros i Hi; apply Hr; now right).
    assert (S : (if b then v <- getitem values x ;; Ok (acc ++ [v])%list
                 else Ok (acc ++ [blank])%list)
                = Ok (acc ++ [legend_tick values divisor x])%list).
    { unfold legend_tick. rewrite T. destruct b; [|reflexivity].
      now rewrite (getitem_nth values x blank Hx). }
    rewrite S in H. cbn [bind] in H.
    destruct (IH _ Hr' H) as [-> B]. split.
    + now rewrite <- app_assoc.
    + intros i [<-|Hi]; [eauto | now apply B].
Qed.

(** A loop whose tests all pass returns. *)
Lemma legend_loop_passes
  (values : list value) (divisor : Q) (l : list Z) (acc : list value) :
  (forall i, In i l -> 0 <= i < len values) ->
  (forall i, In i l -> exists b, legend_test divisor i = Ok b) ->
  for_each l
    (fun i legend_ticks =>
       keep <- legend_test divisor i ;;
       if keep : bool
       then v <- getitem values i ;; Ok (legend_ticks ++ [v])%list
       else Ok (legend_ticks ++ [blank])%list)
    acc = Ok (acc ++ map (legend_tick values divisor) l)%list.
Proof.
  intros Hr Ht. apply (for_each_append (legend_tick values divisor)).
  intros i a Hi. destruct (Ht i Hi) as [b T].
  unfold legend_tick. rewrite T. cbn [bind]. destruct b; [|reflexivity].
  now rewrite (getitem_nth values i blank (Hr i Hi)).
Qed.

(** X31.  Scaling twice changes nothing more, in binary64 and whatever
    the arguments: the ticks returned are a fixed point of
    [legend_scaler] for the same [max_labels]. *)
Theorem legend_scaler_binary64_idempotent
  (legend_values ticks : list value) (max_labels : Z) :
  Binary64.legend_scaler legend_values max_labels = Ok ticks ->
  Binary64.legend_scaler ticks max_labels = Ok ticks.
Proof.
  intros H.
  pose proof (legend_scaler_binary64_length _ _ _ H) as Len.
  unfold Binary64.legend_scaler in *. rewrite Len.
  destruct (len legend_values <? max_labels); [reflexivity|].
  destruct (Binary64.int_truediv (len legend_values) max_labels)
    as [divisor|e]; cbn [bind] in *; [|discriminate].
  fold (legend_test divisor) in *.
  assert (R : forall i, In i (range (len legend_values)) ->
                        0 <= i < len legend_values)
    by (intros i Hi; now apply range_In).
  destruct (legend_loop_returns _ _ _ _ _ R H) as [E T].
  cbn [app] in E.
  etransitivity;
    [apply (legend_loop_passes ticks divisor);
     [now rewrite Len | exact T]|].
  cbn [app]. rewrite E at 2. f_equal.
  apply map_ext_in. intros i Hi. apply range_In in Hi.
  unfold legend_tick at 1.
  destruct (legend_test divisor i) as [[]|] eqn:T';
    unfold legend_tick; rewrite T'; try reflexivity.
  rewrite E. rewrite map_range_nth by (unfold len in *; lia).
  rewrite Z2Nat.id by lia. unfold legend_tick. now rewrite T'.
Qed.

Lemma legend_scaler_binary64_idempotent_witness :
  Binary64.legend_scaler [Num 1; Num 2; Num 3; Num 4]%Q 2
  = Ok [blank; blank; Num 3; blank]%Q
  /\ Binary64.legend_scaler [blank; blank; Num 3; blank]%Q 2
     = Ok [blank; blank; Num 3; blank]%Q.
Proof.
  assert (H : Binary64.legend_scaler [Num 1; Num 2; Num 3; Num 4]%Q 2
              = Ok [blank; blank; Num 3; blank]%Q)
    by (vm_compute; reflexivity).
  split; [exact H|].
  exact (legend_scaler_binary64_idempotent
           [Num 1; Num 2; Num 3; Num 4]%Q _ 2 H).
Defined.

(** ** How many labels survive in binary64 *)

(** The rounded divisor, [max_labels] times, exceeds [L - 1]. *)
Lemma divisor_times_max_labels (L m : Z) :
  0 < m <= L -> L < 2 ^ 53 ->
  (num L - 1 < num m * Binary64.round (num L / num m))%Q.
Proof.
  intros Hm HL.
  pose proof (quotient_error L m Hm HL) as Err.
  assert (Pm : (0 < num m)%Q) by (apply (num_lt 0 m); lia).
  assert (Qm : (num L / num m * num m == num L)%Q) by (field; lra).
  assert (HL' : (num L < inject_Z (2 ^ 53))%Q) by (apply (num_lt L); lia).
  assert (P53 : (0 < inject_Z (2 ^ 53))%Q) by reflexivity.
  set (d := Binary64.round (num L / num m)) in *. clearbody d.
  set (q := (num L / num m)%Q) in *. clearbody q.
  set (c := inject_Z (2 ^ 53)) in *. clearbody c.
  assert (A : (q - d <= Qabs (d - q))%Q).
  { apply Qabs_case; intros ?; lra. }
  set (a := Qabs (d - q)) in *. clearbody a.
  (* [m * (q - d) * c <= m * q = L < c] *)
  assert (B1 : (num m * (q - d) <= num m * a)%Q)
    by (apply Qmult_le_l; assumption).
  assert (B2 : (num m * (a * c) <= num m * q)%Q)
    by (apply Qmult_le_l; assumption).
  assert (B3 : (num m * (q - d) * c <= num m * a * c)%Q)
    by (apply Qmult_le_compat_r; lra).
  assert (B : (num m * (q - d) * c < 1 * c)%Q) by lra.
  assert (C : (num m * (q - d) < 1)%Q)
    by (apply (Qmult_lt_r _ _ c); assumption).
  lra.
Qed.

(** At most [max_labels - 1] positions pass the test: a position that
    passes is [k * divisor] for one [k] of [1 .. max_labels - 1], and
    different positions have different [k]. *)
Lemma legend_kept_count (L m : Z) :
  0 < m <= L -> L < 2 ^ 53 ->
  (List.length
     (filter (legend_kept (Binary64.round (num L / num m))) (range L))
   <= Z.to_nat (m - 1))%nat.
Proof.
  intros Hm HL.
  destruct (int_truediv_quotient L m Hm HL) as [_ D1].
  pose proof (divisor_times_max_labels L m Hm HL) as DM.
  set (d := Binary64.round (num L / num m)) in *. clearbody d.
  set (kept := filter (legend_kept d) (range L)).
  set (f := fun i : Z => Qfloor (num i / d)).
  assert (Pm : (0 < num m)%Q) by (apply (num_lt 0 m); lia).
  assert (Hkept : forall i, In i kept ->
             0 < i < L /\ (num i == inject_Z (f i) * d)%Q /\ 0 < f i < m).
  { intros i Hi. apply filter_In in Hi as [Hr K]. apply range_In in Hr.
    apply legend_kept_iff in K; [|lra]. destruct K as [I0 [k Hk]].
    assert (E : (num i / d == inject_Z k)%Q) by (rewrite Hk; field; lra).
    assert (F : f i = k) by (unfold f; now rewrite (Qfloor_comp _ _ E), Qfloor_Z).
    rewrite F. split; [lia|]. split; [exact Hk|].
    assert (Pi : (0 < num i)%Q) by (apply (num_lt 0 i); lia).
    assert (Li : (num i <= num L - 1)%Q).
    { change 1%Q with (num 1). unfold num, Qminus.
      rewrite <- inject_Z_opp, <- inject_Z_plus, <- Zle_Qle. lia. }
    split.
    - assert (0 < inject_Z k)%Q by nra.
      change 0%Q with (inject_Z 0) in H. now rewrite <- Zlt_Qlt in H.
    - assert (inject_Z k < num m)%Q by nra.
      unfold num in H. now rewrite <- Zlt_Qlt in H. }
  assert (Hlen : List.length (map Z.of_nat (seq 1 (Z.to_nat (m - 1))))
                 = Z.to_nat (m - 1))
    by (now rewrite length_map, length_seq).
  rewrite <- Hlen, <- (length_map f kept).
  apply NoDup_incl_length.
  - apply NoDup_map_NoDup_ForallPairs.
    + intros x y Hx Hy E.
      destruct (Hkept x Hx) as (_ & Ex & _).
      destruct (Hkept y Hy) as (_ & Ey & _).
      rewrite E in Ex. rewrite <- Ey in Ex.
      exact (proj1 (inject_Z_injective _ _) Ex).
    + apply NoDup_filter, range_NoDup.
  - intros j Hj. apply in_map_iff in Hj as (i & <- & Hi).
    destruct (Hkept i Hi) as (_ & _ & B).
    apply in_map_iff. exists (Z.to_nat (f i)).
    split; [lia|]. apply in_seq. lia.
Qed.

(** X32.  The scaler does what it is for, in binary64 too: with
    [max_labels > 0] and a list of at most 53 bits of length, it returns,
    and the ticks carry fewer than [max_labels] labels that are not
    blank. *)
Theorem legend_scaler_binary64_label_count
  (legend_values : list value) (max_labels : Z) :
  0 < max_labels -> len legend_values < 2 ^ 53 ->
  exists ticks,
    Binary64.legend_scaler legend_values max_labels = Ok ticks
    /\ Z.of_nat (List.length (labels ticks)) < max_labels.
Proof.
  intros Hm HL.
  destruct (Z_lt_le_dec (len legend_values) max_labels) as [Hl|Hl].
  - exists legend_values. split.
    + unfold Binary64.legend_scaler.
      destruct (Z.ltb_spec (len legend_values) max_labels);
        [reflexivity | lia].
    + pose proof (filter_length_le (fun v => negb (is_blank v)) legend_values).
      unfold labels, len in *. lia.
  - rewrite legend_scaler_binary64_map by lia.
    eexists. split; [reflexivity|].
    set (d := Binary64.round _).
    pose proof (labels_map_length
                  (fun i => if legend_kept d i
                            then nth (Z.to_nat i) legend_values blank
                            else blank)
                  (legend_kept d)
                  (range (len legend_values))) as C.
    pose proof (legend_kept_count (len legend_values) max_labels
                  ltac:(lia) HL) as K.
    fold d in K.
    assert (forall i, legend_kept d i = false ->
                      (if legend_kept d i
                       then nth (Z.to_nat i) legend_values blank
                       else blank) = blank) as G by (now intros i ->).
    specialize (C G). lia.
Qed.

Lemma legend_scaler_binary64_label_count_witness :
  (0 < 10 /\ len (map (fun i => Num (num i)) (range 25)) < 2 ^ 53)
  /\ exists ticks,
       Binary64.legend_scaler (map (fun i => Num (num i)) (range 25)) 10
       = Ok ticks
       /\ Z.of_nat (List.length (labels ticks)) < 10.
Proof.
  split; [closed_Z|].
  apply legend_scaler_binary64_label_count; closed_Z.
Defined.
